(** * Terminus Veil: Blood Price -- a shallow embedding of the simulation core

    The Python sources under [src/] are rendered as Rocq functions, one
    module per Python class.  Mutable objects become records that are
    passed in and handed back; the shared random source becomes an explicit
    oracle that is threaded through every call that draws from it; Python
    exceptions and unbounded loops are made explicit in the [result] type. *)

From stdpp Require Import gmap strings list fin_maps pretty.
From Stdlib Require Import ZArith QArith Ascii.

Open Scope Z_scope.

(** ** The Python runtime, as far as the sources rely on it *)

Inductive exn : Type := NameError | IndexError | KeyError | ValueError.

(** Outcome of running a piece of Python: a value, a raised exception, or
    [OutOfFuel] when the bound given to an unbounded loop or recursion was
    too small to reach the end of it. *)
Inductive result (A : Type) : Type :=
| Ret (a : A)
| Raise (e : exn)
| OutOfFuel.
Arguments Ret {A} a.
Arguments Raise {A} e.
Arguments OutOfFuel {A}.

#[global] Instance result_ret : MRet result := @Ret.
#[global] Instance result_bind : MBind result := λ A B f m,
  match m with
  | Ret a => f a
  | Raise e => Raise e
  | OutOfFuel => OutOfFuel
  end.

(** [seq[i]] on a Python list: negative indices count from the end, and an
    index outside [-len, len) raises [IndexError]. *)
Definition getitem {A} (l : list A) (i : Z) : result A :=
  let n := Z.of_nat (length l) in
  let j := if i <? 0 then i + n else i in
  if (0 <=? j) && (j <? n)
  then match l !! Z.to_nat j with
       | Some a => Ret a
       | None => Raise IndexError
       end
  else Raise IndexError.

(** [range(start, stop)] and [range(start, stop, -1)]. *)
Definition range (start stop : Z) : list Z :=
  map (λ i, start + Z.of_nat i) (seq 0 (Z.to_nat (stop - start))).

Definition range_down (start stop : Z) : list Z :=
  map (λ i, start - Z.of_nat i) (seq 0 (Z.to_nat (start - stop))).

(** [range(a, b, step)] for the two steps the sources use, [1] and [-1]. *)
Definition range_step (start stop step : Z) : list Z :=
  if 0 <? step then range start stop else range_down start stop.

(** A [for] loop whose body may raise, over an accumulator. *)
Fixpoint for_each {A S} (l : list A) (body : S → A → result S) (s : S)
    : result S :=
  match l with
  | [] => Ret s
  | a :: l' => s' ← body s a; for_each l' body s'
  end.

(** *** The module [random]

    The generator is an oracle: an infinite tape of raw words and a cursor.
    Every draw reads the word under the cursor and advances it, so a fixed
    tape replays a fixed sequence of rolls. *)
Record Rng : Type := mkRng { tape : nat → Z; cursor : nat }.

Definition next_word (g : Rng) : Z * Rng :=
  (tape g (cursor g), mkRng (tape g) (S (cursor g))).

(** [random.random()]: a multiple of 2^-53 in [0, 1). *)
Definition random (g : Rng) : Q * Rng :=
  let '(w, g') := next_word g in
  (Qmake (w mod 2 ^ 53) (2 ^ 53)%positive, g').

Definition Qltb (a b : Q) : bool := negb (Qle_bool b a).

(** [random.randint(a, b)]: some integer of [a, b]; an empty range raises
    [ValueError]. *)
Definition randint (a b : Z) (g : Rng) : result (Z * Rng) :=
  if b <? a then Raise ValueError
  else let '(w, g') := next_word g in Ret (a + w mod (b - a + 1), g').

(** [random.choice(seq)]: some element; an empty sequence raises
    [IndexError]. *)
Definition choice {A} (l : list A) (g : Rng) : result (A * Rng) :=
  let '(w, g') := next_word g in
  match l !! Z.to_nat (w mod Z.of_nat (length l)) with
  | Some a => Ret (a, g')
  | None => Raise IndexError
  end.

(** ** items.py: item kinds, items, the inventory record *)

Inductive ItemType : Type := HEALTH_POTION | GOLD | MAGIC_SCROLL | WEAPON.

#[global] Instance ItemType_eq_dec : EqDecision ItemType.
Proof. solve_decision. Defined.

#[global] Instance ItemType_countable : Countable ItemType.
Proof.
  refine (inj_countable'
    (λ t, match t with
          | HEALTH_POTION => 0%nat | GOLD => 1%nat
          | MAGIC_SCROLL => 2%nat | WEAPON => 3%nat end)
    (λ n, match n with
          | 0%nat => HEALTH_POTION | 1%nat => GOLD
          | 2%nat => MAGIC_SCROLL | _ => WEAPON end) _).
  by intros [].
Defined.

(** [ItemType.value]: symbol, name, description. *)
Definition ItemType_value (t : ItemType) : string * string * string :=
  match t with
  | HEALTH_POTION => ("♥", "Health Potion", "Restores 25 HP")
  | GOLD => ("¤", "Gold", "Valuable currency")
  | MAGIC_SCROLL => ("♪", "Magic Scroll", "Mysterious scroll with unknown power")
  | WEAPON => ("†", "Sword", "A sharp blade that increases attack power")
  end.

Module Item.
Record t : Type := mk {
  x : Z;
  y : Z;
  item_type : ItemType;
  symbol : string;
  name : string;
  description : string;
  value : Z;
  is_collected : bool
}.

(** [Item.__init__]; [value] defaults to 1. *)
Definition init (ix iy : Z) (ty : ItemType) (v : Z) : t :=
  let '(sym, nm, descr) := ItemType_value ty in
  mk ix iy ty sym nm descr v false.
End Item.

Module Inventory.
(** [items] is a Python dict.  It is kept as a finite map: the order of
    its keys only decides which key a given random word selects in
    [random.choice(list(items.keys()))]. *)
Record t : Type := mk {
  items : gmap ItemType Z;
  gold : Z
}.

Definition init : t := mk ∅ 0.

Definition add_item (self : t) (item : Item.t) : string * t :=
  if decide (Item.item_type item = GOLD) then
    ("Picked up " +:+ pretty (Item.value item) +:+ " gold!",
     mk (items self) (gold self + Item.value item))
  else
    let items' :=
      match items self !! Item.item_type item with
      | Some c => <[Item.item_type item := c + Item.value item]> (items self)
      | None => <[Item.item_type item := Item.value item]> (items self)
      end in
    ("Picked up " +:+ Item.name item +:+ "!", mk items' (gold self)).

Definition get_item_count (self : t) (ty : ItemType) : Z :=
  default 0 (items self !! ty).
End Inventory.

(** ** player.py *)

Module Player.
Record t : Type := mk {
  x : Z;
  y : Z;
  symbol : string;
  hp : Z;
  max_hp : Z;
  attack_power : Z;
  inventory : Inventory.t;
  crit_chance : Q;
  memory_loss_count : Z;
  sight_radius_reduction : Z;
  disabled_movements : gset string;
  temp_attack_buff : Z;
  temp_buff_turns : Z;
  movement_penalty : Z;
  hp_regeneration : Z;
  surprise_damage : Q;
  vampire_touch : bool;
  can_use_potions : bool
}.

(** Attribute assignments [self.f = v]. *)
Definition set_pos (nx ny : Z) (p : t) : t :=
  mk nx ny (symbol p) (hp p) (max_hp p) (attack_power p) (inventory p)
     (crit_chance p) (memory_loss_count p) (sight_radius_reduction p)
     (disabled_movements p) (temp_attack_buff p) (temp_buff_turns p)
     (movement_penalty p) (hp_regeneration p) (surprise_damage p)
     (vampire_touch p) (can_use_potions p).
Definition set_hp (v : Z) (p : t) : t :=
  mk (x p) (y p) (symbol p) v (max_hp p) (attack_power p) (inventory p)
     (crit_chance p) (memory_loss_count p) (sight_radius_reduction p)
     (disabled_movements p) (temp_attack_buff p) (temp_buff_turns p)
     (movement_penalty p) (hp_regeneration p) (surprise_damage p)
     (vampire_touch p) (can_use_potions p).
Definition set_max_hp (v : Z) (p : t) : t :=
  mk (x p) (y p) (symbol p) (hp p) v (attack_power p) (inventory p)
     (crit_chance p) (memory_loss_count p) (sight_radius_reduction p)
     (disabled_movements p) (temp_attack_buff p) (temp_buff_turns p)
     (movement_penalty p) (hp_regeneration p) (surprise_damage p)
     (vampire_touch p) (can_use_potions p).
Definition set_attack_power (v : Z) (p : t) : t :=
  mk (x p) (y p) (symbol p) (hp p) (max_hp p) v (inventory p)
     (crit_chance p) (memory_loss_count p) (sight_radius_reduction p)
     (disabled_movements p) (temp_attack_buff p) (temp_buff_turns p)
     (movement_penalty p) (hp_regeneration p) (surprise_damage p)
     (vampire_touch p) (can_use_potions p).
Definition set_inventory (v : Inventory.t) (p : t) : t :=
  mk (x p) (y p) (symbol p) (hp p) (max_hp p) (attack_power p) v
     (crit_chance p) (memory_loss_count p) (sight_radius_reduction p)
     (disabled_movements p) (temp_attack_buff p) (temp_buff_turns p)
     (movement_penalty p) (hp_regeneration p) (surprise_damage p)
     (vampire_touch p) (can_use_potions p).
Definition set_crit_chance (v : Q) (p : t) : t :=
  mk (x p) (y p) (symbol p) (hp p) (max_hp p) (attack_power p) (inventory p)
     v (memory_loss_count p) (sight_radius_reduction p)
     (disabled_movements p) (temp_attack_buff p) (temp_buff_turns p)
     (movement_penalty p) (hp_regeneration p) (surprise_damage p)
     (vampire_touch p) (can_use_potions p).
Definition set_sight_radius_reduction (v : Z) (p : t) : t :=
  mk (x p) (y p) (symbol p) (hp p) (max_hp p) (attack_power p) (inventory p)
     (crit_chance p) (memory_loss_count p) v
     (disabled_movements p) (temp_attack_buff p) (temp_buff_turns p)
     (movement_penalty p) (hp_regeneration p) (surprise_damage p)
     (vampire_touch p) (can_use_potions p).
Definition set_temp_attack_buff (v : Z) (p : t) : t :=
  mk (x p) (y p) (symbol p) (hp p) (max_hp p) (attack_power p) (inventory p)
     (crit_chance p) (memory_loss_count p) (sight_radius_reduction p)
     (disabled_movements p) v (temp_buff_turns p)
     (movement_penalty p) (hp_regeneration p) (surprise_damage p)
     (vampire_touch p) (can_use_potions p).
Definition set_temp_buff_turns (v : Z) (p : t) : t :=
  mk (x p) (y p) (symbol p) (hp p) (max_hp p) (attack_power p) (inventory p)
     (crit_chance p) (memory_loss_count p) (sight_radius_reduction p)
     (disabled_movements p) (temp_attack_buff p) v
     (movement_penalty p) (hp_regeneration p) (surprise_damage p)
     (vampire_touch p) (can_use_potions p).
Definition set_movement_penalty (v : Z) (p : t) : t :=
  mk (x p) (y p) (symbol p) (hp p) (max_hp p) (attack_power p) (inventory p)
     (crit_chance p) (memory_loss_count p) (sight_radius_reduction p)
     (disabled_movements p) (temp_attack_buff p) (temp_buff_turns p)
     v (hp_regeneration p) (surprise_damage p)
     (vampire_touch p) (can_use_potions p).
Definition set_hp_regeneration (v : Z) (p : t) : t :=
  mk (x p) (y p) (symbol p) (hp p) (max_hp p) (attack_power p) (inventory p)
     (crit_chance p) (memory_loss_count p) (sight_radius_reduction p)
     (disabled_movements p) (temp_attack_buff p) (temp_buff_turns p)
     (movement_penalty p) v (surprise_damage p)
     (vampire_touch p) (can_use_potions p).
Definition set_surprise_damage (v : Q) (p : t) : t :=
  mk (x p) (y p) (symbol p) (hp p) (max_hp p) (attack_power p) (inventory p)
     (crit_chance p) (memory_loss_count p) (sight_radius_reduction p)
     (disabled_movements p) (temp_attack_buff p) (temp_buff_turns p)
     (movement_penalty p) (hp_regeneration p) v
     (vampire_touch p) (can_use_potions p).
Definition set_vampire_touch (v : bool) (p : t) : t :=
  mk (x p) (y p) (symbol p) (hp p) (max_hp p) (attack_power p) (inventory p)
     (crit_chance p) (memory_loss_count p) (sight_radius_reduction p)
     (disabled_movements p) (temp_attack_buff p) (temp_buff_turns p)
     (movement_penalty p) (hp_regeneration p) (surprise_damage p)
     v (can_use_potions p).
Definition set_can_use_potions (v : bool) (p : t) : t :=
  mk (x p) (y p) (symbol p) (hp p) (max_hp p) (attack_power p) (inventory p)
     (crit_chance p) (memory_loss_count p) (sight_radius_reduction p)
     (disabled_movements p) (temp_attack_buff p) (temp_buff_turns p)
     (movement_penalty p) (hp_regeneration p) (surprise_damage p)
     (vampire_touch p) v.

(** [Player.__init__] followed by [_reset_sacrifice_attributes]. *)
Definition init (px py : Z) : t :=
  mk px py "☺" 100 100 10 Inventory.init
     0%Q 0 0 ∅ 0 0 0 0 1%Q false true.

(** The names bound at the top level of player.py.  The module has the
    single import [from .items import Inventory]; [can_crit] imports
    [random] inside its own body, which binds the name for that call
    only. *)
Definition module_globals : list string := ["Inventory"; "Player"].

(** Evaluating a global name: unbound names raise [NameError]. *)
Definition load_global (name : string) : result unit :=
  if bool_decide (name ∈ module_globals) then Ret () else Raise NameError.

(** [Player.move].  The grid is a list of rows of one-character tiles. *)
Definition move (self : t) (dx dy : Z) (game_map : list (list ascii))
    (g : Rng) : result (bool * t * Rng) :=
  if (0 <? dx) && bool_decide ("right" ∈ disabled_movements self) then
    Ret (false, self, g)
  else if (dx <? 0) && bool_decide ("left" ∈ disabled_movements self) then
    Ret (false, self, g)
  else if (0 <? dy) && bool_decide ("down" ∈ disabled_movements self) then
    Ret (false, self, g)
  else if (dy <? 0) && bool_decide ("up" ∈ disabled_movements self) then
    Ret (false, self, g)
  else
    (* [self.movement_penalty > 0 and random.random() < ...]: the right
       operand is evaluated only when the left one holds, and it starts
       by looking up the name [random]. *)
    '(cancelled, g1) ←
      (if 0 <? movement_penalty self then
         _ ← load_global "random";
         let '(r, g') := random g in
         Ret (Qltb r (inject_Z (movement_penalty self) * (1 # 10)), g')
       else Ret (false, g));
    if (cancelled : bool) then Ret (false, self, g1)
    else
      let new_x := x self + dx in
      let new_y := y self + dy in
      (* [0 <= new_x < len(game_map[0]) and 0 <= new_y < len(game_map)
         and game_map[new_y][new_x] != '#'], left to right. *)
      if 0 <=? new_x then
        row0 ← getitem game_map 0;
        if new_x <? Z.of_nat (length row0) then
          if (0 <=? new_y) && (new_y <? Z.of_nat (length game_map)) then
            row ← getitem game_map new_y;
            tile ← getitem row new_x;
            if negb (Ascii.eqb tile "#") then
              Ret (true, set_pos new_x new_y self, g1)
            else Ret (false, self, g1)
          else Ret (false, self, g1)
        else Ret (false, self, g1)
      else Ret (false, self, g1).

Definition take_damage (self : t) (damage : Z) : t :=
  set_hp (Z.max 0 (hp self - damage)) self.

Definition heal (self : t) (amount : Z) : t :=
  set_hp (Z.min (max_hp self) (hp self + amount)) self.

Definition is_alive (self : t) : bool := 0 <? hp self.

Definition get_effective_attack (self : t) : Z :=
  attack_power self + temp_attack_buff self.

Definition update_temporary_buffs (self : t) : t :=
  let p1 :=
    if (0 <? temp_attack_buff self) && (0 <? temp_buff_turns self) then
      let p := set_temp_buff_turns (temp_buff_turns self - 1) self in
      if temp_buff_turns p <=? 0 then set_temp_attack_buff 0 p else p
    else self in
  if (0 <? hp_regeneration p1) && (hp p1 <? max_hp p1) then
    set_hp (Z.min (max_hp p1) (hp p1 + hp_regeneration p1)) p1
  else p1.

Definition can_crit (self : t) (g : Rng) : bool * Rng :=
  let '(r, g') := random g in (Qltb r (crit_chance self), g').
End Player.


(** [Item.use], placed after [Player] because it updates the player it is
    given. *)
Definition Item_use (self : Item.t) (player : Player.t) (g : Rng)
    : result (string * Player.t * Rng) :=
  match Item.item_type self with
  | HEALTH_POTION =>
      let heal_amount := Z.min 25 (Player.max_hp player - Player.hp player) in
      Ret ("You drink the health potion and recover " +:+ pretty heal_amount
             +:+ " HP!",
           Player.set_hp (Player.hp player + heal_amount) player, g)
  | MAGIC_SCROLL =>
      '(effect, g1) ← choice ["heal"; "damage_boost"; "nothing"] g;
      if String.eqb effect "heal" then
        '(heal_amount, g2) ← randint 10 30 g1;
        Ret ("The scroll glows and heals you for " +:+ pretty heal_amount
               +:+ " HP!",
             Player.set_hp
               (Z.min (Player.max_hp player) (Player.hp player + heal_amount))
               player, g2)
      else if String.eqb effect "damage_boost" then
        Ret ("The scroll enhances your combat abilities! Attack +2!",
             Player.set_attack_power (Player.attack_power player + 2) player,
             g1)
      else Ret ("The scroll crumbles to dust. Nothing happens.", player, g1)
  | WEAPON =>
      Ret ("You equip the sword! Attack power increased by 5!",
           Player.set_attack_power (Player.attack_power player + 5) player, g)
  | GOLD =>
      Ret ("You collect " +:+ pretty (Item.value self) +:+ " gold pieces!",
           player, g)
  end.

(** [Inventory.use_item].  [None] is Python's [None].  The inventory is
    handed back next to the player: [Item.use] never touches
    [player.inventory], so a caller that passes the player's own inventory
    stores the returned one back into the player. *)
Definition Inventory_use_item (self : Inventory.t) (ty : ItemType)
    (player : Player.t) (g : Rng)
    : result (option string * Inventory.t * Player.t * Rng) :=
  match Inventory.items self !! ty with
  | None => Ret (None, self, player, g)
  | Some c =>
      if c <=? 0 then Ret (None, self, player, g)
      else
        let temp_item := Item.init 0 0 ty 1 in
        '(effect_message, player', g') ← Item_use temp_item player g;
        let c' := c - 1 in
        let items' :=
          if c' <=? 0 then delete ty (Inventory.items self)
          else <[ty := c']> (Inventory.items self) in
        Ret (Some effect_message,
             Inventory.mk items' (Inventory.gold self), player', g')
  end.

(** ** fov.py: the visibility tracker *)

Module VisibilityTracker.
Record t : Type := mk {
  explored : gset (Z * Z);
  visible : gset (Z * Z)
}.

Definition init : t := mk ∅ ∅.

Definition update_visibility (self : t) (new_visible : gset (Z * Z)) : t :=
  mk (explored self ∪ new_visible) new_visible.

Definition is_visible (self : t) (x y : Z) : bool :=
  bool_decide ((x, y) ∈ visible self).

Definition is_explored (self : t) (x y : Z) : bool :=
  bool_decide ((x, y) ∈ explored self).
End VisibilityTracker.

(** ** fov.py: the calculator *)

Module FOVCalculator.
Record t : Type := mk {
  game_map : list (list ascii);
  width : Z;
  height : Z
}.

(** [FOVCalculator.__init__]: [len(game_map[0]) if game_map else 0]. *)
Definition init (gm : list (list ascii)) : t :=
  mk gm (match gm with row0 :: _ => Z.of_nat (length row0) | [] => 0 end)
     (Z.of_nat (length gm)).

(** The [while True] loop of [_has_line_of_sight]; [fuel] bounds the number
    of iterations. *)
Fixpoint los_loop (fuel : nat) (gm : list (list ascii))
    (x1 y1 x2 y2 dx dy x_inc y_inc : Z) (x y error : Z) : result bool :=
  match fuel with
  | O => OutOfFuel
  | S fuel' =>
      blocked ←
        (if negb ((x =? x1) && (y =? y1)) then
           row ← getitem gm y;
           tile ← getitem row x;
           Ret (Ascii.eqb tile "#")
         else Ret false);
      if (blocked : bool) then Ret false
      else if (x =? x2) && (y =? y2) then Ret true
      else
        let error2 := 2 * error in
        let '(error', x') :=
          if - dy <? error2 then (error - dy, x + x_inc) else (error, x) in
        let '(error'', y') :=
          if error2 <? dx then (error' + dx, y + y_inc) else (error', y) in
        los_loop fuel' gm x1 y1 x2 y2 dx dy x_inc y_inc x' y' error''
  end.

Definition _has_line_of_sight (fuel : nat) (self : t) (x1 y1 x2 y2 : Z)
    : result bool :=
  let dx := Z.abs (x2 - x1) in
  let dy := Z.abs (y2 - y1) in
  let x_inc := if x1 <? x2 then 1 else -1 in
  let y_inc := if y1 <? y2 then 1 else -1 in
  los_loop fuel (game_map self) x1 y1 x2 y2 dx dy x_inc y_inc x1 y1 (dx - dy).

(** [math.sqrt(n) <= radius] for an integer [n >= 0] and an integer
    [radius].  The float square root is correctly rounded and monotone and
    is exact on perfect squares, so for radii below 2^26 (the game uses at
    most 8) the test holds exactly when [radius >= 0] and
    [n <= radius * radius]. *)
Definition sqrt_le (n radius : Z) : bool :=
  (0 <=? radius) && (n <=? radius * radius).

Definition calculate_simple_fov (fuel : nat) (self : t)
    (player_x player_y radius : Z) : result (gset (Z * Z)) :=
  for_each
    (range (Z.max 0 (player_y - radius))
           (Z.min (height self) (player_y + radius + 1)))
    (λ visible y,
       for_each
         (range (Z.max 0 (player_x - radius))
                (Z.min (width self) (player_x + radius + 1)))
         (λ visible x,
            if sqrt_le ((x - player_x) ^ 2 + (y - player_y) ^ 2) radius then
              sees ← _has_line_of_sight fuel self player_x player_y x y;
              if (sees : bool) then Ret ({[ (x, y) ]} ∪ visible)
              else Ret visible
            else Ret visible)
         visible)
    ∅.
End FOVCalculator.

(** ** monster.py *)

Inductive MonsterType : Type := GOBLIN | ORC | DRAGON.

(** [MonsterType.value]: symbol, hit points, attack power, name. *)
Definition MonsterType_value (t : MonsterType) : string * Z * Z * string :=
  match t with
  | GOBLIN => ("♠", 20, 5, "Goblin")
  | ORC => ("♣", 35, 8, "Orc")
  | DRAGON => ("♦", 100, 15, "Dragon")
  end.

Module Monster.
Record t : Type := mk {
  x : Z;
  y : Z;
  monster_type : MonsterType;
  symbol : string;
  max_hp : Z;
  hp : Z;
  attack_power : Z;
  name : string;
  is_alive : bool;
  turns_since_last_move : Z
}.

Definition init (mx my : Z) (ty : MonsterType) : t :=
  let '(sym, mhp, atk, nm) := MonsterType_value ty in
  mk mx my ty sym mhp mhp atk nm true 0.

Definition set_pos (nx ny : Z) (m : t) : t :=
  mk nx ny (monster_type m) (symbol m) (max_hp m) (hp m) (attack_power m)
     (name m) (is_alive m) (turns_since_last_move m).
Definition set_turns_since_last_move (v : Z) (m : t) : t :=
  mk (x m) (y m) (monster_type m) (symbol m) (max_hp m) (hp m)
     (attack_power m) (name m) (is_alive m) v.

Definition take_damage (self : t) (damage : Z) : bool * t :=
  let hp' := Z.max 0 (hp self - damage) in
  if hp' <=? 0 then
    (true, mk (x self) (y self) (monster_type self) "☠" (max_hp self) hp'
              (attack_power self) (name self) false
              (turns_since_last_move self))
  else
    (false, mk (x self) (y self) (monster_type self) (symbol self)
               (max_hp self) hp' (attack_power self) (name self)
               (is_alive self) (turns_since_last_move self)).

(** [Monster.attack]; the target is not used. *)
Definition attack (self : t) (g : Rng) : result (Z * Rng) :=
  if negb (is_alive self) then Ret (0, g)
  else randint (Z.max 1 (attack_power self - 2)) (attack_power self + 2) g.

Definition move_towards (self : t) (target_x target_y : Z)
    (game_map : list (list ascii)) (speed_buff : Z) (g : Rng)
    : result (bool * t * Rng) :=
  if negb (is_alive self) then Ret (false, self, g)
  else
    let self1 :=
      set_turns_since_last_move (turns_since_last_move self + 1) self in
    let move_threshold := Z.max 1 (2 - speed_buff) in
    if turns_since_last_move self1 <? move_threshold then
      Ret (false, self1, g)
    else
      let self2 := set_turns_since_last_move 0 self1 in
      let dx := if x self2 <? target_x then 1
                else if target_x <? x self2 then -1 else 0 in
      let dy := if y self2 <? target_y then 1
                else if target_y <? y self2 then -1 else 0 in
      let '(dx, dy, g1) :=
        if negb (dx =? 0) && negb (dy =? 0) then
          let '(r1, ga) := random g in
          if Qltb r1 (3 # 10) then
            let '(r2, gb) := random ga in
            if Qltb r2 (1 # 2) then (dx, 0, gb) else (0, dy, gb)
          else (dx, dy, ga)
        else (dx, dy, g) in
      let new_x := x self2 + dx in
      let new_y := y self2 + dy in
      if 0 <=? new_x then
        row0 ← getitem game_map 0;
        if new_x <? Z.of_nat (length row0) then
          if (0 <=? new_y) && (new_y <? Z.of_nat (length game_map)) then
            row ← getitem game_map new_y;
            tile ← getitem row new_x;
            if negb (Ascii.eqb tile "#") then
              Ret (true, set_pos new_x new_y self2, g1)
            else Ret (false, self2, g1)
          else Ret (false, self2, g1)
        else Ret (false, self2, g1)
      else Ret (false, self2, g1).

(** [distance_to(x, y) <= bound]: the distance is the float
    [(dx**2 + dy**2) ** 0.5]; against the integer bound the caller uses (8)
    the comparison is the one on the squares. *)
Definition distance_to_le (self : t) (px py bound : Z) : bool :=
  (0 <=? bound) && ((x self - px) ^ 2 + (y self - py) ^ 2 <=? bound * bound).

Definition is_adjacent_to (self : t) (px py : Z) : bool :=
  (Z.abs (x self - px) <=? 1) && (Z.abs (y self - py) <=? 1)
  && (negb (x self =? px) || negb (y self =? py)).
End Monster.

Module MonsterManager.
(** [self.monsters]: a Python list of monster objects.  An object is
    identified by its position in the list; mutating a monster writes the
    list slot, so every holder of the list sees the change. *)
Abbreviation t := (list Monster.t) (only parsing).

(** [get_monster_at]: the first living monster on the tile, as its slot. *)
Fixpoint find_from (i : nat) (l : list Monster.t) (px py : Z) : option nat :=
  match l with
  | [] => None
  | m :: l' =>
      if (Monster.x m =? px) && (Monster.y m =? py) && Monster.is_alive m
      then Some i
      else find_from (S i) l' px py
  end.

Definition get_monster_at (self : t) (px py : Z) : option nat :=
  find_from 0 self px py.

Definition remove_dead_monsters (self : t) : t :=
  filter (λ m, Monster.is_alive m = true) self.

(** The first loop of [_can_see_player] ([dx > dy]).  [error] is a float
    that only ever holds multiples of one half; [error2] is twice it. *)
Fixpoint see_along_x (game_map : list (list ascii)) (xs : list Z)
    (y error2 dx dy y_step : Z) : result bool :=
  match xs with
  | [] => Ret true
  | x :: xs' =>
      row ← getitem game_map y;
      tile ← getitem row x;
      if Ascii.eqb tile "#" then Ret false
      else
        let error2 := error2 - 2 * dy in
        if error2 <? 0
        then see_along_x game_map xs' (y + y_step) (error2 + 2 * dx)
               dx dy y_step
        else see_along_x game_map xs' y error2 dx dy y_step
  end.

(** The second loop ([dx <= dy]). *)
Fixpoint see_along_y (game_map : list (list ascii)) (ys : list Z)
    (x error2 dx dy x_step : Z) : result bool :=
  match ys with
  | [] => Ret true
  | y :: ys' =>
      row ← getitem game_map y;
      tile ← getitem row x;
      if Ascii.eqb tile "#" then Ret false
      else
        let error2 := error2 - 2 * dx in
        if error2 <? 0
        then see_along_y game_map ys' (x + x_step) (error2 + 2 * dy)
               dx dy x_step
        else see_along_y game_map ys' x error2 dx dy x_step
  end.

Definition _can_see_player (monster : Monster.t) (player_x player_y : Z)
    (game_map : list (list ascii)) : result bool :=
  let dx := Z.abs (player_x - Monster.x monster) in
  let dy := Z.abs (player_y - Monster.y monster) in
  if (dx =? 0) && (dy =? 0) then Ret true
  else
    let x1 := Monster.x monster in
    let y1 := Monster.y monster in
    let x2 := player_x in
    let y2 := player_y in
    let x_step := if x1 <? x2 then 1 else -1 in
    let y_step := if y1 <? y2 then 1 else -1 in
    if dy <? dx then
      see_along_x game_map (range_step x1 x2 x_step) y1 dx dx dy y_step
    else
      see_along_y game_map (range_step y1 y2 y_step) x1 dy dx dy x_step.

(** The body of the loop of [update_monsters] for the monster in slot [i]. *)
Definition update_monster (player_x player_y : Z)
    (game_map : list (list ascii)) (visibility_tracker : VisibilityTracker.t)
    (speed_buff : Z) (st : list string * t * Rng) (i : nat)
    : result (list string * t * Rng) :=
  let '(messages, monsters, g) := st in
  match monsters !! i with
  | None => Ret st
  | Some monster =>
      if negb (Monster.is_alive monster) then Ret st
      else if negb (VisibilityTracker.is_visible visibility_tracker
                      (Monster.x monster) (Monster.y monster)) then Ret st
      else if Monster.is_adjacent_to monster player_x player_y then
        Ret (messages ++ ["The " +:+ Monster.name monster
                            +:+ " growls menacingly!"], monsters, g)
      else if Monster.distance_to_le monster player_x player_y 8 then
        sees ← _can_see_player monster player_x player_y game_map;
        if (sees : bool) then
          let old_x := Monster.x monster in
          let old_y := Monster.y monster in
          '(moved, monster', g') ←
            Monster.move_towards monster player_x player_y game_map
              speed_buff g;
          let monsters' := <[i := monster']> monsters in
          if (moved : bool) then
            match get_monster_at monsters'
                    (Monster.x monster') (Monster.y monster') with
            | Some j =>
                if negb (Nat.eqb j i) then
                  Ret (messages,
                       <[i := Monster.set_pos old_x old_y monster']> monsters',
                       g')
                else
                  Ret (messages ++ ["The " +:+ Monster.name monster'
                                      +:+ " moves closer!"], monsters', g')
            | None =>
                Ret (messages ++ ["The " +:+ Monster.name monster'
                                    +:+ " moves closer!"], monsters', g')
            end
          else Ret (messages, monsters', g')
        else Ret st
      else Ret st
  end.

(** [update_monsters]: the loop runs over a copy of the list, that is over
    every slot once, in order. *)
Definition update_monsters (self : t) (player_x player_y : Z)
    (game_map : list (list ascii)) (visibility_tracker : VisibilityTracker.t)
    (speed_buff : Z) (g : Rng) : result (list string * t * Rng) :=
  for_each (seq 0 (length self))
    (update_monster player_x player_y game_map visibility_tracker speed_buff)
    ([], self, g).
End MonsterManager.

(** ** combat.py *)

Module GameState.
Record t : Type := mk {
  game_over : bool;
  victory : bool;
  current_level : Z;
  score : Z;
  item_spawn_bonus : Z;
  monster_speed_buff : Z
}.

Definition init : t := mk false false 1 0 0 0.

Definition advance_level (self : t) : t :=
  let level := current_level self + 1 in
  mk (game_over self) false level (score self + 100 * level)
     (item_spawn_bonus self) (monster_speed_buff self).

Definition get_monster_count_for_level (self : t) : Z :=
  let base_count := 3 + current_level self in
  let sacrifice_bonus := Z.min (current_level self * 2) 10 in
  Z.min (base_count + sacrifice_bonus) 15.

Definition get_item_count_for_level (self : t) : Z :=
  let base_count := 5 + current_level self in
  Z.min (base_count + item_spawn_bonus self) 20.
End GameState.

Module CombatSystem.
Record t : Type := mk {
  turn_count : Z;
  combat_log : list string
}.

Definition init : t := mk 0 [].

Definition player_attack_monster (player : Player.t) (monster : Monster.t)
    (g : Rng) : result (list string * Player.t * Monster.t * Rng) :=
  if negb (Monster.is_alive monster) then
    Ret (["The " +:+ Monster.name monster +:+ " is already dead!"],
         player, monster, g)
  else
    let base_damage := Player.get_effective_attack player in
    '(damage, g') ← randint (Z.max 1 (base_damage - 2)) (base_damage + 3) g;
    let '(messages, player') :=
      if Player.vampire_touch player then
        let heal_amount := damage / 3 in
        (["[red]Vampiric touch heals you for " +:+ pretty heal_amount
            +:+ " HP![/]"],
         Player.set_hp
           (Z.min (Player.max_hp player) (Player.hp player + heal_amount))
           player)
      else ([], player) in
    let '(monster_died, monster') := Monster.take_damage monster damage in
    let messages :=
      messages ++ ["You attack the " +:+ Monster.name monster' +:+ " for "
                     +:+ pretty damage +:+ " damage!"] in
    let messages :=
      if (monster_died : bool) then
        messages ++ ["The " +:+ Monster.name monster' +:+ " dies!"]
      else
        messages ++ ["The " +:+ Monster.name monster' +:+ " has "
                       +:+ pretty (Monster.hp monster') +:+ "/"
                       +:+ pretty (Monster.max_hp monster')
                       +:+ " HP remaining."] in
    Ret (messages, player', monster', g').

Definition monster_attack_player (monster : Monster.t) (player : Player.t)
    (g : Rng) : result (list string * Player.t * Rng) :=
  if negb (Monster.is_alive monster) then Ret ([], player, g)
  else
    '(damage, g') ← Monster.attack monster g;
    let player' := Player.take_damage player damage in
    let messages :=
      ["The " +:+ Monster.name monster +:+ " attacks you for "
         +:+ pretty damage +:+ " damage!"] in
    let messages :=
      if negb (Player.is_alive player') then
        messages ++ ["You have died! Game Over!"]
      else
        messages ++ ["You have " +:+ pretty (Player.hp player') +:+ "/"
                       +:+ pretty (Player.max_hp player')
                       +:+ " HP remaining."] in
    Ret (messages, player', g').

(** The test guarding an attack in the second loop of [process_turn]. *)
Definition attacks_player (monster : Monster.t) (player : Player.t)
    (visibility_tracker : VisibilityTracker.t) : bool :=
  Monster.is_alive monster
  && Monster.is_adjacent_to monster (Player.x player) (Player.y player)
  && VisibilityTracker.is_visible visibility_tracker
       (Monster.x monster) (Monster.y monster).

(** The second loop of [process_turn], over the slots of the monster list.
    Next to the player and the generator it returns, per attack resolved,
    the slot of the attacker and the messages of that attack. *)
Definition attack_step (monsters : MonsterManager.t)
    (visibility_tracker : VisibilityTracker.t)
    (st : list (nat * list string) * Player.t * Rng) (i : nat)
    : result (list (nat * list string) * Player.t * Rng) :=
  let '(attacks, player, g) := st in
  match monsters !! i with
  | None => Ret st
  | Some monster =>
      if attacks_player monster player visibility_tracker then
        '(combat_messages, player', g') ←
          monster_attack_player monster player g;
        Ret (attacks ++ [(i, combat_messages)], player', g')
      else Ret st
  end.

Definition attack_loop (monsters : MonsterManager.t)
    (visibility_tracker : VisibilityTracker.t) (player : Player.t) (g : Rng)
    : result (list (nat * list string) * Player.t * Rng) :=
  for_each (seq 0 (length monsters)) (attack_step monsters visibility_tracker)
    ([], player, g).

(** The last ten entries of a list: [log[-10:]]. *)
Definition last_ten {A} (l : list A) : list A := drop (length l - 10) l.

Definition process_turn (self : t) (player : Player.t)
    (monster_manager : MonsterManager.t) (game_map : list (list ascii))
    (visibility_tracker : VisibilityTracker.t) (game_state : GameState.t)
    (g : Rng)
    : result (list string * t * Player.t * MonsterManager.t * Rng) :=
  let turn_count' := turn_count self + 1 in
  let speed_buff := GameState.monster_speed_buff game_state in
  '(monster_messages, monsters1, g1) ←
    MonsterManager.update_monsters monster_manager
      (Player.x player) (Player.y player) game_map visibility_tracker
      speed_buff g;
  '(attacks, player', g2) ←
    attack_loop monsters1 visibility_tracker player g1;
  let all_messages := monster_messages ++ concat (map snd attacks) in
  let monsters2 := MonsterManager.remove_dead_monsters monsters1 in
  let log := combat_log self ++ all_messages in
  let log := if (10 <? length log)%nat then last_ten log else log in
  Ret (all_messages, mk turn_count' log, player', monsters2, g2).
End CombatSystem.

(** ** sacrifice.py *)

Inductive SacrificeType : Type :=
| BLOOD | SIGHT | MEMORY | WEALTH | AGILITY
| SOUL | SANITY | HOPE | FUTURE | FAMILY.

#[global] Instance SacrificeType_eq_dec : EqDecision SacrificeType.
Proof. solve_decision. Defined.

#[global] Instance SacrificeType_countable : Countable SacrificeType.
Proof.
  refine (inj_countable'
    (λ t, match t with
          | BLOOD => 0%nat | SIGHT => 1%nat | MEMORY => 2%nat
          | WEALTH => 3%nat | AGILITY => 4%nat | SOUL => 5%nat
          | SANITY => 6%nat | HOPE => 7%nat | FUTURE => 8%nat
          | FAMILY => 9%nat end)
    (λ n, match n with
          | 0%nat => BLOOD | 1%nat => SIGHT | 2%nat => MEMORY
          | 3%nat => WEALTH | 4%nat => AGILITY | 5%nat => SOUL
          | 6%nat => SANITY | 7%nat => HOPE | 8%nat => FUTURE
          | _ => FAMILY end) _).
  by intros [].
Defined.

Module Altar.
Record t : Type := mk {
  x : Z;
  y : Z;
  used : bool;
  level : Z;
  sacrifice_options : list SacrificeType
}.
End Altar.

(** The part of [GameMap] the sacrifices reach: the tiles and the
    visibility tracker. *)
Module GameMap.
Record t : Type := mk {
  tiles : list (list ascii);
  visibility_tracker : VisibilityTracker.t
}.
End GameMap.

Module SacrificeSystem.
Record t : Type := mk {
  altars : list Altar.t;
  player_sacrifices : gmap SacrificeType Z;
  sacrifices_required : Z;
  total_sacrifices_made : Z
}.

Definition init : t := mk [] ∅ 1 0.

(** The first living altar on the tile, as its slot in [self.altars]. *)
Fixpoint find_altar (i : nat) (l : list Altar.t) (px py : Z) : option nat :=
  match l with
  | [] => None
  | a :: l' =>
      if (Altar.x a =? px) && (Altar.y a =? py) && negb (Altar.used a)
      then Some i
      else find_altar (S i) l' px py
  end.

Definition get_altar_at (self : t) (px py : Z) : option nat :=
  find_altar 0 (altars self) px py.

(** The two nested loops of the FUTURE branch. *)
Definition reveal_all (tiles : list (list ascii)) (explored : gset (Z * Z))
    : gset (Z * Z) :=
  foldl (λ acc y,
           foldl (λ acc x, {[ (x, y) ]} ∪ acc) acc
             (range 0 (Z.of_nat (length (hd [] tiles)))))
    explored (range 0 (Z.of_nat (length tiles))).

(** The SOUL branch's loss of one random inventory item. *)
Definition lose_random_item (inv : Inventory.t) (g : Rng)
    : result (Inventory.t * Rng) :=
  if bool_decide (Inventory.items inv = ∅) then Ret (inv, g)
  else
    '(item_type, g') ← choice (map fst (map_to_list (Inventory.items inv))) g;
    match Inventory.items inv !! item_type with
    | None => Raise KeyError
    | Some count =>
        if 0 <? count then
          let c' := count - 1 in
          let items' :=
            if c' <=? 0 then delete item_type (Inventory.items inv)
            else <[item_type := c']> (Inventory.items inv) in
          Ret (Inventory.mk items' (Inventory.gold inv), g')
        else Ret (inv, g')
    end.

Definition apply_sacrifice_effect (self : t) (sacrifice_type : SacrificeType)
    (player : Player.t) (game_state : GameState.t) (game_map : GameMap.t)
    (g : Rng)
    : result (string * t * Player.t * GameState.t * GameMap.t * Rng) :=
  let self1 :=
    mk (altars self)
       (<[sacrifice_type :=
            default 0 (player_sacrifices self !! sacrifice_type) + 1]>
          (player_sacrifices self))
       (sacrifices_required self)
       (total_sacrifices_made self + 1) in
  match sacrifice_type with
  | BLOOD =>
      let hp_loss := Z.max 10 (Player.max_hp player / 7) in
      let p1 := Player.set_max_hp
                  (Z.max 30 (Player.max_hp player - hp_loss)) player in
      let p2 := Player.set_hp (Z.min (Player.hp p1) (Player.max_hp p1)) p1 in
      let p3 := Player.set_attack_power (Player.attack_power p2 + 5) p2 in
      Ret ("[bright_red]You offer your blood![/] Max HP -" +:+ pretty hp_loss
             +:+ ", Attack +5 permanently!",
           self1, p3, game_state, game_map, g)
  | SIGHT =>
      let p1 := Player.set_sight_radius_reduction
                  (Player.sight_radius_reduction player + 2) player in
      let p2 := Player.set_crit_chance
                  (Player.crit_chance p1 + (1 # 4))%Q p1 in
      Ret ("[yellow]You sacrifice your sight![/] FOV shrinks by 2, Critical chance +25%!",
           self1, p2, game_state, game_map, g)
  | MEMORY =>
      let vt := GameMap.visibility_tracker game_map in
      let game_map' :=
        GameMap.mk (GameMap.tiles game_map)
          (VisibilityTracker.mk ∅ (VisibilityTracker.visible vt)) in
      let game_state' :=
        GameState.mk (GameState.game_over game_state)
          (GameState.victory game_state) (GameState.current_level game_state)
          (GameState.score game_state)
          (GameState.item_spawn_bonus game_state + 100)
          (GameState.monster_speed_buff game_state) in
      Ret ("[cyan]You sacrifice your memories![/] Map knowledge lost, items will abound!",
           self1, player, game_state', game_map', g)
  | WEALTH =>
      let inv := Player.inventory player in
      let gold_loss := Inventory.gold inv / 2 in
      let p1 := Player.set_inventory
                  (Inventory.mk (Inventory.items inv)
                     (Inventory.gold inv - gold_loss)) player in
      let p2 := Player.set_temp_attack_buff
                  (Player.temp_attack_buff p1 + 10) p1 in
      let p3 := Player.set_temp_buff_turns 15 p2 in
      Ret ("[gold]You sacrifice your wealth![/] Lost " +:+ pretty gold_loss
             +:+ " gold, Attack +10 for 15 turns!",
           self1, p3, game_state, game_map, g)
  | AGILITY =>
      let p1 := Player.set_movement_penalty
                  (Player.movement_penalty player + 1) player in
      let p2 := Player.set_max_hp (Player.max_hp p1 + 10) p1 in
      let p3 := Player.set_hp (Player.hp p2 + 10) p2 in
      Ret ("[magenta]You sacrifice your agility![/] Movement slowed, but gained +10 Max HP!",
           self1, p3, game_state, game_map, g)
  | SOUL =>
      '(inv', g') ← lose_random_item (Player.inventory player) g;
      let p1 := Player.set_inventory inv' player in
      let p2 := Player.set_attack_power (Player.attack_power p1 + 3) p1 in
      let p3 := Player.set_max_hp (Player.max_hp p2 + 10) p2 in
      let p4 := Player.set_hp
                  (Z.min (Player.max_hp p3) (Player.hp p3 + 10)) p3 in
      Ret ("[bold white]You sacrifice a piece of your soul![/] Lost an item, but gained +3 Attack and +10 Max HP!",
           self1, p4, game_state, game_map, g')
  | SANITY =>
      let game_state' :=
        GameState.mk (GameState.game_over game_state)
          (GameState.victory game_state) (GameState.current_level game_state)
          (GameState.score game_state) (GameState.item_spawn_bonus game_state)
          (GameState.monster_speed_buff game_state + 1) in
      let p1 := Player.set_surprise_damage 2%Q player in
      Ret ("[bold cyan]You sacrifice your sanity![/] Monsters move faster, but you ambush fiercely!",
           self1, p1, game_state', game_map, g)
  | HOPE =>
      let self2 :=
        mk (altars self1) (player_sacrifices self1)
           (sacrifices_required self1 + 1) (total_sacrifices_made self1) in
      let p1 := Player.set_hp_regeneration
                  (Player.hp_regeneration player + 2) player in
      Ret ("[bold yellow]You sacrifice your hope![/] Deeper descent requires more sacrifice, but you regenerate 2 HP per turn!",
           self2, p1, game_state, game_map, g)
  | FUTURE =>
      let score_loss := GameState.score game_state / 4 in
      let game_state' :=
        GameState.mk (GameState.game_over game_state)
          (GameState.victory game_state) (GameState.current_level game_state)
          (Z.max 0 (GameState.score game_state - score_loss))
          (GameState.item_spawn_bonus game_state)
          (GameState.monster_speed_buff game_state) in
      let vt := GameMap.visibility_tracker game_map in
      let game_map' :=
        GameMap.mk (GameMap.tiles game_map)
          (VisibilityTracker.mk
             (reveal_all (GameMap.tiles game_map)
                (VisibilityTracker.explored vt))
             (VisibilityTracker.visible vt)) in
      Ret ("[bold green]You sacrifice your future![/] Lost " +:+ pretty score_loss
             +:+ " score, but the map is revealed!",
           self1, player, game_state', game_map', g)
  | FAMILY =>
      let p1 := Player.set_can_use_potions false player in
      let p2 := Player.set_vampire_touch true p1 in
      Ret ("[bold red]You sacrifice your family![/] Potions are forbidden, but you heal when dealing damage!",
           self1, p2, game_state, game_map, g)
  end.

Definition can_use_exit (self : t) : bool :=
  sacrifices_required self <=? total_sacrifices_made self.

Definition get_sacrifices_remaining (self : t) : Z :=
  Z.max 0 (sacrifices_required self - total_sacrifices_made self).

Definition get_sacrifice_count (self : t) (ty : SacrificeType) : Z :=
  default 0 (player_sacrifices self !! ty).

Definition get_total_sacrifices (self : t) : Z := total_sacrifices_made self.

Definition reset (self : t) : t := mk [] ∅ 1 0.
End SacrificeSystem.

(** ** dungeon_generator.py *)

Module DungeonGenerator.
(** A room: [(x, y, width, height)]. *)
Definition room : Type := Z * Z * Z * Z.

(** [_split_space]; [fuel] bounds the depth of the recursion. *)
Fixpoint _split_space (fuel : nat) (x y width height min_size : Z) (g : Rng)
    : result (list room * Rng) :=
  match fuel with
  | O => OutOfFuel
  | S fuel' =>
      if (width <? min_size * 2) || (height <? min_size * 2) then
        let room_width := Z.max 3 (width - 2) in
        let room_height := Z.max 3 (height - 2) in
        '(off_x, g1) ← randint 0 (Z.max 0 (width - room_width)) g;
        '(off_y, g2) ← randint 0 (Z.max 0 (height - room_height)) g1;
        Ret ([(x + off_x, y + off_y, room_width, room_height)], g2)
      else
        '(split_horizontal, g1) ← choice [true; false] g;
        if (split_horizontal : bool) then
          '(split_point, g2) ← randint min_size (height - min_size) g1;
          '(rooms1, g3) ←
            _split_space fuel' x y width split_point min_size g2;
          '(rooms2, g4) ←
            _split_space fuel' x (y + split_point) width
              (height - split_point) min_size g3;
          Ret (rooms1 ++ rooms2, g4)
        else
          '(split_point, g2) ← randint min_size (width - min_size) g1;
          '(rooms1, g3) ←
            _split_space fuel' x y split_point height min_size g2;
          '(rooms2, g4) ←
            _split_space fuel' (x + split_point) y (width - split_point)
              height min_size g3;
          Ret (rooms1 ++ rooms2, g4)
  end.
End DungeonGenerator.

(** ** A run of sacrifices

    The whole state a sacrifice can reach, and the application of a list of
    sacrifice kinds one after the other (no restart in between). *)
Module Run.
Record state : Type := mk {
  system : SacrificeSystem.t;
  player : Player.t;
  game_state : GameState.t;
  game_map : GameMap.t;
  rng : Rng
}.

Definition step (st : state) (ty : SacrificeType) : result state :=
  '(_, s', p', gs', gm', g') ←
    SacrificeSystem.apply_sacrifice_effect (system st) ty (player st)
      (game_state st) (game_map st) (rng st);
  Ret (mk s' p' gs' gm' g').

Definition sacrifices (kinds : list SacrificeType) (st : state)
    : result state :=
  for_each kinds step st.
End Run.

(** ** A run of inventory operations *)
Module InvRun.
Inductive op : Type :=
| Add (item : Item.t)
| Use (ty : ItemType).

Definition step (st : Inventory.t * Player.t * Rng) (o : op)
    : result (Inventory.t * Player.t * Rng) :=
  let '(inv, p, g) := st in
  match o with
  | Add item => Ret ((Inventory.add_item inv item).2, p, g)
  | Use ty =>
      '(_, inv', p', g') ← Inventory_use_item inv ty p g;
      Ret (inv', p', g')
  end.

Definition run (ops : list op) (st : Inventory.t * Player.t * Rng)
    : result (Inventory.t * Player.t * Rng) :=
  for_each ops step st.

(** No stored entry has a count of zero or less. *)
Definition counts_positive (inv : Inventory.t) : Prop :=
  ∀ ty c, Inventory.items inv !! ty = Some c → 0 < c.

(** Every item added has a value of at least one. *)
Definition adds_positive (ops : list op) : Prop :=
  Forall (λ o, match o with Add item => 1 ≤ Item.value item | Use _ => True end)
    ops.
End InvRun.

(** ** Scenarios and auxiliary notions used in the statements *)

(** How many entries of a list of kinds are HOPE. *)
Definition hopes (kinds : list SacrificeType) : Z :=
  Z.of_nat (length (filter (λ ty, ty = HOPE) kinds)).

(** An oracle whose every word is zero, and the state of a player who has
    made one sacrifice while one is required. *)
Definition zero_rng : Rng := mkRng (λ _, 0) 0.
Definition one_of_one : SacrificeSystem.t :=
  SacrificeSystem.mk [] {[ BLOOD := 1 ]} 1 1.
Definition empty_map : GameMap.t := GameMap.mk [] VisibilityTracker.init.

(** Scenario C as the specification words it. *)
Definition hope_scenario_as_specified (self : SacrificeSystem.t)
    (p : Player.t) (gs : GameState.t) (gm : GameMap.t) (g : Rng) : Prop :=
  ∃ msg self' p' gs' gm' g',
    SacrificeSystem.apply_sacrifice_effect self HOPE p gs gm g
      = Ret (msg, self', p', gs', gm', g')
    ∧ SacrificeSystem.sacrifices_required self' = 2
    ∧ Player.hp_regeneration p' = Player.hp_regeneration p + 2
    ∧ SacrificeSystem.total_sacrifices_made self'
      = SacrificeSystem.total_sacrifices_made self
    ∧ SacrificeSystem.can_use_exit self' = false.

(** A sword of value zero, a potion, and a short run of inventory
    operations. *)
Definition worthless_sword : Item.t := Item.init 0 0 WEAPON 0.
Definition one_potion : Item.t := Item.init 3 4 HEALTH_POTION 1.
Definition potion_then_sword : list InvRun.op :=
  [InvRun.Add one_potion; InvRun.Use HEALTH_POTION;
   InvRun.Add (Item.init 5 6 WEAPON 1)].
Definition potion_inventory : Inventory.t :=
  Inventory.mk {[ HEALTH_POTION := 1 ]} 0.

(** The line of the combat log that reports the damage of a player
    attack. *)
Definition attack_report (monster : Monster.t) (damage : Z) : string :=
  "You attack the " +:+ Monster.name monster +:+ " for " +:+ pretty damage
    +:+ " damage!".

(** A room of five by three floor tiles, all of them in view. *)
Definition open_room : list (list ascii) :=
  replicate 3 (replicate 5 "."%char).
Definition all_visible : VisibilityTracker.t :=
  VisibilityTracker.mk ∅
    (list_to_set (x ← range 0 5; y ← range 0 3; [(x, y)])).

(** A monster whose last move was one turn ago. *)
Definition rested (m : Monster.t) : Monster.t :=
  Monster.set_turns_since_last_move 1 m.

(** Two goblins in a row, west of a player standing on (3, 1): the nearer
    one is next to the player, the farther one is first in the list. *)
Definition crowd : list Monster.t :=
  [rested (Monster.init 1 1 GOBLIN); Monster.init 2 1 GOBLIN].

(** No two living monsters share a tile. *)
Definition no_overlap (monsters : list Monster.t) : Prop :=
  ∀ i j mi mj,
    monsters !! i = Some mi → monsters !! j = Some mj → i ≠ j →
    Monster.is_alive mi = true → Monster.is_alive mj = true →
    (Monster.x mi, Monster.y mi) ≠ (Monster.x mj, Monster.y mj).

(** A room of three by three tiles: a single floor tile inside walls. *)
Definition cell_room : list (list ascii) :=
  [["#"; "#"; "#"]; ["#"; "."; "#"]; ["#"; "#"; "#"]]%char.

(** A player slowed by one AGILITY sacrifice. *)
Definition slowed_player : Player.t :=
  Player.set_movement_penalty 1 (Player.init 1 1).

(** The monster in slot [i] stands elsewhere after the update pass. *)
Definition moved (before after : list Monster.t) (i : nat) : Prop :=
  ∃ m m', before !! i = Some m ∧ after !! i = Some m'
    ∧ (Monster.x m, Monster.y m) ≠ (Monster.x m', Monster.y m').

(** One rested goblin two tiles west of a player standing on (3, 1). *)
Definition lone_goblin : list Monster.t := [rested (Monster.init 1 1 GOBLIN)].

(** The monster in slot [i] passes the test of the attack loop. *)
Definition attacker (monsters : list Monster.t)
    (visibility_tracker : VisibilityTracker.t) (player : Player.t) (i : nat)
    : bool :=
  match monsters !! i with
  | Some m => CombatSystem.attacks_player m player visibility_tracker
  | None => false
  end.

(** The terminal test of the partition as the specification words it:
    both dimensions below twice the minimum room size. *)
Definition terminal_as_specified (width height min_size : Z) : Prop :=
  width < 2 * min_size ∧ height < 2 * min_size.

(** The terminal test of [_split_space]. *)
Definition terminal (width height min_size : Z) : Prop :=
  width < 2 * min_size ∨ height < 2 * min_size.

(** Recursion depth that is always enough for a region. *)
Definition depth_bound (width height : Z) : nat :=
  Z.to_nat (Z.max 0 width + Z.max 0 height).

(** *** The line walked by [_has_line_of_sight]

    One pass through the loop body below the two tests: the update of
    [error], [x] and [y]. *)
Definition bresenham_step (dx dy x_inc y_inc : Z) (s : Z * Z * Z)
    : Z * Z * Z :=
  let '(x, y, error) := s in
  let error2 := 2 * error in
  let '(error', x') :=
    if - dy <? error2 then (error - dy, x + x_inc) else (error, x) in
  let '(error'', y') :=
    if error2 <? dx then (error' + dx, y + y_inc) else (error', y) in
  (x', y', error'').

(** The tiles the loop stands on, one per iteration, up to and including
    the target. *)
Fixpoint line_points (fuel : nat) (x2 y2 dx dy x_inc y_inc : Z)
    (s : Z * Z * Z) : list (Z * Z) :=
  match fuel with
  | O => []
  | S fuel' =>
      let '(x, y, _) := s in
      (x, y) ::
      (if (x =? x2) && (y =? y2) then []
       else line_points fuel' x2 y2 dx dy x_inc y_inc
              (bresenham_step dx dy x_inc y_inc s))
  end.

(** The Bresenham line from [(x1, y1)] to [(x2, y2)] as
    [_has_line_of_sight] walks it, both ends included. *)
Definition bresenham_line (x1 y1 x2 y2 : Z) : list (Z * Z) :=
  let dx := Z.abs (x2 - x1) in
  let dy := Z.abs (y2 - y1) in
  let x_inc := if x1 <? x2 then 1 else -1 in
  let y_inc := if y1 <? y2 then 1 else -1 in
  line_points (S (Z.to_nat (dx + dy))) x2 y2 dx dy x_inc y_inc
    (x1, y1, dx - dy).

(** The loop state after [a] steps along x and [b] steps along y. *)
Definition on_line (x1 y1 x2 y2 a b : Z) (s : Z * Z * Z) : Prop :=
  let dx := Z.abs (x2 - x1) in
  let dy := Z.abs (y2 - y1) in
  let x_inc := if x1 <? x2 then 1 else -1 in
  let y_inc := if y1 <? y2 then 1 else -1 in
  0 ≤ a ≤ dx ∧ 0 ≤ b ≤ dy
  ∧ s = (x1 + a * x_inc, y1 + b * y_inc, (b + 1) * dx - (a + 1) * dy).

(** Grids: every row as long as the first; a tile inside the grid; a wall
    tile. *)
Definition rectangular (gm : list (list ascii)) : Prop :=
  Forall (λ row, length row = length (hd [] gm)) gm.

Definition in_bounds (gm : list (list ascii)) (x y : Z) : Prop :=
  0 ≤ x < Z.of_nat (length (hd [] gm)) ∧ 0 ≤ y < Z.of_nat (length gm).

Definition wall_at (gm : list (list ascii)) (x y : Z) : bool :=
  match gm !! Z.to_nat y with
  | Some row =>
      match row !! Z.to_nat x with
      | Some tile => Ascii.eqb tile "#"
      | None => false
      end
  | None => false
  end.

(** A tile of the line that does not stop the loop: the origin, or a tile
    that is not a wall. *)
Definition unblocked (gm : list (list ascii)) (x1 y1 : Z) (q : Z * Z)
    : bool :=
  ((q.1 =? x1) && (q.2 =? y1)) || negb (wall_at gm q.1 q.2).

(** No wall on the line apart, possibly, from the origin's own tile. *)
Definition line_clear (gm : list (list ascii)) (x1 y1 x2 y2 : Z) : Prop :=
  ∀ q, q ∈ bresenham_line x1 y1 x2 y2 → q ≠ (x1, y1) →
       wall_at gm q.1 q.2 = false.

(** No wall on the line strictly between its two ends: the condition of
    the specification. *)
Definition clear_between (gm : list (list ascii)) (x1 y1 x2 y2 : Z) : Prop :=
  ∀ q, q ∈ bresenham_line x1 y1 x2 y2 → q ≠ (x1, y1) → q ≠ (x2, y2) →
       wall_at gm q.1 q.2 = false.

(** The two tests that guard [visible.add((x, y))]: the distance test and
    a walk along the line that meets no blocking tile. *)
Definition sqrt_le_and_clear (gm : list (list ascii)) (px py radius x y : Z)
    : bool :=
  FOVCalculator.sqrt_le ((x - px) ^ 2 + (y - py) ^ 2) radius
  && forallb (unblocked gm px py) (bresenham_line px py x y).

(** A corridor of two floor tiles closed by a wall. *)
Definition dead_end : list (list ascii) := [["."; "."; "#"]%char].

(** ** Further notions for the properties of the remaining code *)

(** The hit points of the player are between zero and the maximum. *)
Definition hp_in_range (p : Player.t) : Prop :=
  0 ≤ Player.hp p ≤ Player.max_hp p.

(** [n] successive calls of [update_temporary_buffs], one per move
    attempt. *)
Definition buffs_after (n : nat) (p : Player.t) : Player.t :=
  Nat.iter n Player.update_temporary_buffs p.

(** A monster taking a list of damages, one [take_damage] call each. *)
Definition damaged (ds : list Z) (m : Monster.t) : Monster.t :=
  foldl (λ m d, (Monster.take_damage m d).2) m ds.

Definition total_damage (ds : list Z) : Z := foldr Z.add 0 ds.

(** Everything about a monster except where it stands and when it last
    moved. *)
Definition same_monster (m m' : Monster.t) : Prop :=
  Monster.monster_type m' = Monster.monster_type m
  ∧ Monster.symbol m' = Monster.symbol m
  ∧ Monster.max_hp m' = Monster.max_hp m
  ∧ Monster.hp m' = Monster.hp m
  ∧ Monster.attack_power m' = Monster.attack_power m
  ∧ Monster.name m' = Monster.name m
  ∧ Monster.is_alive m' = Monster.is_alive m.

(** How often a kind occurs in a list of kinds. *)
Definition occurrences (ty : SacrificeType) (kinds : list SacrificeType)
    : Z :=
  Z.of_nat (length (filter (λ k, k = ty) kinds)).

(** A tile of the grid, at non-negative coordinates, that is not a wall. *)
Definition open_tile (gm : list (list ascii)) (x y : Z) : Prop :=
  0 ≤ x ∧ 0 ≤ y
  ∧ ∃ row tile, gm !! Z.to_nat y = Some row ∧ row !! Z.to_nat x = Some tile
      ∧ tile ≠ "#"%char.

(** A living monster standing on the tile. *)
Definition stands_on (m : Monster.t) (x y : Z) : Prop :=
  Monster.x m = x ∧ Monster.y m = y ∧ Monster.is_alive m = true.

(** An altar on the tile that has not been used. *)
Definition offers_at (a : Altar.t) (x y : Z) : Prop :=
  Altar.x a = x ∧ Altar.y a = y ∧ Altar.used a = false.

(** [altar.used = True], as [action_confirm_yes] of main.py does to the
    altar it holds once a sacrifice has been applied; the altar is the
    object in slot [i] of [sacrifice_system.altars]. *)
Definition consume_altar (i : nat) (self : SacrificeSystem.t)
    : SacrificeSystem.t :=
  SacrificeSystem.mk
    (match SacrificeSystem.altars self !! i with
     | Some a =>
         <[i := Altar.mk (Altar.x a) (Altar.y a) true (Altar.level a)
                  (Altar.sacrifice_options a)]> (SacrificeSystem.altars self)
     | None => SacrificeSystem.altars self
     end)
    (SacrificeSystem.player_sacrifices self)
    (SacrificeSystem.sacrifices_required self)
    (SacrificeSystem.total_sacrifices_made self).

(** [seq[start:]] on a Python list: a negative start counts from the end,
    and a start outside the list is clamped. *)
Definition slice_from {A} (l : list A) (start : Z) : list A :=
  let n := Z.of_nat (length l) in
  let i := if start <? 0 then Z.max 0 (start + n) else Z.min start n in
  drop (Z.to_nat i) l.

(** [CombatSystem.get_recent_messages]:
    [self.combat_log[-count:] if self.combat_log else []]. *)
Definition CombatSystem_get_recent_messages (self : CombatSystem.t)
    (count : Z) : list string :=
  match CombatSystem.combat_log self with
  | [] => []
  | _ => slice_from (CombatSystem.combat_log self) (- count)
  end.

(** [GameState.check_victory_condition]; it appends to the combat log of
    the combat system it is given. *)
Definition GameState_check_victory_condition (self : GameState.t)
    (player_x player_y : Z) (game_map : list (list ascii))
    (sacrifice_system : SacrificeSystem.t) (combat_system : CombatSystem.t)
    : result (bool * GameState.t * CombatSystem.t) :=
  on_exit ←
    (if 0 <=? player_x then
       row0 ← getitem game_map 0;
       if player_x <? Z.of_nat (length row0) then
         if (0 <=? player_y) && (player_y <? Z.of_nat (length game_map)) then
           row ← getitem game_map player_y;
           tile ← getitem row player_x;
           Ret (Ascii.eqb tile ">")
         else Ret false
       else Ret false
     else Ret false);
  if (on_exit : bool) then
    if SacrificeSystem.can_use_exit sacrifice_system then
      Ret (true,
           GameState.mk (GameState.game_over self) true
             (GameState.current_level self) (GameState.score self)
             (GameState.item_spawn_bonus self)
             (GameState.monster_speed_buff self),
           combat_system)
    else
      let sacrifices_needed :=
        SacrificeSystem.get_sacrifices_remaining sacrifice_system in
      Ret (false, self,
           CombatSystem.mk (CombatSystem.turn_count combat_system)
             (CombatSystem.combat_log combat_system
                ++ ["[red]The exit demands " +:+ pretty sacrifices_needed
                      +:+ " more sacrifice(s)![/]"]))
  else Ret (false, self, combat_system).

(** [GameState.check_defeat_condition]. *)
Definition GameState_check_defeat_condition (self : GameState.t)
    (player : Player.t) : bool * GameState.t :=
  if negb (Player.is_alive player) then
    (true,
     GameState.mk true (GameState.victory self)
       (GameState.current_level self) (GameState.score self)
       (GameState.item_spawn_bonus self) (GameState.monster_speed_buff self))
  else (false, self).

(** The tile is the exit. *)
Definition exit_tile (gm : list (list ascii)) (x y : Z) : Prop :=
  0 ≤ x ∧ 0 ≤ y
  ∧ ∃ row, gm !! Z.to_nat y = Some row ∧ row !! Z.to_nat x = Some ">"%char.

(** A series of visibility updates, oldest first. *)
Definition updates (vs : list (gset (Z * Z))) (t : VisibilityTracker.t)
    : VisibilityTracker.t :=
  foldl VisibilityTracker.update_visibility t vs.

(** [GameMap.update_fov].  [player] is the optional back-reference
    [self.player], which main.py sets after the map is built; the
    calculator is the one built from the map's tiles. *)
Definition GameMap_update_fov (fuel : nat) (self : GameMap.t)
    (player : option Player.t) (player_x player_y : Z) : result GameMap.t :=
  let base_radius := 8 in
  let base_radius :=
    match player with
    | Some p => Z.max 3 (base_radius - Player.sight_radius_reduction p)
    | None => base_radius
    end in
  visible_tiles ←
    FOVCalculator.calculate_simple_fov fuel
      (FOVCalculator.init (GameMap.tiles self)) player_x player_y base_radius;
  Ret (GameMap.mk (GameMap.tiles self)
         (VisibilityTracker.update_visibility
            (GameMap.visibility_tracker self) visible_tiles)).

(** A line moved by [(ox, oy)]. *)
Definition shift (ox oy : Z) (q : Z * Z) : Z * Z := (q.1 + ox, q.2 + oy).

(** *** fov.py: the eight rays

    The table of directions of [_cast_ray]. *)
Definition directions : list (Z * Z) :=
  [(0, -1); (1, -1); (1, 0); (1, 1); (0, 1); (-1, 1); (-1, 0); (-1, -1)].

(** The [for distance in range(1, radius + 1)] loop of [_cast_ray] with
    its two [break]s. *)
Fixpoint cast_ray_loop (self : FOVCalculator.t) (start_x start_y dx dy : Z)
    (distances : list Z) (visible : gset (Z * Z))
    : result (gset (Z * Z)) :=
  match distances with
  | [] => Ret visible
  | distance :: rest =>
      let x := start_x + dx * distance in
      let y := start_y + dy * distance in
      if negb ((0 <=? x) && (x <? FOVCalculator.width self)
               && ((0 <=? y) && (y <? FOVCalculator.height self)))
      then Ret visible
      else
        let visible := {[ (x, y) ]} ∪ visible in
        row ← getitem (FOVCalculator.game_map self) y;
        tile ← getitem row x;
        if Ascii.eqb tile "#" then Ret visible
        else cast_ray_loop self start_x start_y dx dy rest visible
  end.

Definition FOVCalculator_cast_ray (self : FOVCalculator.t)
    (start_x start_y direction radius : Z) (visible : gset (Z * Z))
    : result (gset (Z * Z)) :=
  d ← getitem directions direction;
  let '(dx, dy) := d in
  cast_ray_loop self start_x start_y dx dy (range 1 (radius + 1)) visible.

Definition FOVCalculator_calculate_fov (self : FOVCalculator.t)
    (player_x player_y radius : Z) : result (gset (Z * Z)) :=
  let visible := {[ (player_x, player_y) ]} ∪ ∅ in
  for_each (range 0 8)
    (λ visible direction,
       FOVCalculator_cast_ray self player_x player_y direction radius
         visible)
    visible.

(** The tile [k] steps from [(px, py)] in direction [d] is reached by the
    ray: every tile up to it lies on the map and no tile before it is a
    wall. *)
Definition ray_reaches (gm : list (list ascii)) (px py : Z) (d : Z * Z)
    (k0 k : Z) : Prop :=
  (∀ j, k0 ≤ j ≤ k → in_bounds gm (px + d.1 * j) (py + d.2 * j))
  ∧ (∀ j, k0 ≤ j < k → wall_at gm (px + d.1 * j) (py + d.2 * j) = false).

(** A monster the update pass leaves alone: dead, on a tile the player
    does not see, next to the player, or more than 8 tiles away. *)
Definition stays_put (vt : VisibilityTracker.t) (px py : Z)
    (m : Monster.t) : Prop :=
  Monster.is_alive m = false
  ∨ VisibilityTracker.is_visible vt (Monster.x m) (Monster.y m) = false
  ∨ Monster.is_adjacent_to m px py = true
  ∨ Monster.distance_to_le m px py 8 = false.

(** What the update pass may do to one monster: it stays the same monster,
    goes at most one tile along each axis, and ends on another tile only
    if that tile is on the map and no wall. *)
Definition one_step (gm : list (list ascii)) (m m' : Monster.t) : Prop :=
  same_monster m m'
  ∧ Z.abs (Monster.x m' - Monster.x m) ≤ 1
  ∧ Z.abs (Monster.y m' - Monster.y m) ≤ 1
  ∧ ((Monster.x m', Monster.y m') ≠ (Monster.x m, Monster.y m) →
     open_tile gm (Monster.x m') (Monster.y m')).

(** *** Rooms of the partition

    A room lies inside a region and is at least three tiles wide and
    high. *)
Definition room_inside (x y width height : Z) (r : DungeonGenerator.room)
    : Prop :=
  let '(rx, ry, rw, rh) := r in
  x ≤ rx ∧ rx + rw ≤ x + width ∧ y ≤ ry ∧ ry + rh ≤ y + height
  ∧ 3 ≤ rw ∧ 3 ≤ rh.

(** Two rooms share no tile. *)
Definition rooms_apart (r1 r2 : DungeonGenerator.room) : Prop :=
  let '(x1, y1, w1, h1) := r1 in
  let '(x2, y2, w2, h2) := r2 in
  x1 + w1 ≤ x2 ∨ x2 + w2 ≤ x1 ∨ y1 + h1 ≤ y2 ∨ y2 + h2 ≤ y1.

(** *** dungeon_generator.py: carving

    [seq[i] = a] on a Python list: negative indices count from the end,
    and an index outside [-len, len) raises [IndexError]. *)
Definition setitem {A} (l : list A) (i : Z) (a : A) : result (list A) :=
  let n := Z.of_nat (length l) in
  let j := if i <? 0 then i + n else i in
  if (0 <=? j) && (j <? n) then Ret (<[Z.to_nat j := a]> l)
  else Raise IndexError.

(** [dungeon[y][x] = tile], on a grid whose rows are distinct lists (as
    they are in the grids the generator builds). *)
Definition set_tile (dungeon : list (list ascii)) (x y : Z) (tile : ascii)
    : result (list (list ascii)) :=
  row ← getitem dungeon y;
  row' ← setitem row x tile;
  setitem dungeon y row'.

(** [_carve_corridor]; [width] and [height] are the generator's
    [self.width] and [self.height]. *)
Definition DungeonGenerator_carve_corridor (width height : Z)
    (dungeon : list (list ascii)) (x1 y1 x2 y2 : Z)
    : result (list (list ascii)) :=
  let '(x1, x2) := if x2 <? x1 then (x2, x1) else (x1, x2) in
  let '(y1, y2) := if y2 <? y1 then (y2, y1) else (y1, y2) in
  dungeon ←
    for_each (range x1 (x2 + 1))
      (λ dungeon x,
         if (0 <=? x) && (x <? width) && ((0 <=? y1) && (y1 <? height))
         then set_tile dungeon x y1 "."
         else Ret dungeon)
      dungeon;
  for_each (range y1 (y2 + 1))
    (λ dungeon y,
       if (0 <=? x2) && (x2 <? width) && ((0 <=? y) && (y <? height))
       then set_tile dungeon x2 y "."
       else Ret dungeon)
    dungeon.

(** [_connect_rooms]. *)
Definition DungeonGenerator_connect_rooms (width height : Z)
    (dungeon : list (list ascii)) (rooms : list DungeonGenerator.room)
    : result (list (list ascii)) :=
  for_each (range 0 (Z.of_nat (length rooms) - 1))
    (λ dungeon i,
       room1 ← getitem rooms i;
       room2 ← getitem rooms (i + 1);
       let '(r1x, r1y, r1w, r1h) := room1 in
       let '(r2x, r2y, r2w, r2h) := room2 in
       let x1 := r1x + r1w / 2 in
       let y1 := r1y + r1h / 2 in
       let x2 := r2x + r2w / 2 in
       let y2 := r2y + r2h / 2 in
       dungeon ←
         DungeonGenerator_carve_corridor width height dungeon x1 y1 x2 y1;
       DungeonGenerator_carve_corridor width height dungeon x2 y1 x2 y2)
    dungeon.

(** [generate_bsp_dungeon]; [fuel] bounds the depth of the partition. *)
Definition DungeonGenerator_generate_bsp_dungeon (fuel : nat)
    (width height : Z) (min_room_size : Z) (g : Rng)
    : result (list (list ascii) * Rng) :=
  let dungeon :=
    replicate (Z.to_nat height) (replicate (Z.to_nat width) "#"%char) in
  '(rooms, g') ←
    DungeonGenerator._split_space fuel 1 1 (width - 2) (height - 2)
      min_room_size g;
  dungeon ←
    for_each rooms
      (λ dungeon room,
         let '(x, y, w, h) := (room : DungeonGenerator.room) in
         for_each (range y (y + h))
           (λ dungeon ry,
              for_each (range x (x + w))
                (λ dungeon rx,
                   if (0 <=? rx) && (rx <? width)
                      && ((0 <=? ry) && (ry <? height))
                   then set_tile dungeon rx ry "."
                   else Ret dungeon)
                dungeon)
           dungeon)
      dungeon;
  dungeon ← DungeonGenerator_connect_rooms width height dungeon rooms;
  Ret (dungeon, g').

(** A grid of the given width and height. *)
Definition grid (width height : Z) (d : list (list ascii)) : Prop :=
  Z.of_nat (length d) = height
  ∧ Forall (λ row, Z.of_nat (length row) = width) d.

(** The tile at [(x, y)], if the grid has one. *)
Definition tile_at (d : list (list ascii)) (x y : Z) : option ascii :=
  if (0 <=? x) && (0 <=? y) then
    row ← d !! Z.to_nat y; row !! Z.to_nat x
  else None.

Definition floor_at (d : list (list ascii)) (q : Z * Z) : Prop :=
  tile_at d q.1 q.2 = Some "."%char.

(** [d'] is [d] with the tiles of [P] that lie on the grid turned into
    floor, and nothing else changed. *)
Definition carved (width height : Z) (P : Z → Z → Prop)
    (d d' : list (list ascii)) : Prop :=
  grid width height d'
  ∧ (∀ x y, 0 ≤ x < width → 0 ≤ y < height → P x y →
       tile_at d' x y = Some "."%char)
  ∧ (∀ x y, tile_at d' x y ≠ tile_at d x y →
       P x y ∧ 0 ≤ x < width ∧ 0 ≤ y < height
       ∧ tile_at d' x y = Some "."%char).

(** The centre of a room, as [_connect_rooms] computes it. *)
Definition centre (r : DungeonGenerator.room) : Z * Z :=
  let '(x, y, w, h) := r in (x + w / 2, y + h / 2).

(** The tiles of a room. *)
Definition in_room (r : DungeonGenerator.room) (x y : Z) : Prop :=
  let '(rx, ry, rw, rh) := r in rx ≤ x < rx + rw ∧ ry ≤ y < ry + rh.

(** The corridor from [a] to [b]: along the row of [a] to the column of
    [b], then along that column. *)
Definition on_corridor (a b : Z * Z) (x y : Z) : Prop :=
  (y = a.2 ∧ Z.min a.1 b.1 ≤ x ≤ Z.max a.1 b.1)
  ∨ (x = b.1 ∧ Z.min a.2 b.2 ≤ y ≤ Z.max a.2 b.2).

(** The tiles carved for a list of rooms: the rooms and the corridors
    between the centres of consecutive rooms. *)
Definition dug (rooms : list DungeonGenerator.room) (x y : Z) : Prop :=
  (∃ r, r ∈ rooms ∧ in_room r x y)
  ∨ (∃ (i : nat) r1 r2, rooms !! i = Some r1 ∧ rooms !! S i = Some r2
       ∧ on_corridor (centre r1) (centre r2) x y).

(** Two floor tiles next to each other, and the tiles joined by a walk
    over floor tiles. *)
Definition floor_step (d : list (list ascii)) (a b : Z * Z) : Prop :=
  floor_at d a ∧ floor_at d b
  ∧ Z.abs (a.1 - b.1) + Z.abs (a.2 - b.2) = 1.

Definition joined (d : list (list ascii)) (a b : Z * Z) : Prop :=
  rtc (floor_step d) a b.

(** *** Spawning

    [random.sample(population, k)]: [k] elements taken from distinct
    positions of the population, one draw each; a [k] that is negative or
    larger than the population raises [ValueError]. *)
Fixpoint sample_from {A} (k : nat) (pool : list A) (g : Rng)
    : list A * Rng :=
  match k with
  | O => ([], g)
  | S k' =>
      let '(w, g1) := next_word g in
      let j := Z.to_nat (w mod Z.of_nat (length pool)) in
      match pool !! j with
      | Some a =>
          let '(rest, g2) := sample_from k' (delete j pool) g1 in
          (a :: rest, g2)
      | None => ([], g1)
      end
  end.

Definition sample {A} (population : list A) (k : Z) (g : Rng)
    : result (list A * Rng) :=
  if (k <? 0) || (Z.of_nat (length population) <? k) then Raise ValueError
  else Ret (sample_from (Z.to_nat k) population g).

(** [DungeonGenerator.find_valid_positions]. *)
Definition DungeonGenerator_find_valid_positions
    (dungeon : list (list ascii)) (count : Z) (g : Rng)
    : result (list (Z * Z) * Rng) :=
  floor_tiles ←
    for_each (range 0 (Z.of_nat (length dungeon)))
      (λ floor_tiles y,
         row0 ← getitem dungeon 0;
         for_each (range 0 (Z.of_nat (length row0)))
           (λ floor_tiles x,
              row ← getitem dungeon y;
              tile ← getitem row x;
              if Ascii.eqb tile "." then Ret (floor_tiles ++ [(x, y)])
              else Ret floor_tiles)
           floor_tiles)
      [];
  if Z.of_nat (length floor_tiles) <? count then Ret (floor_tiles, g)
  else sample floor_tiles count g.

(** The kind of monster [spawn_monsters] picks for a level and a roll.
    The rolls are multiples of 2^-53, for which the comparisons with the
    float constants 0.2, 0.4, 0.5 and 0.8 agree with the comparisons with
    the fractions. *)
Definition spawn_kind (level : Z) (rand : Q) : MonsterType :=
  if level =? 1 then
    if Qltb rand (8 # 10) then GOBLIN else ORC
  else if level <=? 3 then
    if Qltb rand (4 # 10) then GOBLIN
    else if Qltb rand (8 # 10) then ORC
    else DRAGON
  else
    if Qltb rand (2 # 10) then GOBLIN
    else if Qltb rand (5 # 10) then ORC
    else DRAGON.

(** The body of the loop of [spawn_monsters] for one position. *)
Definition spawn_one (level : Z) (st : list Monster.t * Rng) (pos : Z * Z)
    : result (list Monster.t * Rng) :=
  let '(monsters, g) := st in
  let '(x, y) := pos in
  let '(rand, g') := random g in
  let monster_type := spawn_kind level rand in
  let monster := Monster.init x y monster_type in
  let bonus_hp := (level - 1) * 8 in
  let bonus_attack := (level - 1) * 3 in
  let monster :=
    Monster.mk (Monster.x monster) (Monster.y monster)
      (Monster.monster_type monster) (Monster.symbol monster)
      (Monster.max_hp monster + bonus_hp)
      (Monster.hp monster + bonus_hp)
      (Monster.attack_power monster + bonus_attack)
      (Monster.name monster) (Monster.is_alive monster)
      (Monster.turns_since_last_move monster) in
  Ret (monsters ++ [monster], g').

(** [MonsterManager.spawn_monsters]. *)
Definition MonsterManager_spawn_monsters (self : list Monster.t)
    (game_map : list (list ascii)) (count level : Z) (g : Rng)
    : result (list Monster.t * Rng) :=
  row0 ← getitem game_map 0;
  '(positions, g1) ←
    DungeonGenerator_find_valid_positions game_map count g;
  for_each positions (spawn_one level) (self, g1).

(** Where a monster stands. *)
Definition position (m : Monster.t) : Z * Z := (Monster.x m, Monster.y m).

(** A monster as [spawn_monsters] makes it for a level: alive, at full
    health, with the hit points and attack power of its kind raised by 8
    and 3 per level above the first. *)
Definition fresh_monster (level : Z) (m : Monster.t) : Prop :=
  m = Monster.mk (Monster.x m) (Monster.y m) (Monster.monster_type m)
        (MonsterType_value (Monster.monster_type m)).1.1.1
        ((MonsterType_value (Monster.monster_type m)).1.1.2 + (level - 1) * 8)
        ((MonsterType_value (Monster.monster_type m)).1.1.2 + (level - 1) * 8)
        ((MonsterType_value (Monster.monster_type m)).1.2 + (level - 1) * 3)
        (MonsterType_value (Monster.monster_type m)).2
        true 0.

(** *** sacrifice.py: a new altar

    [list(SacrificeType)]: the members in the order of their definition. *)
Definition all_options : list SacrificeType :=
  [BLOOD; SIGHT; MEMORY; WEALTH; AGILITY; SOUL; SANITY; HOPE; FUTURE; FAMILY].

(** [Altar._generate_sacrifice_options]. *)
Definition Altar_generate_sacrifice_options (g : Rng)
    : result (list SacrificeType * Rng) :=
  sample all_options 2 g.

(** [Altar.__init__]. *)
Definition Altar_init (x y level : Z) (g : Rng) : result (Altar.t * Rng) :=
  '(sacrifice_options, g') ← Altar_generate_sacrifice_options g;
  Ret (Altar.mk x y false level sacrifice_options, g').

(** *** dungeon_generator.py: the random walk

    One pass through the loop of [generate_random_walk]: the walker's
    tile is carved if it lies inside the border, then a direction is
    drawn and the walker moves unless that would leave the interior. *)
Definition random_walk_step (width height : Z)
    (st : list (list ascii) * Z * Z * Rng) (_ : Z)
    : result (list (list ascii) * Z * Z * Rng) :=
  let '(dungeon, x, y, g) := st in
  dungeon ←
    (if (1 <=? x) && (x <? width - 1) && ((1 <=? y) && (y <? height - 1))
     then set_tile dungeon x y "."
     else Ret dungeon);
  '(d, g') ← choice [(0, -1); (0, 1); (-1, 0); (1, 0)] g;
  let '(dx, dy) := (d : Z * Z) in
  let new_x := x + dx in
  let new_y := y + dy in
  if (1 <=? new_x) && (new_x <? width - 1)
     && ((1 <=? new_y) && (new_y <? height - 1))
  then Ret (dungeon, new_x, new_y, g')
  else Ret (dungeon, x, y, g').

(** [generate_random_walk]. *)
Definition DungeonGenerator_generate_random_walk (width height steps : Z)
    (g : Rng) : result (list (list ascii) * Rng) :=
  let dungeon :=
    replicate (Z.to_nat height) (replicate (Z.to_nat width) "#"%char) in
  let '(x, y) := (width / 2, height / 2) in
  '(dungeon, _, _, g') ←
    for_each (range 0 steps) (random_walk_step width height)
      (dungeon, x, y, g);
  Ret (dungeon, g').

(** The state of the walk is sound: the grid has its size and only wall
    and floor tiles, the walker and all floor lie inside the border, and
    if there is floor at all, the walker stands on or next to a floor
    tile from which all floor can be reached. *)
Definition walk_sound (width height : Z) (d : list (list ascii)) (x y : Z)
    : Prop :=
  grid width height d
  ∧ (1 ≤ x < width - 1 ∧ 1 ≤ y < height - 1)
  ∧ (∀ a b, 0 ≤ a < width → 0 ≤ b < height →
       tile_at d a b = Some "."%char ∨ tile_at d a b = Some "#"%char)
  ∧ (∀ a b, floor_at d (a, b) → 1 ≤ a < width - 1 ∧ 1 ≤ b < height - 1)
  ∧ ((∀ q, ¬ floor_at d q)
     ∨ ∃ p, floor_at d p
            ∧ Z.abs (p.1 - x) + Z.abs (p.2 - y) ≤ 1
            ∧ ∀ q, floor_at d q → joined d p q).

(** * Properties *)

(** ** Runtime facts *)

Lemma bind_Ret_inv {A B} (m : result A) (f : A → result B) (b : B) :
  m ≫= f = Ret b → ∃ a, m = Ret a ∧ f a = Ret b.
Proof. destruct m; simpl; intros H; try discriminate. eauto. Qed.

Lemma randint_range (a b : Z) (g : Rng) :
  a ≤ b → ∃ n g', randint a b g = Ret (n, g') ∧ a ≤ n ≤ b.
Proof.
  intros Hab. unfold randint.
  destruct (Z.ltb_spec b a) as [Hlt|_]; [lia|].
  simpl. eexists _, _. split; [reflexivity|].
  pose proof (Z.mod_pos_bound (tape g (cursor g)) (b - a + 1)). lia.
Qed.

Lemma randint_Ret_range (a b n : Z) (g g' : Rng) :
  randint a b g = Ret (n, g') → a ≤ n ≤ b.
Proof.
  unfold randint. destruct (Z.ltb_spec b a) as [|Hab]; [discriminate|].
  simpl. intros [= <- _].
  pose proof (Z.mod_pos_bound (tape g (cursor g)) (b - a + 1)). lia.
Qed.

Lemma choice_elem {A} (l : list A) (g : Rng) :
  l ≠ [] → ∃ a g', choice l g = Ret (a, g') ∧ a ∈ l.
Proof.
  intros Hl. unfold choice. simpl.
  assert (Hlen : (0 < length l)%nat) by (destruct l; [done | simpl; lia]).
  pose proof (Z.mod_pos_bound (tape g (cursor g)) (Z.of_nat (length l))) as Hb.
  destruct (lookup_lt_is_Some_2 l
              (Z.to_nat (tape g (cursor g) mod Z.of_nat (length l))))
    as [a Ha]; [lia|].
  rewrite Ha. eexists _, _. split; [reflexivity|].
  by eapply list_elem_of_lookup_2.
Qed.

(** ** The sacrifice engine *)

Section sacrifice.
Implicit Types (self : SacrificeSystem.t) (p : Player.t) (gs : GameState.t)
  (gm : GameMap.t) (g : Rng) (ty : SacrificeType).

Lemma lose_random_item_returns (inv : Inventory.t) g :
  ∃ inv' g', SacrificeSystem.lose_random_item inv g = Ret (inv', g').
Proof.
  unfold SacrificeSystem.lose_random_item.
  case_bool_decide as Hempty; [eauto|].
  destruct (choice_elem (map fst (map_to_list (Inventory.items inv))) g)
    as (k & g' & -> & Hk).
  { intros Hnil. apply Hempty, map_to_list_empty_iff.
    by destruct (map_to_list (Inventory.items inv)). }
  simpl. apply list_elem_of_fmap in Hk as [[k' c] [-> Hk]].
  apply elem_of_map_to_list in Hk. simpl. rewrite Hk.
  destruct (0 <? c); eauto.
Qed.

(** Every application returns, counts itself, and raises the requirement
    for the HOPE kind only. *)
Lemma apply_counters self ty p gs gm g :
  ∃ msg self' p' gs' gm' g',
    SacrificeSystem.apply_sacrifice_effect self ty p gs gm g
      = Ret (msg, self', p', gs', gm', g')
    ∧ SacrificeSystem.total_sacrifices_made self'
      = SacrificeSystem.total_sacrifices_made self + 1
    ∧ SacrificeSystem.sacrifices_required self'
      = SacrificeSystem.sacrifices_required self
        + (if decide (ty = HOPE) then 1 else 0).
Proof.
  destruct ty; simpl;
    try (do 6 eexists; split; [reflexivity|]; simpl; split; lia).
  destruct (lose_random_item_returns (Player.inventory p) g)
    as (inv' & g' & ->).
  simpl. do 6 eexists. split; [reflexivity|]. simpl. split; lia.
Qed.

Lemma step_counters (st : Run.state) ty :
  ∃ st', Run.step st ty = Ret st'
    ∧ SacrificeSystem.total_sacrifices_made (Run.system st')
      = SacrificeSystem.total_sacrifices_made (Run.system st) + 1
    ∧ SacrificeSystem.sacrifices_required (Run.system st')
      = SacrificeSystem.sacrifices_required (Run.system st)
        + (if decide (ty = HOPE) then 1 else 0).
Proof.
  unfold Run.step.
  destruct (apply_counters (Run.system st) ty (Run.player st)
              (Run.game_state st) (Run.game_map st) (Run.rng st))
    as (msg & s' & p' & gs' & gm' & g' & -> & Ht & Hr).
  simpl. eexists. split; [reflexivity|]. simpl. by split.
Qed.

Lemma sacrifices_counters (kinds : list SacrificeType) (st : Run.state) :
  ∃ st', Run.sacrifices kinds st = Ret st'
    ∧ SacrificeSystem.total_sacrifices_made (Run.system st')
      = SacrificeSystem.total_sacrifices_made (Run.system st)
        + Z.of_nat (length kinds)
    ∧ SacrificeSystem.sacrifices_required (Run.system st')
      = SacrificeSystem.sacrifices_required (Run.system st) + hopes kinds.
Proof.
  revert st. induction kinds as [|ty kinds IH]; intros st.
  - exists st. unfold hopes. simpl. repeat split; lia.
  - destruct (step_counters st ty) as (st1 & Hstep & Ht & Hr).
    destruct (IH st1) as (st' & Hrun & Ht' & Hr').
    exists st'. unfold Run.sacrifices in *. simpl. rewrite Hstep. simpl.
    split; [done|]. rewrite Ht', Hr', Ht, Hr. unfold hopes.
    rewrite filter_cons. destruct (decide (ty = HOPE)); simpl; lia.
Qed.

Lemma can_use_exit_iff self :
  SacrificeSystem.can_use_exit self = true
  ↔ SacrificeSystem.sacrifices_required self
    ≤ SacrificeSystem.total_sacrifices_made self.
Proof. unfold SacrificeSystem.can_use_exit. apply Z.leb_le. Qed.
End sacrifice.

(** C1, as stated, fails: with one sacrifice made and one required, HOPE
    leaves two made and two required, so the count has changed and the
    exit is still usable. *)
Lemma hope_scenario_counterexample :
  SacrificeSystem.can_use_exit one_of_one = true
  ∧ ¬ hope_scenario_as_specified one_of_one (Player.init 0 0) GameState.init
        empty_map zero_rng.
Proof.
  split; [reflexivity|].
  intros (msg & s' & p' & gs' & gm' & g' & Heq & _ & _ & Htot & _).
  simpl in Heq. injection Heq as _ <- _ _ _ _. simpl in Htot. lia.
Qed.

(** C1 (amended): from one sacrifice made and one required, HOPE makes
    [sacrifices_required] 2, adds 2 to [hp_regeneration], counts itself so
    that [total_sacrifices_made] becomes 2, and [can_use_exit] is still
    true right after. *)
Theorem hope_scenario (self : SacrificeSystem.t) (p : Player.t)
    (gs : GameState.t) (gm : GameMap.t) (g : Rng) :
  SacrificeSystem.sacrifices_required self = 1 →
  SacrificeSystem.total_sacrifices_made self = 1 →
  ∃ msg self' p',
    SacrificeSystem.apply_sacrifice_effect self HOPE p gs gm g
      = Ret (msg, self', p', gs, gm, g)
    ∧ SacrificeSystem.sacrifices_required self' = 2
    ∧ Player.hp_regeneration p' = Player.hp_regeneration p + 2
    ∧ SacrificeSystem.total_sacrifices_made self' = 2
    ∧ SacrificeSystem.can_use_exit self' = true.
Proof.
  intros Hreq Htot. simpl. do 3 eexists. split; [reflexivity|].
  unfold SacrificeSystem.can_use_exit. simpl. rewrite Hreq, Htot.
  repeat split; reflexivity.
Qed.

Lemma hope_scenario_witness :
  ∃ msg self' p',
    SacrificeSystem.apply_sacrifice_effect one_of_one HOPE (Player.init 0 0)
      GameState.init empty_map zero_rng
      = Ret (msg, self', p', GameState.init, empty_map, zero_rng)
    ∧ SacrificeSystem.sacrifices_required self' = 2
    ∧ Player.hp_regeneration p' = Player.hp_regeneration (Player.init 0 0) + 2
    ∧ SacrificeSystem.total_sacrifices_made self' = 2
    ∧ SacrificeSystem.can_use_exit self' = true.
Proof.
  apply (hope_scenario one_of_one (Player.init 0 0) GameState.init empty_map
           zero_rng); reflexivity.
Defined.

(** C3: the requirement starts at 1; every application returns, adds
    exactly 1 to [total_sacrifices_made], and adds 1 to
    [sacrifices_required] for HOPE and nothing for any other kind, so
    neither counter ever decreases; after any list of applications from a
    fresh engine the counters are the length of the list and 1 plus its
    number of HOPEs; and [can_use_exit] is true exactly when
    [total_sacrifices_made >= sacrifices_required]. *)
Theorem sacrifice_counters :
  SacrificeSystem.sacrifices_required SacrificeSystem.init = 1
  ∧ SacrificeSystem.total_sacrifices_made SacrificeSystem.init = 0
  ∧ (∀ self ty p gs gm g,
       ∃ msg self' p' gs' gm' g',
         SacrificeSystem.apply_sacrifice_effect self ty p gs gm g
           = Ret (msg, self', p', gs', gm', g')
         ∧ SacrificeSystem.total_sacrifices_made self'
           = SacrificeSystem.total_sacrifices_made self + 1
         ∧ SacrificeSystem.sacrifices_required self'
           = SacrificeSystem.sacrifices_required self
             + (if decide (ty = HOPE) then 1 else 0)
         ∧ SacrificeSystem.sacrifices_required self
           ≤ SacrificeSystem.sacrifices_required self')
  ∧ (∀ kinds p gs gm g,
       ∃ st',
         Run.sacrifices kinds (Run.mk SacrificeSystem.init p gs gm g)
           = Ret st'
         ∧ SacrificeSystem.total_sacrifices_made (Run.system st')
           = Z.of_nat (length kinds)
         ∧ SacrificeSystem.sacrifices_required (Run.system st')
           = 1 + hopes kinds)
  ∧ (∀ self,
       SacrificeSystem.can_use_exit self = true
       ↔ (SacrificeSystem.total_sacrifices_made self
          >= SacrificeSystem.sacrifices_required self)%Z).
Proof.
  split; [reflexivity|]. split; [reflexivity|]. split; [|split].
  - intros self ty p gs gm g.
    destruct (apply_counters self ty p gs gm g)
      as (msg & s' & p' & gs' & gm' & g' & Heq & Ht & Hr).
    exists msg, s', p', gs', gm', g'. repeat split; try done.
    rewrite Hr. destruct (decide (ty = HOPE)); lia.
  - intros kinds p gs gm g.
    destruct (sacrifices_counters kinds (Run.mk SacrificeSystem.init p gs gm g))
      as (st' & Hrun & Ht & Hr).
    exists st'. simpl in *. repeat split; [done|lia|lia].
  - intros self. rewrite can_use_exit_iff. lia.
Qed.

Lemma for_each_cons {A S} (a : A) (l : list A) (body : S → A → result S)
    (s : S) :
  for_each (a :: l) body s = body s a ≫= for_each l body.
Proof. reflexivity. Qed.

Lemma sacrifices_cons (ty : SacrificeType) (kinds : list SacrificeType)
    (st st1 : Run.state) :
  Run.step st ty = Ret st1 →
  Run.sacrifices (ty :: kinds) st = Run.sacrifices kinds st1.
Proof. intros H. unfold Run.sacrifices. by rewrite for_each_cons, H. Qed.

Lemma blood_step (st : Run.state) :
  ∃ st', Run.step st BLOOD = Ret st'
    ∧ Player.max_hp (Run.player st')
      = Z.max 30 (Player.max_hp (Run.player st)
                  - Z.max 10 (Player.max_hp (Run.player st) / 7)).
Proof. eexists. split; reflexivity. Qed.

Lemma blood_run_keeps_floor (n : nat) (st : Run.state) :
  30 ≤ Player.max_hp (Run.player st) →
  ∃ st', Run.sacrifices (replicate n BLOOD) st = Ret st'
    ∧ 30 ≤ Player.max_hp (Run.player st').
Proof.
  revert st. induction n as [|n IH]; intros st Hst.
  - exists st. by split.
  - destruct (blood_step st) as (st1 & Hstep & Hmax).
    destruct (IH st1) as (st' & Hrun & Hfloor); [lia|].
    exists st'. split; [|done].
    simpl replicate. by rewrite (sacrifices_cons _ _ _ _ Hstep).
Qed.

(** C9: BLOOD sets [max_hp] to [max(30, old - max(10, old // 7))], clamps
    [hp] to the new [max_hp] and adds exactly 5 to [attack_power]; after
    any non-empty run of BLOOD sacrifices [max_hp] is at least 30. *)
Theorem blood_sacrifice :
  (∀ self p gs gm g,
     ∃ msg self' p',
       SacrificeSystem.apply_sacrifice_effect self BLOOD p gs gm g
         = Ret (msg, self', p', gs, gm, g)
       ∧ Player.max_hp p'
         = Z.max 30 (Player.max_hp p - Z.max 10 (Player.max_hp p / 7))
       ∧ Player.hp p' = Z.min (Player.hp p) (Player.max_hp p')
       ∧ Player.attack_power p' = Player.attack_power p + 5)
  ∧ (∀ n st,
       ∃ st', Run.sacrifices (replicate (S n) BLOOD) st = Ret st'
         ∧ 30 ≤ Player.max_hp (Run.player st')).
Proof.
  split.
  - intros self p gs gm g. do 3 eexists. split; [reflexivity|].
    repeat split; reflexivity.
  - intros n st. destruct (blood_step st) as (st1 & Hstep & Hmax).
    destruct (blood_run_keeps_floor n st1) as (st' & Hrun & Hfloor); [lia|].
    exists st'. split; [|done].
    simpl replicate. by rewrite (sacrifices_cons _ _ _ _ Hstep).
Qed.

(** ** The inventory *)

Lemma Item_use_returns (item : Item.t) (p : Player.t) (g : Rng) :
  ∃ msg p' g', Item_use item p g = Ret (msg, p', g').
Proof.
  unfold Item_use. destruct (Item.item_type item); eauto.
  destruct (choice_elem ["heal"; "damage_boost"; "nothing"] g)
    as (e & g1 & -> & He); [done|].
  simpl.
  repeat (apply elem_of_cons in He as [->|He]); simpl; eauto.
  by apply elem_of_nil in He.
Qed.

Lemma use_item_unavailable (inv : Inventory.t) (ty : ItemType)
    (p : Player.t) (g : Rng) :
  (Inventory.items inv !! ty = None
   ∨ ∃ c, Inventory.items inv !! ty = Some c ∧ c ≤ 0) →
  Inventory_use_item inv ty p g = Ret (None, inv, p, g).
Proof.
  unfold Inventory_use_item. intros [-> | (c & -> & Hc)]; [done|].
  destruct (Z.leb_spec c 0); [done | lia].
Qed.

Lemma use_item_available (inv : Inventory.t) (ty : ItemType)
    (p : Player.t) (g : Rng) (c : Z) :
  Inventory.items inv !! ty = Some c → 0 < c →
  ∃ msg inv' p' g',
    Inventory_use_item inv ty p g = Ret (Some msg, inv', p', g')
    ∧ Inventory.get_item_count inv' ty = c - 1
    ∧ Inventory.items inv' !! ty = (if c =? 1 then None else Some (c - 1))
    ∧ (∀ ty', ty' ≠ ty →
         Inventory.items inv' !! ty' = Inventory.items inv !! ty')
    ∧ Inventory.gold inv' = Inventory.gold inv.
Proof.
  intros Hc Hpos. unfold Inventory_use_item. rewrite Hc.
  destruct (Z.leb_spec c 0); [lia|].
  destruct (Item_use_returns (Item.init 0 0 ty 1) p g) as (msg & p' & g' & ->).
  simpl. do 4 eexists. split; [reflexivity|].
  unfold Inventory.get_item_count. simpl.
  destruct (Z.leb_spec (c - 1) 0), (Z.eqb_spec c 1); try lia.
  - rewrite lookup_delete_eq. simpl. repeat split; try lia.
    intros ty' Hne. by rewrite lookup_delete_ne.
  - rewrite lookup_insert_eq. simpl. repeat split.
    intros ty' Hne. by rewrite lookup_insert_ne.
Qed.

Lemma add_item_counts_positive (inv : Inventory.t) (item : Item.t) :
  InvRun.counts_positive inv → 1 ≤ Item.value item →
  InvRun.counts_positive (Inventory.add_item inv item).2.
Proof.
  intros Hinv Hv. unfold Inventory.add_item.
  destruct (decide (Item.item_type item = GOLD)); [done|].
  intros ty c.
  destruct (Inventory.items inv !! Item.item_type item) as [c0|] eqn:Hc0;
    simpl.
  - apply Hinv in Hc0.
    destruct (decide (ty = Item.item_type item)) as [->|Hne].
    + rewrite lookup_insert_eq. intros [= <-]. lia.
    + rewrite lookup_insert_ne by done. apply Hinv.
  - destruct (decide (ty = Item.item_type item)) as [->|Hne].
    + rewrite lookup_insert_eq. intros [= <-]. lia.
    + rewrite lookup_insert_ne by done. apply Hinv.
Qed.

Lemma use_item_counts_positive (inv : Inventory.t) (ty : ItemType)
    (p : Player.t) (g : Rng) :
  InvRun.counts_positive inv →
  ∃ r inv' p' g', Inventory_use_item inv ty p g = Ret (r, inv', p', g')
    ∧ InvRun.counts_positive inv'.
Proof.
  intros Hinv.
  destruct (Inventory.items inv !! ty) as [c|] eqn:Hc.
  - pose proof (Hinv _ _ Hc) as Hpos.
    destruct (use_item_available inv ty p g c Hc Hpos)
      as (msg & inv' & p' & g' & -> & _ & Hty & Hother & _).
    do 4 eexists. split; [reflexivity|].
    intros ty' c'. destruct (decide (ty' = ty)) as [->|Hne].
    + rewrite Hty. destruct (Z.eqb_spec c 1); [done|]. intros [= <-]. lia.
    + rewrite Hother by done. apply Hinv.
  - rewrite use_item_unavailable by auto. eauto 10.
Qed.

Lemma run_counts_positive (ops : list InvRun.op)
    (inv : Inventory.t) (p : Player.t) (g : Rng) :
  InvRun.adds_positive ops → InvRun.counts_positive inv →
  ∃ inv' p' g', InvRun.run ops (inv, p, g) = Ret (inv', p', g')
    ∧ InvRun.counts_positive inv'.
Proof.
  intros Hops. revert inv p g.
  induction Hops as [|o ops Ho Hops IH]; intros inv p g Hinv.
  - eauto.
  - unfold InvRun.run in *. rewrite for_each_cons. destruct o as [item|ty].
    + simpl in Ho. unfold InvRun.step. simpl mbind.
      apply IH. by apply add_item_counts_positive.
    + destruct (use_item_counts_positive inv ty p g Hinv)
        as (r & inv1 & p1 & g1 & Huse & Hinv1).
      unfold InvRun.step. rewrite Huse. simpl mbind. by apply IH.
Qed.

(** C10, as stated, fails in its last part: picking up an item whose value
    is zero stores an entry with count zero. *)
Lemma inventory_zero_count_counterexample :
  ∃ inv',
    InvRun.run [InvRun.Add worthless_sword]
      (Inventory.init, Player.init 0 0, zero_rng)
      = Ret (inv', Player.init 0 0, zero_rng)
    ∧ Inventory.items inv' !! WEAPON = Some 0
    ∧ ¬ InvRun.counts_positive inv'.
Proof.
  eexists. split; [reflexivity|]. split; [reflexivity|].
  intros H. specialize (H WEAPON 0). simpl in H.
  assert (0 < 0) by (apply H; reflexivity). lia.
Qed.

(** C10 (amended): [use_item] returns [None] and changes neither the
    inventory nor the player when the kind is absent or stored with a
    count of zero or less; otherwise it returns a message and lowers the
    kind's count by exactly 1, removing the entry when it reaches 0 and
    leaving the other entries and the gold alone; and after any sequence
    of [add_item] and [use_item] calls in which every added item has a
    value of at least 1, starting from an inventory without entries of
    count zero or less, no such entry is stored. *)
Theorem inventory_use_item :
  (∀ inv ty p g,
     (Inventory.items inv !! ty = None
      ∨ ∃ c, Inventory.items inv !! ty = Some c ∧ c ≤ 0) →
     Inventory_use_item inv ty p g = Ret (None, inv, p, g))
  ∧ (∀ inv ty p g c,
       Inventory.items inv !! ty = Some c → 0 < c →
       ∃ msg inv' p' g',
         Inventory_use_item inv ty p g = Ret (Some msg, inv', p', g')
         ∧ Inventory.get_item_count inv' ty
           = Inventory.get_item_count inv ty - 1
         ∧ Inventory.items inv' !! ty
           = (if c =? 1 then None else Some (c - 1))
         ∧ (∀ ty', ty' ≠ ty →
              Inventory.items inv' !! ty' = Inventory.items inv !! ty')
         ∧ Inventory.gold inv' = Inventory.gold inv)
  ∧ (∀ ops inv p g,
       InvRun.adds_positive ops → InvRun.counts_positive inv →
       ∃ inv' p' g',
         InvRun.run ops (inv, p, g) = Ret (inv', p', g')
         ∧ InvRun.counts_positive inv').
Proof.
  split; [|split].
  - apply use_item_unavailable.
  - intros inv ty p g c Hc Hpos.
    destruct (use_item_available inv ty p g c Hc Hpos)
      as (msg & inv' & p' & g' & Heq & Hcount & Hty & Hother & Hgold).
    exists msg, inv', p', g'. repeat split; try done.
    rewrite Hcount. unfold Inventory.get_item_count. by rewrite Hc.
  - apply run_counts_positive.
Qed.

Lemma inventory_use_item_witness :
  Inventory_use_item Inventory.init HEALTH_POTION (Player.init 0 0) zero_rng
    = Ret (None, Inventory.init, Player.init 0 0, zero_rng)
  ∧ (∃ msg inv' p' g',
       Inventory_use_item potion_inventory HEALTH_POTION (Player.init 0 0)
         zero_rng = Ret (Some msg, inv', p', g')
       ∧ Inventory.get_item_count inv' HEALTH_POTION = 0)
  ∧ (∃ inv' p' g',
       InvRun.run potion_then_sword
         (Inventory.init, Player.init 0 0, zero_rng) = Ret (inv', p', g')
       ∧ InvRun.counts_positive inv').
Proof.
  destruct inventory_use_item as (Hnone & Hsome & Hrun).
  split; [|split].
  - apply Hnone. left. reflexivity.
  - destruct (Hsome potion_inventory HEALTH_POTION (Player.init 0 0)
                zero_rng 1) as (msg & inv' & p' & g' & Heq & Hc & _);
      [reflexivity | lia |].
    exists msg, inv', p', g'. split; [exact Heq | exact Hc].
  - apply Hrun.
    + unfold InvRun.adds_positive, potion_then_sword.
      repeat constructor; simpl; lia.
    + intros ty c Hc. simpl in Hc. rewrite lookup_empty in Hc. discriminate.
Defined.

(** ** Combat *)

Lemma player_attack_rolls (p : Player.t) (m : Monster.t) (g : Rng)
    (msgs : list string) (p' : Player.t) (m' : Monster.t) (g' : Rng) :
  Monster.is_alive m = true →
  CombatSystem.player_attack_monster p m g = Ret (msgs, p', m', g') →
  ∃ d, Z.max 1 (Player.get_effective_attack p - 2) ≤ d
         ≤ Player.get_effective_attack p + 3
       ∧ m' = (Monster.take_damage m d).2
       ∧ attack_report m d ∈ msgs.
Proof.
  intros Halive. unfold CombatSystem.player_attack_monster.
  rewrite Halive. simpl negb. cbv iota.
  intros Heq. apply bind_Ret_inv in Heq as [[d g1] [Hroll Heq]].
  exists d. split; [by eapply randint_Ret_range|].
  unfold attack_report.
  assert (Hname : Monster.name (Monster.take_damage m d).2 = Monster.name m).
  { unfold Monster.take_damage. by destruct (_ <=? _). }
  destruct (Monster.take_damage m d) as [died m1] eqn:Htd.
  simpl in Hname.
  destruct (Player.vampire_touch p), died; simpl in Heq;
    injection Heq as <- <- <- <-; rewrite Hname;
    (split; [reflexivity | set_solver]).
Qed.

Lemma player_attack_returns (p : Player.t) (m : Monster.t) (g : Rng) :
  Monster.is_alive m = true → -2 ≤ Player.get_effective_attack p →
  ∃ msgs p' m' g',
    CombatSystem.player_attack_monster p m g = Ret (msgs, p', m', g').
Proof.
  intros Halive HB. unfold CombatSystem.player_attack_monster.
  rewrite Halive. simpl negb. cbv iota.
  destruct (randint_range (Z.max 1 (Player.get_effective_attack p - 2))
              (Player.get_effective_attack p + 3) g)
    as (d & g' & -> & _); [lia|].
  cbn [mbind result_bind].
  destruct (Player.vampire_touch p),
    (Monster.take_damage m d) as [[] m']; eauto.
Qed.

(** C6: a player attack on a living monster rolls a damage in
    [max(1, B-2), B+3] for the effective attack power [B] (and the roll is
    made whenever that range is not empty); a living monster's attack rolls
    a damage in [max(1, P-2), P+2] for its attack power [P], a dead one
    deals 0 without rolling; and for a monster as for the player the hit
    points after taking damage [d] are [max(0, hp - d)]. *)
Theorem damage_bounds :
  (∀ p m g,
     Monster.is_alive m = true → -2 ≤ Player.get_effective_attack p →
     ∃ d msgs p' g',
       CombatSystem.player_attack_monster p m g
         = Ret (msgs, p', (Monster.take_damage m d).2, g')
       ∧ Z.max 1 (Player.get_effective_attack p - 2) ≤ d
         ≤ Player.get_effective_attack p + 3
       ∧ attack_report m d ∈ msgs)
  ∧ (∀ p m g msgs p' m' g',
       Monster.is_alive m = true →
       CombatSystem.player_attack_monster p m g = Ret (msgs, p', m', g') →
       ∃ d, Z.max 1 (Player.get_effective_attack p - 2) ≤ d
              ≤ Player.get_effective_attack p + 3
            ∧ m' = (Monster.take_damage m d).2
            ∧ attack_report m d ∈ msgs)
  ∧ (∀ m g,
       Monster.is_alive m = true → -1 ≤ Monster.attack_power m →
       ∃ d g', Monster.attack m g = Ret (d, g')
         ∧ Z.max 1 (Monster.attack_power m - 2) ≤ d
           ≤ Monster.attack_power m + 2)
  ∧ (∀ m g d g',
       Monster.is_alive m = true → Monster.attack m g = Ret (d, g') →
       Z.max 1 (Monster.attack_power m - 2) ≤ d ≤ Monster.attack_power m + 2)
  ∧ (∀ m g, Monster.is_alive m = false → Monster.attack m g = Ret (0, g))
  ∧ (∀ m d, Monster.hp (Monster.take_damage m d).2
            = Z.max 0 (Monster.hp m - d))
  ∧ (∀ p d, Player.hp (Player.take_damage p d) = Z.max 0 (Player.hp p - d)).
Proof.
  split; [|split; [|split; [|split; [|split; [|split]]]]].
  - intros p m g Halive HB.
    destruct (player_attack_returns p m g Halive HB)
      as (msgs & p' & m' & g' & Heq).
    destruct (player_attack_rolls _ _ _ _ _ _ _ Halive Heq)
      as (d & Hd & -> & Hin).
    by exists d, msgs, p', g'.
  - intros p m g msgs p' m' g' Halive Heq. by eapply player_attack_rolls.
  - intros m g Halive HP. unfold Monster.attack. rewrite Halive.
    apply randint_range. lia.
  - intros m g d g' Halive. unfold Monster.attack. rewrite Halive.
    apply randint_Ret_range.
  - intros m g Hdead. unfold Monster.attack. by rewrite Hdead.
  - intros m d. unfold Monster.take_damage. by destruct (_ <=? _).
  - reflexivity.
Qed.

Lemma damage_bounds_witness :
  (∃ d msgs p' g',
     CombatSystem.player_attack_monster (Player.init 0 0)
       (Monster.init 1 0 GOBLIN) zero_rng
       = Ret (msgs, p', (Monster.take_damage (Monster.init 1 0 GOBLIN) d).2, g')
     ∧ Z.max 1 (Player.get_effective_attack (Player.init 0 0) - 2) ≤ d
       ≤ Player.get_effective_attack (Player.init 0 0) + 3
     ∧ attack_report (Monster.init 1 0 GOBLIN) d ∈ msgs)
  ∧ (∃ d g', Monster.attack (Monster.init 1 0 GOBLIN) zero_rng = Ret (d, g')
       ∧ Z.max 1 (Monster.attack_power (Monster.init 1 0 GOBLIN) - 2) ≤ d
         ≤ Monster.attack_power (Monster.init 1 0 GOBLIN) + 2).
Proof.
  destruct damage_bounds as (Hplayer & _ & Hmonster & _).
  split.
  - apply Hplayer; [reflexivity | vm_compute; discriminate].
  - apply Hmonster; [reflexivity | vm_compute; discriminate].
Defined.

(** ** Monsters *)

(** With the occupant listed first the guard of [update_monsters] works:
    the mover is put back. *)
Lemma occupant_first_is_reverted :
  ∃ msgs ms' g',
    MonsterManager.update_monsters (rev crowd) 3 1 open_room all_visible 0
      zero_rng = Ret (msgs, ms', g')
    ∧ map (λ m, (Monster.x m, Monster.y m)) ms' = [(2, 1); (1, 1)].
Proof. do 3 eexists. split; vm_compute; reflexivity. Qed.

(** C2 (defect): two living goblins on distinct tiles, the farther one
    first in the list.  One update pass moves it onto the tile of the
    other: [get_monster_at] finds the mover itself first, so the move is
    kept and both living monsters stand on (2, 1). *)
Theorem update_monsters_overlap :
  no_overlap crowd
  ∧ ∃ msgs ms' g',
      MonsterManager.update_monsters crowd 3 1 open_room all_visible 0
        zero_rng = Ret (msgs, ms', g')
      ∧ map (λ m, (Monster.x m, Monster.y m, Monster.is_alive m)) ms'
        = [(2, 1, true); (2, 1, true)]
      ∧ ¬ no_overlap ms'.
Proof.
  split.
  - intros i j mi mj Hi Hj Hne _ _.
    destruct i as [|[|i]], j as [|[|j]]; simpl in Hi, Hj;
      try discriminate; try congruence;
      injection Hi as <-; injection Hj as <-; simpl; congruence.
  - do 3 eexists. split; [vm_compute; reflexivity|].
    split; [reflexivity|].
    intros H. eapply (H 0%nat 1%nat); try reflexivity. lia.
Qed.

(** ** The player *)

Lemma move_disabled_right (self : Player.t) (dy : Z)
    (game_map : list (list ascii)) (g : Rng) :
  "right" ∈ Player.disabled_movements self →
  Player.move self 1 dy game_map g = Ret (false, self, g).
Proof.
  intros H. unfold Player.move. simpl. by rewrite bool_decide_eq_true_2.
Qed.

(** Without a movement penalty, a move into a wall or off the grid returns
    [False] and leaves the player and the generator as they were. *)
Lemma move_into_wall_is_noop :
  Player.move (Player.init 1 1) 1 0 cell_room zero_rng
    = Ret (false, Player.init 1 1, zero_rng)
  ∧ Player.move (Player.init 4 1) 1 0 open_room zero_rng
    = Ret (false, Player.init 4 1, zero_rng)
  ∧ Player.move (Player.init 0 0) 0 (-1) open_room zero_rng
    = Ret (false, Player.init 0 0, zero_rng).
Proof. repeat split. Qed.

(** Whenever a move passes the direction checks of a slowed player, the
    penalty roll raises. *)
Lemma move_penalty_raises (self : Player.t) (dx dy : Z)
    (game_map : list (list ascii)) (g : Rng) :
  Player.disabled_movements self = ∅ →
  0 < Player.movement_penalty self →
  Player.move self dx dy game_map g = Raise NameError.
Proof.
  intros Hd Hp. unfold Player.move. rewrite Hd.
  rewrite !bool_decide_eq_false_2 by set_solver.
  rewrite !andb_false_r.
  destruct (Z.ltb_spec 0 (Player.movement_penalty self)); [|lia].
  reflexivity.
Qed.

(** C8 (defect): a player with a movement penalty of 1 and no disabled
    direction steps east inside an open room.  [Player.move] reaches
    [random.random()], a name player.py never binds at module level, and
    raises [NameError] instead of returning. *)
Theorem move_with_penalty_raises :
  Player.movement_penalty slowed_player = 1
  ∧ Player.move slowed_player 1 0 open_room zero_rng = Raise NameError
  ∧ Player.move (Player.init 1 1) 1 0 open_room zero_rng
    = Ret (true, Player.set_pos 2 1 (Player.init 1 1), zero_rng).
Proof. repeat split. Qed.

(** ** The turn *)

Section turn.
Context (monsters : list Monster.t) (vt : VisibilityTracker.t).

Lemma monster_attack_player_spec (m : Monster.t) (p : Player.t) (g : Rng)
    (msgs : list string) (p' : Player.t) (g' : Rng) :
  Monster.is_alive m = true →
  CombatSystem.monster_attack_player m p g = Ret (msgs, p', g') →
  Player.x p' = Player.x p ∧ Player.y p' = Player.y p
  ∧ length msgs = 2%nat.
Proof.
  intros Halive. unfold CombatSystem.monster_attack_player.
  rewrite Halive. simpl negb. cbv iota.
  intros Heq. apply bind_Ret_inv in Heq as [[d g1] [_ Heq]].
  destruct (negb (Player.is_alive (Player.take_damage p d)));
    injection Heq as <- <- <-; done.
Qed.

Lemma attacker_position (p p' : Player.t) (i : nat) :
  Player.x p' = Player.x p → Player.y p' = Player.y p →
  attacker monsters vt p' i = attacker monsters vt p i.
Proof.
  intros Hx Hy. unfold attacker, CombatSystem.attacks_player.
  by rewrite Hx, Hy.
Qed.

Lemma attack_loop_from (l : list nat)
    (acc : list (nat * list string)) (p : Player.t) (g : Rng)
    (acc' : list (nat * list string)) (p' : Player.t) (g' : Rng) :
  for_each l (CombatSystem.attack_step monsters vt) (acc, p, g)
    = Ret (acc', p', g') →
  Player.x p' = Player.x p ∧ Player.y p' = Player.y p
  ∧ ∃ new, acc' = acc ++ new
      ∧ map fst new = filter (λ i, attacker monsters vt p i = true) l
      ∧ Forall (λ a, length a.2 = 2%nat) new.
Proof.
  revert acc p g. induction l as [|i l IH]; intros acc p g.
  - simpl. intros [= <- <- <-]. repeat split.
    exists []. by rewrite app_nil_r.
  - rewrite for_each_cons. intros Heq.
    apply bind_Ret_inv in Heq as [[[acc1 p1] g1] [Hstep Hrest]].
    apply IH in Hrest as (Hx & Hy & new & -> & Hnew & Hlen).
    rewrite filter_cons. unfold CombatSystem.attack_step in Hstep.
    assert (Hwho : attacker monsters vt p i
                   = match monsters !! i with
                     | Some m => CombatSystem.attacks_player m p vt
                     | None => false
                     end) by reflexivity.
    destruct (monsters !! i) as [m|] eqn:Hm.
    + destruct (CombatSystem.attacks_player m p vt) eqn:Hatt.
      * apply bind_Ret_inv in Hstep as [[[msgs p2] g2] [Hatk Hstep]].
        injection Hstep as <- <- <-.
        assert (Monster.is_alive m = true) as Halive.
        { unfold CombatSystem.attacks_player in Hatt.
          by destruct (Monster.is_alive m). }
        destruct (monster_attack_player_spec _ _ _ _ _ _ Halive Hatk)
          as (Hx1 & Hy1 & Hmsgs).
        split; [congruence|]. split; [congruence|].
        exists ((i, msgs) :: new). rewrite <- app_assoc. split; [done|].
        rewrite decide_True by done. simpl. split.
        -- f_equal. rewrite Hnew. apply list_filter_iff. intros k.
           by rewrite (attacker_position p p2).
        -- by constructor.
      * injection Hstep as <- <- <-. repeat split; try done.
        exists new. rewrite decide_False by (rewrite Hwho; done). done.
    + injection Hstep as <- <- <-. repeat split; try done.
      exists new. rewrite decide_False by (rewrite Hwho; done). done.
Qed.
End turn.

(** C5, as stated, fails in its second half: the goblin steps from (1, 1)
    to (2, 1) in the update pass of a turn and attacks the player in the
    attack loop of that same turn. *)
Lemma moved_monster_attacks_counterexample :
  ∃ mm monsters1 g1 attacks player' g2 log,
    MonsterManager.update_monsters lone_goblin 3 1 open_room all_visible 0
      zero_rng = Ret (mm, monsters1, g1)
    ∧ CombatSystem.attack_loop monsters1 all_visible (Player.init 3 1) g1
      = Ret (attacks, player', g2)
    ∧ CombatSystem.process_turn CombatSystem.init (Player.init 3 1)
        lone_goblin open_room all_visible GameState.init zero_rng
      = Ret (mm ++ concat (map snd attacks), log, player', monsters1, g2)
    ∧ moved lone_goblin monsters1 0
    ∧ map fst attacks = [0%nat]
    ∧ Player.hp player' = 97.
Proof.
  do 7 eexists.
  split; [vm_compute; reflexivity|].
  split; [vm_compute; reflexivity|].
  split; [vm_compute; reflexivity|].
  split; [|split; reflexivity].
  do 2 eexists. split; [reflexivity|]. split; [reflexivity|].
  simpl. congruence.
Qed.

(** C5 (amended): in one [process_turn] no monster resolves more than one
    attack on the player; the attackers are exactly the monsters that are
    alive, adjacent to the player and on a visible tile once the update
    pass is over, whether or not they moved in that pass, and each of them
    contributes the two lines of one attack. *)
Theorem one_attack_per_monster (self : CombatSystem.t) (player : Player.t)
    (monsters : list Monster.t) (game_map : list (list ascii))
    (vt : VisibilityTracker.t) (gs : GameState.t) (g : Rng)
    (msgs : list string) (self' : CombatSystem.t) (player' : Player.t)
    (monsters2 : list Monster.t) (g2 : Rng) :
  CombatSystem.process_turn self player monsters game_map vt gs g
    = Ret (msgs, self', player', monsters2, g2) →
  ∃ mm monsters1 g1 attacks,
    MonsterManager.update_monsters monsters (Player.x player)
      (Player.y player) game_map vt (GameState.monster_speed_buff gs) g
      = Ret (mm, monsters1, g1)
    ∧ CombatSystem.attack_loop monsters1 vt player g1
      = Ret (attacks, player', g2)
    ∧ msgs = mm ++ concat (map snd attacks)
    ∧ NoDup (map fst attacks)
    ∧ (∀ i, i ∈ map fst attacks
            ↔ ∃ m, monsters1 !! i = Some m
                ∧ CombatSystem.attacks_player m player vt = true)
    ∧ Forall (λ a, length a.2 = 2%nat) attacks.
Proof.
  unfold CombatSystem.process_turn. intros Heq.
  apply bind_Ret_inv in Heq as [[[mm monsters1] g1] [Hupd Heq]].
  apply bind_Ret_inv in Heq as [[[attacks p1] g3] [Hatk Heq]].
  injection Heq as <- <- <- <- <-.
  exists mm, monsters1, g1, attacks. do 3 (split; [done|]).
  unfold CombatSystem.attack_loop in Hatk.
  apply attack_loop_from in Hatk as (_ & _ & new & Hnew & Hfst & Hlen).
  simpl in Hnew. subst new. rewrite Hfst. split; [|split; [|done]].
  - apply NoDup_filter, NoDup_seq.
  - intros i. rewrite list_elem_of_filter. unfold attacker. split.
    + intros [Hi _]. destruct (monsters1 !! i) as [m|]; [eauto | done].
    + intros (m & Hm & Hatt). rewrite Hm. split; [done|].
      apply elem_of_seq. apply lookup_lt_Some in Hm. lia.
Qed.

Lemma one_attack_per_monster_witness :
  ∃ mm monsters1 g1 attacks,
    MonsterManager.update_monsters lone_goblin 3 1 open_room all_visible 0
      zero_rng = Ret (mm, monsters1, g1)
    ∧ CombatSystem.attack_loop monsters1 all_visible (Player.init 3 1) g1
      = Ret (attacks, Player.take_damage (Player.init 3 1) 3,
             mkRng (λ _, 0) 1)
    ∧ [ "The Goblin moves closer!"; "The Goblin attacks you for 3 damage!";
        "You have 97/100 HP remaining." ] = mm ++ concat (map snd attacks)
    ∧ NoDup (map fst attacks)
    ∧ (∀ i, i ∈ map fst attacks
            ↔ ∃ m, monsters1 !! i = Some m
                ∧ CombatSystem.attacks_player m (Player.init 3 1) all_visible
                  = true)
    ∧ Forall (λ a, length a.2 = 2%nat) attacks.
Proof.
  eapply (one_attack_per_monster CombatSystem.init (Player.init 3 1)
            lone_goblin open_room all_visible GameState.init zero_rng).
  vm_compute. reflexivity.
Defined.


(** ** Dungeon generation *)

Section split_space.
Import DungeonGenerator.

Lemma terminal_test (width height min_size : Z) :
  (width <? min_size * 2) || (height <? min_size * 2) = true
  ↔ terminal width height min_size.
Proof.
  unfold terminal. rewrite orb_true_iff, !Z.ltb_lt. lia.
Qed.

Lemma split_space_fuel_mono (fuel fuel' : nat) (x y width height m : Z)
    (g : Rng) (r : list room * Rng) :
  (fuel ≤ fuel')%nat →
  _split_space fuel x y width height m g = Ret r →
  _split_space fuel' x y width height m g = Ret r.
Proof.
  revert fuel' x y width height g r.
  induction fuel as [|fuel IH]; intros fuel' x y width height g r Hle;
    [discriminate|].
  destruct fuel' as [|fuel']; [lia|]. simpl.
  destruct ((width <? m * 2) || (height <? m * 2)); [done|].
  intros H. apply bind_Ret_inv in H as [[b g1] [-> H]]. simpl.
  destruct b.
  - apply bind_Ret_inv in H as [[sp g2] [-> H]]. simpl.
    apply bind_Ret_inv in H as [[r1 g3] [H1 H]].
    apply bind_Ret_inv in H as [[r2 g4] [H2 H]].
    rewrite (IH fuel' _ _ _ _ _ _ ltac:(lia) H1). simpl.
    rewrite (IH fuel' _ _ _ _ _ _ ltac:(lia) H2). exact H.
  - apply bind_Ret_inv in H as [[sp g2] [-> H]]. simpl.
    apply bind_Ret_inv in H as [[r1 g3] [H1 H]].
    apply bind_Ret_inv in H as [[r2 g4] [H2 H]].
    rewrite (IH fuel' _ _ _ _ _ _ ltac:(lia) H1). simpl.
    rewrite (IH fuel' _ _ _ _ _ _ ltac:(lia) H2). exact H.
Qed.

Lemma split_space_returns (fuel : nat) (x y width height m : Z) (g : Rng) :
  1 ≤ m → (depth_bound width height < fuel)%nat →
  ∃ rooms g', _split_space fuel x y width height m g = Ret (rooms, g')
    ∧ rooms ≠ [].
Proof.
  intros Hm. revert x y width height g.
  induction fuel as [|fuel IH]; intros x y width height g Hfuel; [lia|].
  simpl. destruct ((width <? m * 2) || (height <? m * 2)) eqn:Hterm.
  - destruct (randint_range 0 (Z.max 0 (width - Z.max 3 (width - 2))) g)
      as (ox & g1 & -> & _); [lia|]. simpl.
    destruct (randint_range 0 (Z.max 0 (height - Z.max 3 (height - 2))) g1)
      as (oy & g2 & -> & _); [lia|]. simpl.
    eauto.
  - apply orb_false_iff in Hterm as [Hw Hh].
    apply Z.ltb_ge in Hw, Hh. unfold depth_bound in *.
    destruct (choice_elem [true; false] g) as (b & g1 & -> & _); [done|].
    simpl. destruct b.
    + destruct (randint_range m (height - m) g1)
        as (sp & g2 & -> & Hsp); [lia|]. simpl.
      destruct (IH x y width sp g2) as (r1 & g3 & -> & Hr1); [lia|]. simpl.
      destruct (IH x (y + sp) width (height - sp) g3)
        as (r2 & g4 & -> & Hr2); [lia|]. simpl.
      eexists _, _. split; [reflexivity|]. by destruct r1.
    + destruct (randint_range m (width - m) g1)
        as (sp & g2 & -> & Hsp); [lia|]. simpl.
      destruct (IH x y sp height g2) as (r1 & g3 & -> & Hr1); [lia|]. simpl.
      destruct (IH (x + sp) y (width - sp) height g3)
        as (r2 & g4 & -> & Hr2); [lia|]. simpl.
      eexists _, _. split; [reflexivity|]. by destruct r1.
Qed.
End split_space.

Section split_space_cases.
Import DungeonGenerator.
Context (x y width height m : Z) (g : Rng).

Lemma split_nonempty (fuel : nat) (x0 y0 w h : Z) (g0 : Rng)
    (rooms : list room) (g' : Rng) :
  1 ≤ m → (depth_bound w h < S fuel)%nat →
  _split_space fuel x0 y0 w h m g0 = Ret (rooms, g') → rooms ≠ [].
Proof.
  intros Hm Hfuel Heq.
  destruct (split_space_returns (S fuel) x0 y0 w h m g0 Hm Hfuel)
    as (rooms' & g'' & Heq' & Hne).
  apply (split_space_fuel_mono fuel (S fuel)) in Heq; [|lia].
  congruence.
Qed.

(** C7, as stated, fails: a region 20 wide and 5 high with a minimum room
    size of 6 is a terminal case (one room is carved) although its width
    is not below 12. *)
Lemma terminal_case_counterexample :
  _split_space (S (depth_bound 20 5)) 1 1 20 5 6 zero_rng
    = Ret ([(1, 1, 18, 3)], mkRng (λ _, 0) 2)
  ∧ ¬ terminal_as_specified 20 5 6.
Proof.
  split; [vm_compute; reflexivity|].
  unfold terminal_as_specified. lia.
Qed.

(** C7 (amended): with a minimum room size of at least 1 the partition
    returns; a region is the terminal case, carving a single room of the
    region's size minus a margin at an offset inside the region, exactly
    when at least one of its dimensions is below twice the minimum room
    size; otherwise an axis is drawn, a split point is drawn within
    [min_size, dimension - min_size] on that axis, and the rooms are those
    of the first half followed by those of the second half. *)
Theorem split_space_cases :
  1 ≤ m →
  ∃ rooms g',
    (∀ fuel, (depth_bound width height < fuel)%nat →
       _split_space fuel x y width height m g = Ret (rooms, g'))
    ∧ (length rooms = 1%nat ↔ terminal width height m)
    ∧ (terminal width height m →
       ∃ off_x off_y,
         0 ≤ off_x ≤ Z.max 0 (width - Z.max 3 (width - 2))
         ∧ 0 ≤ off_y ≤ Z.max 0 (height - Z.max 3 (height - 2))
         ∧ rooms = [(x + off_x, y + off_y,
                     Z.max 3 (width - 2), Z.max 3 (height - 2))])
    ∧ (¬ terminal width height m →
       ∃ sp g1 g2 rooms1 rooms2,
         rooms = rooms1 ++ rooms2
         ∧ ((m ≤ sp ≤ height - m
             ∧ (∀ fuel, (depth_bound width height ≤ fuel)%nat →
                  _split_space fuel x y width sp m g1 = Ret (rooms1, g2))
             ∧ (∀ fuel, (depth_bound width height ≤ fuel)%nat →
                  _split_space fuel x (y + sp) width (height - sp) m g2
                    = Ret (rooms2, g')))
            ∨ (m ≤ sp ≤ width - m
               ∧ (∀ fuel, (depth_bound width height ≤ fuel)%nat →
                    _split_space fuel x y sp height m g1 = Ret (rooms1, g2))
               ∧ (∀ fuel, (depth_bound width height ≤ fuel)%nat →
                    _split_space fuel (x + sp) y (width - sp) height m g2
                      = Ret (rooms2, g'))))).
Proof.
  intros Hm.
  destruct (split_space_returns (S (depth_bound width height))
              x y width height m g Hm ltac:(lia))
    as (rooms & g' & Heq & _).
  exists rooms, g'. split.
  { intros fuel Hfuel. eapply split_space_fuel_mono; [|exact Heq]. lia. }
  simpl in Heq.
  destruct ((width <? m * 2) || (height <? m * 2)) eqn:Hterm.
  - apply terminal_test in Hterm.
    apply bind_Ret_inv in Heq as [[ox g1] [Hox Heq]].
    apply bind_Ret_inv in Heq as [[oy g2] [Hoy Heq]].
    injection Heq as <- <-.
    apply randint_Ret_range in Hox, Hoy.
    split; [done|]. split; [|done].
    intros _. by exists ox, oy.
  - assert (¬ terminal width height m) as Hnt.
    { intros Ht. apply terminal_test in Ht. congruence. }
    assert (2 * m ≤ width ∧ 2 * m ≤ height) as [Hw Hh]
      by (unfold terminal in Hnt; lia).
    apply bind_Ret_inv in Heq as [[b g1] [_ Heq]].
    assert (∀ fuel x0 y0 w h g0 r,
              (depth_bound width height ≤ fuel)%nat →
              _split_space (depth_bound width height) x0 y0 w h m g0 = Ret r →
              _split_space fuel x0 y0 w h m g0 = Ret r) as Hmono.
    { intros. by eapply split_space_fuel_mono. }
    destruct b.
    + apply bind_Ret_inv in Heq as [[sp g2] [Hsp Heq]].
      apply bind_Ret_inv in Heq as [[r1 g3] [H1 Heq]].
      apply bind_Ret_inv in Heq as [[r2 g4] [H2 Heq]].
      injection Heq as <- <-. apply randint_Ret_range in Hsp.
      assert (r1 ≠ []) as Hr1
        by (eapply split_nonempty; [exact Hm | | exact H1];
            unfold depth_bound; lia).
      assert (r2 ≠ []) as Hr2
        by (eapply split_nonempty; [exact Hm | | exact H2];
            unfold depth_bound; lia).
      split; [|split; [done|]].
      * split; [|done]. rewrite length_app.
        destruct r1, r2; simpl; try done. intros; lia.
      * intros _. exists sp, g2, g3, r1, r2. split; [done|]. left.
        split; [done|]. split; intros; by apply Hmono.
    + apply bind_Ret_inv in Heq as [[sp g2] [Hsp Heq]].
      apply bind_Ret_inv in Heq as [[r1 g3] [H1 Heq]].
      apply bind_Ret_inv in Heq as [[r2 g4] [H2 Heq]].
      injection Heq as <- <-. apply randint_Ret_range in Hsp.
      assert (r1 ≠ []) as Hr1
        by (eapply split_nonempty; [exact Hm | | exact H1];
            unfold depth_bound; lia).
      assert (r2 ≠ []) as Hr2
        by (eapply split_nonempty; [exact Hm | | exact H2];
            unfold depth_bound; lia).
      split; [|split; [done|]].
      * split; [|done]. rewrite length_app.
        destruct r1, r2; simpl; try done. intros; lia.
      * intros _. exists sp, g2, g3, r1, r2. split; [done|]. right.
        split; [done|]. split; intros; by apply Hmono.
Qed.
End split_space_cases.

(** ** Field of view *)

Section bresenham.
Context (x1 y1 x2 y2 : Z).
#[local] Abbreviation dx := (Z.abs (x2 - x1)).
#[local] Abbreviation dy := (Z.abs (y2 - y1)).
#[local] Abbreviation x_inc := (if x1 <? x2 then 1 else -1).
#[local] Abbreviation y_inc := (if y1 <? y2 then 1 else -1).

Lemma at_end_iff (a b x y e : Z) :
  on_line x1 y1 x2 y2 a b (x, y, e) →
  (x =? x2) && (y =? y2) = true ↔ a = dx ∧ b = dy.
Proof.
  unfold on_line. intros (Ha & Hb & [= -> -> ->]).
  rewrite andb_true_iff, !Z.eqb_eq.
  destruct (Z.ltb_spec x1 x2), (Z.ltb_spec y1 y2); lia.
Qed.

(** A pass through the loop body keeps the state on the line and makes
    progress towards the target. *)
Lemma step_on_line (a b : Z) (s : Z * Z * Z) :
  on_line x1 y1 x2 y2 a b s → ¬ (a = dx ∧ b = dy) →
  ∃ a' b',
    on_line x1 y1 x2 y2 a' b' (bresenham_step dx dy x_inc y_inc s)
    ∧ a ≤ a' ∧ b ≤ b' ∧ a + b < a' + b'.
Proof.
  unfold on_line. intros (Ha & Hb & ->) Hend.
  remember (Z.abs (x2 - x1)) as ex eqn:Hex.
  remember (Z.abs (y2 - y1)) as ey eqn:Hey.
  remember (if x1 <? x2 then 1 else -1) as xi eqn:Hxi.
  remember (if y1 <? y2 then 1 else -1) as yi eqn:Hyi.
  assert (0 ≤ ex) by lia. assert (0 ≤ ey) by lia.
  clear Hex Hey Hxi Hyi.
  unfold bresenham_step.
  destruct (Z.ltb_spec (- ey) (2 * ((b + 1) * ex - (a + 1) * ey))) as [Hx|Hx].
  - assert (a < ex) by nia.
    destruct (Z.ltb_spec (2 * ((b + 1) * ex - (a + 1) * ey)) ex) as [Hy|Hy].
    + assert (b < ey) by nia.
      exists (a + 1), (b + 1). repeat split; try lia.
      f_equal; [f_equal|]; lia.
    + exists (a + 1), b. repeat split; try lia. f_equal; [f_equal|]; lia.
  - destruct (Z.ltb_spec (2 * ((b + 1) * ex - (a + 1) * ey)) ex) as [Hy|Hy].
    + assert (b < ey) by nia.
      exists a, (b + 1). repeat split; try lia. f_equal; [f_equal|]; lia.
    + exfalso. apply Hend. nia.
Qed.

Lemma on_line_box (a b x y e : Z) :
  on_line x1 y1 x2 y2 a b (x, y, e) →
  Z.min x1 x2 ≤ x ≤ Z.max x1 x2 ∧ Z.min y1 y2 ≤ y ≤ Z.max y1 y2.
Proof.
  unfold on_line. intros (Ha & Hb & [= -> -> ->]).
  destruct (Z.ltb_spec x1 x2), (Z.ltb_spec y1 y2); lia.
Qed.

Lemma on_line_start : on_line x1 y1 x2 y2 0 0 (x1, y1, dx - dy).
Proof.
  unfold on_line. repeat split; try lia.
  f_equal; [f_equal|]; lia.
Qed.

(** Fuel beyond the number of steps left changes nothing. *)
Lemma line_points_stable (fuel k : nat) (a b : Z) (s : Z * Z * Z) :
  on_line x1 y1 x2 y2 a b s →
  (Z.to_nat (dx - a + (dy - b)) < fuel)%nat →
  line_points (fuel + k) x2 y2 dx dy x_inc y_inc s
  = line_points fuel x2 y2 dx dy x_inc y_inc s.
Proof.
  revert a b s. induction fuel as [|fuel IH]; intros a b s Hs Hfuel; [lia|].
  destruct s as [[x y] e]. simpl.
  destruct ((x =? x2) && (y =? y2)) eqn:Hend; [done|].
  f_equal.
  destruct (step_on_line a b _ Hs) as (a' & b' & Hs' & Ha & Hb & Hab).
  { intros Hab. eapply at_end_iff in Hab; [|exact Hs]. congruence. }
  apply (IH a' b'); [done|].
  destruct Hs' as (? & ? & _). fold dx dy in *. lia.
Qed.

Lemma line_points_reaches (fuel : nat) (a b : Z) (s : Z * Z * Z) :
  on_line x1 y1 x2 y2 a b s →
  (Z.to_nat (dx - a + (dy - b)) < fuel)%nat →
  (x2, y2) ∈ line_points fuel x2 y2 dx dy x_inc y_inc s.
Proof.
  revert a b s. induction fuel as [|fuel IH]; intros a b s Hs Hfuel; [lia|].
  destruct s as [[x y] e]. simpl.
  destruct ((x =? x2) && (y =? y2)) eqn:Hend.
  - apply andb_true_iff in Hend as [->%Z.eqb_eq ->%Z.eqb_eq]. set_solver.
  - destruct (step_on_line a b _ Hs) as (a' & b' & Hs' & Ha & Hb & Hab).
    { intros Hab. eapply at_end_iff in Hab; [|exact Hs]. congruence. }
    apply elem_of_cons. right. apply (IH a' b'); [done|].
    destruct Hs' as (? & ? & _). lia.
Qed.

Lemma bresenham_line_ends :
  head (bresenham_line x1 y1 x2 y2) = Some (x1, y1)
  ∧ (x2, y2) ∈ bresenham_line x1 y1 x2 y2.
Proof.
  split; [reflexivity|]. unfold bresenham_line.
  apply (line_points_reaches _ 0 0); [apply on_line_start|]. lia.
Qed.
End bresenham.

Lemma forallb_elem_of {A} (f : A → bool) (l : list A) :
  forallb f l = true ↔ ∀ a, a ∈ l → f a = true.
Proof.
  induction l as [|a l IH]; simpl.
  - split; [|done]. intros _ a Ha. by apply elem_of_nil in Ha.
  - rewrite andb_true_iff, IH. split.
    + intros [Ha Hl] a' [->|Ha']%elem_of_cons; auto.
    + intros H. split; [apply H; left | intros a' Ha'; apply H; by right].
Qed.

Lemma elem_of_range (x lo hi : Z) : x ∈ range lo hi ↔ lo ≤ x < hi.
Proof.
  unfold range. rewrite list_elem_of_In, in_map_iff. split.
  - intros (i & <- & Hi%in_seq). lia.
  - intros Hx. exists (Z.to_nat (x - lo)). split; [lia|].
    apply in_seq. lia.
Qed.

Lemma for_each_union {A} (l : list A)
    (body : gset (Z * Z) → A → result (gset (Z * Z)))
    (add : A → gset (Z * Z)) (V : gset (Z * Z)) :
  (∀ V a, a ∈ l → body V a = Ret (add a ∪ V)) →
  for_each l body V = Ret (⋃ (add <$> l) ∪ V).
Proof.
  revert V. induction l as [|a l IH]; intros V Hbody.
  - simpl. f_equal. set_solver.
  - rewrite for_each_cons, Hbody by left. simpl mbind.
    rewrite IH by (intros; apply Hbody; by right).
    f_equal. rewrite fmap_cons. simpl. set_solver.
Qed.

Lemma getitem_in_range {A} (l : list A) (i : Z) :
  0 ≤ i < Z.of_nat (length l) →
  ∃ a, l !! Z.to_nat i = Some a ∧ getitem l i = Ret a.
Proof.
  intros Hi. destruct (lookup_lt_is_Some_2 l (Z.to_nat i)) as [a Ha]; [lia|].
  exists a. split; [done|]. unfold getitem.
  destruct (Z.ltb_spec i 0); [lia|].
  destruct (Z.leb_spec 0 i); [|lia].
  destruct (Z.ltb_spec i (Z.of_nat (length l))); [|lia].
  simpl. by rewrite Ha.
Qed.

Section line_of_sight.
Context (gm : list (list ascii)) (Hrect : rectangular gm).

Lemma tile_lookup (x y : Z) :
  in_bounds gm x y →
  (getitem gm y ≫= λ row, getitem row x ≫= λ tile,
     Ret (Ascii.eqb tile "#")) = Ret (wall_at gm x y).
Proof.
  intros [Hx Hy]. unfold wall_at.
  destruct (getitem_in_range gm y Hy) as (row & Hrow & ->).
  rewrite Hrow. simpl mbind.
  assert (length row = length (hd [] gm)) as Hlen.
  { eapply (proj1 (Forall_forall _ _) Hrect).
    by eapply list_elem_of_lookup_2. }
  destruct (getitem_in_range row x) as (tile & Htile & ->); [lia|].
  by rewrite Htile.
Qed.

Context (x1 y1 x2 y2 : Z).
Context (Horigin : in_bounds gm x1 y1) (Htarget : in_bounds gm x2 y2).
#[local] Abbreviation dx := (Z.abs (x2 - x1)).
#[local] Abbreviation dy := (Z.abs (y2 - y1)).
#[local] Abbreviation x_inc := (if x1 <? x2 then 1 else -1).
#[local] Abbreviation y_inc := (if y1 <? y2 then 1 else -1).

Lemma los_loop_S (fuel : nat) (x y e : Z) :
  FOVCalculator.los_loop (S fuel) gm x1 y1 x2 y2 dx dy x_inc y_inc x y e
  = (if negb ((x =? x1) && (y =? y1))
     then getitem gm y ≫= λ row, getitem row x ≫= λ tile,
            Ret (Ascii.eqb tile "#")
     else Ret false) ≫= λ blocked : bool,
    if blocked then Ret false
    else if (x =? x2) && (y =? y2) then Ret true
    else let '(x', y', e') := bresenham_step dx dy x_inc y_inc (x, y, e) in
         FOVCalculator.los_loop fuel gm x1 y1 x2 y2 dx dy x_inc y_inc
           x' y' e'.
Proof.
  cbn [FOVCalculator.los_loop].
  destruct (if negb ((x =? x1) && (y =? y1)) then _ else _) as [[]| |];
    simpl; try done.
  destruct ((x =? x2) && (y =? y2)); [done|].
  destruct (- dy <? 2 * e), (2 * e <? dx); reflexivity.
Qed.

Lemma los_loop_clear (fuel : nat) (a b : Z) (s : Z * Z * Z) :
  on_line x1 y1 x2 y2 a b s →
  (Z.to_nat (dx - a + (dy - b)) < fuel)%nat →
  FOVCalculator.los_loop fuel gm x1 y1 x2 y2 dx dy x_inc y_inc
    s.1.1 s.1.2 s.2
  = Ret (forallb (unblocked gm x1 y1)
           (line_points fuel x2 y2 dx dy x_inc y_inc s)).
Proof.
  revert a b s. induction fuel as [|fuel IH]; intros a b s Hs Hfuel; [lia|].
  destruct s as [[x y] e]. cbn [fst snd]. rewrite los_loop_S.
  assert (in_bounds gm x y) as Hxy.
  { destruct (on_line_box _ _ _ _ _ _ _ _ _ Hs).
    destruct Horigin, Htarget. unfold in_bounds. lia. }
  cbn [line_points].
  remember (bresenham_step dx dy x_inc y_inc (x, y, e)) as s' eqn:Hstep.
  cbn [forallb]. unfold unblocked at 1. cbn [fst snd].
  assert (Hnext : (x =? x2) && (y =? y2) = false →
            FOVCalculator.los_loop fuel gm x1 y1 x2 y2 dx dy x_inc y_inc
              s'.1.1 s'.1.2 s'.2
            = Ret (forallb (unblocked gm x1 y1)
                     (line_points fuel x2 y2 dx dy x_inc y_inc s'))).
  { intros Hend.
    destruct (step_on_line _ _ _ _ a b _ Hs)
      as (a' & b' & Hs' & Ha & Hb & Hab).
    { intros Hab. eapply at_end_iff in Hab; [|exact Hs]. congruence. }
    rewrite <- Hstep in Hs'. apply (IH a' b' s'); [done|].
    destruct s' as [[x' y'] e']. destruct Hs' as (? & ? & _). lia. }
  destruct s' as [[x' y'] e']. cbn [fst snd] in Hnext.
  destruct ((x =? x1) && (y =? y1)); cbn [negb orb].
  - simpl mbind. destruct ((x =? x2) && (y =? y2)); [done|]. by apply Hnext.
  - rewrite (tile_lookup _ _ Hxy). simpl mbind.
    destruct (wall_at gm x y); [done|]. cbn [negb andb].
    destruct ((x =? x2) && (y =? y2)); [done|]. by apply Hnext.
Qed.

Lemma has_line_of_sight_clear (fuel : nat) :
  (Z.to_nat (dx + dy) < fuel)%nat →
  FOVCalculator._has_line_of_sight fuel (FOVCalculator.init gm) x1 y1 x2 y2
  = Ret (forallb (unblocked gm x1 y1) (bresenham_line x1 y1 x2 y2)).
Proof.
  intros Hfuel. unfold FOVCalculator._has_line_of_sight.
  replace (FOVCalculator.game_map (FOVCalculator.init gm)) with gm
    by reflexivity.
  pose proof (los_loop_clear fuel 0 0 (x1, y1, dx - dy)
                (on_line_start _ _ _ _) ltac:(lia)) as Hloop.
  cbn [fst snd] in Hloop. rewrite Hloop.
  unfold bresenham_line. do 2 f_equal.
  replace fuel with (S (Z.to_nat (dx + dy)) + (fuel - S (Z.to_nat (dx + dy))))%nat
    at 1 by lia.
  apply (line_points_stable _ _ _ _ _ _ 0 0); [apply on_line_start|lia].
Qed.

Lemma unblocked_line_clear :
  forallb (unblocked gm x1 y1) (bresenham_line x1 y1 x2 y2) = true
  ↔ line_clear gm x1 y1 x2 y2.
Proof.
  rewrite forallb_elem_of. unfold line_clear, unblocked.
  split; intros H [qx qy] Hq.
  - intros Hne. specialize (H _ Hq). cbn [fst snd] in *.
    apply orb_true_iff in H as [H|H].
    + apply andb_true_iff in H as [->%Z.eqb_eq ->%Z.eqb_eq]. done.
    + by apply negb_true_iff.
  - cbn [fst snd]. destruct (decide ((qx, qy) = (x1, y1))) as [[= -> ->]|Hne].
    + by rewrite !Z.eqb_refl.
    + specialize (H _ Hq Hne). cbn [fst snd] in H. rewrite H.
      apply orb_true_r.
Qed.

Lemma line_clear_between :
  line_clear gm x1 y1 x2 y2
  ↔ clear_between gm x1 y1 x2 y2
    ∧ ((x2, y2) = (x1, y1) ∨ wall_at gm x2 y2 = false).
Proof.
  unfold line_clear, clear_between. split.
  - intros H. split; [auto|].
    destruct (decide ((x2, y2) = (x1, y1))); [by left|right].
    apply (H (x2, y2)); [|done]. apply bresenham_line_ends.
  - intros [Hb Ht] q Hq Hne.
    destruct (decide (q = (x2, y2))) as [->|Hne2]; [|auto].
    destruct Ht; [congruence | done].
Qed.
End line_of_sight.

Section simple_fov.
Context (gm : list (list ascii)) (Hrect : rectangular gm).
Context (px py r : Z) (Horigin : in_bounds gm px py).
Context (fuel : nat) (Hfuel : (Z.to_nat (2 * r) < fuel)%nat).

(** What the body of the inner loop adds for the tile [(x, y)]. *)
#[local] Abbreviation cell := (λ (y x : Z),
  if sqrt_le_and_clear gm px py r x y then ({[ (x, y) ]} : gset (Z * Z))
  else ∅).
#[local] Abbreviation xs :=
  (range (Z.max 0 (px - r))
     (Z.min (Z.of_nat (length (hd [] gm))) (px + r + 1))).
#[local] Abbreviation ys :=
  (range (Z.max 0 (py - r)) (Z.min (Z.of_nat (length gm)) (py + r + 1))).

Lemma init_width :
  FOVCalculator.width (FOVCalculator.init gm)
  = Z.of_nat (length (hd [] gm)).
Proof. by destruct gm. Qed.

Lemma inner_body (V : gset (Z * Z)) (x y : Z) :
  x ∈ xs → y ∈ ys →
  (if FOVCalculator.sqrt_le ((x - px) ^ 2 + (y - py) ^ 2) r then
     FOVCalculator._has_line_of_sight fuel (FOVCalculator.init gm) px py x y
     ≫= λ sees : bool, if sees then Ret ({[ (x, y) ]} ∪ V) else Ret V
   else Ret V)
  = Ret (cell y x ∪ V).
Proof.
  intros Hx%elem_of_range Hy%elem_of_range. unfold sqrt_le_and_clear.
  destruct (FOVCalculator.sqrt_le _ r); cbn [andb];
    [|f_equal; set_solver].
  rewrite has_line_of_sight_clear; try done.
  - destruct (forallb (unblocked gm px py) (bresenham_line px py x y));
      cbn [mbind result_bind]; f_equal; set_solver.
  - unfold in_bounds. lia.
  - lia.
Qed.

Lemma simple_fov_spec :
  ∃ V,
    FOVCalculator.calculate_simple_fov fuel (FOVCalculator.init gm) px py r
      = Ret V
    ∧ ∀ tx ty,
        (tx, ty) ∈ V
        ↔ in_bounds gm tx ty ∧ 0 ≤ r
          ∧ (tx - px) ^ 2 + (ty - py) ^ 2 ≤ r * r
          ∧ line_clear gm px py tx ty.
Proof.
  exists (⋃ ((λ y, ⋃ (cell y <$> xs)) <$> ys) ∪ ∅). split.
  - unfold FOVCalculator.calculate_simple_fov. rewrite init_width.
    replace (FOVCalculator.height (FOVCalculator.init gm))
      with (Z.of_nat (length gm)) by reflexivity.
    apply for_each_union. intros V y Hy.
    rewrite (for_each_union _ _ (cell y)); [done|].
    intros V' x Hx. by apply inner_body.
  - intros tx ty. rewrite elem_of_union, elem_of_union_list. split.
    + intros [(X & HX & Hin)|Hin]; [|by apply elem_of_empty in Hin].
      apply list_elem_of_fmap in HX as (y & -> & Hy).
      apply elem_of_union_list in Hin as (X & HX & Hin).
      apply list_elem_of_fmap in HX as (x & -> & Hx).
      unfold sqrt_le_and_clear in Hin.
      destruct (FOVCalculator.sqrt_le _ r) eqn:Hd; cbn [andb] in Hin;
        [|by apply elem_of_empty in Hin].
      destruct (forallb _ _) eqn:Hclear; [|by apply elem_of_empty in Hin].
      apply elem_of_singleton in Hin as [= -> ->].
      apply elem_of_range in Hx, Hy.
      unfold FOVCalculator.sqrt_le in Hd.
      apply andb_true_iff in Hd as [Hr%Z.leb_le Hd%Z.leb_le].
      assert (in_bounds gm x y) as Hxy by (unfold in_bounds; lia).
      repeat split; try lia.
      by apply unblocked_line_clear.
    + intros (Hxy & Hr & Hd & Hclear). left.
      destruct Hxy as [Hx Hy].
      assert (Z.abs (tx - px) ≤ r ∧ Z.abs (ty - py) ≤ r) as [Hax Hay] by nia.
      exists (⋃ (cell ty <$> xs)). split.
      { apply list_elem_of_fmap. exists ty. split; [done|].
        apply elem_of_range. lia. }
      apply elem_of_union_list. exists (cell ty tx). split.
      { apply list_elem_of_fmap. exists tx. split; [done|].
        apply elem_of_range. lia. }
      unfold sqrt_le_and_clear, FOVCalculator.sqrt_le.
      destruct (Z.leb_spec 0 r); [|lia].
      destruct (Z.leb_spec ((tx - px) ^ 2 + (ty - py) ^ 2) (r * r)); [|lia].
      cbn [andb].
      rewrite (proj2 (unblocked_line_clear gm px py tx ty) Hclear).
      by apply elem_of_singleton.
Qed.
End simple_fov.

(** C4, as stated, fails: the wall closing the corridor is two tiles from
    the origin with only floor in between, yet it is not in the visible
    set -- the walk along the line tests the target tile as well. *)
Lemma wall_target_counterexample :
  rectangular dead_end ∧ in_bounds dead_end 0 0 ∧ in_bounds dead_end 2 0
  ∧ (2 - 0) ^ 2 + (0 - 0) ^ 2 ≤ 8 * 8
  ∧ bresenham_line 0 0 2 0 = [(0, 0); (1, 0); (2, 0)]
  ∧ clear_between dead_end 0 0 2 0
  ∧ wall_at dead_end 2 0 = true
  ∧ FOVCalculator.calculate_simple_fov 17 (FOVCalculator.init dead_end) 0 0 8
    = Ret {[ (0, 0); (1, 0) ]}
  ∧ (2, 0) ∉ ({[ (0, 0); (1, 0) ]} : gset (Z * Z)).
Proof.
  split; [by repeat constructor|].
  split; [by (unfold in_bounds; simpl; lia)|].
  split; [by (unfold in_bounds; simpl; lia)|].
  split; [lia|]. split; [reflexivity|].
  split.
  { intros q Hq Hne1 Hne2. change (bresenham_line 0 0 2 0)
      with [(0, 0); (1, 0); (2, 0)] in Hq.
    repeat (apply elem_of_cons in Hq as [->|Hq]); try done.
    by apply elem_of_nil in Hq. }
  split; [reflexivity|]. split; [vm_compute; reflexivity|].
  set_solver.
Qed.

(** C4 (amended): on a rectangular grid with the origin inside it, the
    circular line-of-sight mode returns a set of tiles of the grid within
    Euclidean distance [radius] of the origin; such a tile [T] is in the
    set exactly when the Bresenham line from the origin to [T] crosses no
    wall tile strictly between them and [T] itself is not a wall, unless
    [T] is the origin's own tile; the origin's own tile kind never
    blocks. *)
Theorem simple_fov_visible (gm : list (list ascii)) (px py r : Z)
    (fuel : nat) :
  rectangular gm → in_bounds gm px py → (Z.to_nat (2 * r) < fuel)%nat →
  ∃ V,
    FOVCalculator.calculate_simple_fov fuel (FOVCalculator.init gm) px py r
      = Ret V
    ∧ (∀ tx ty, (tx, ty) ∈ V →
         in_bounds gm tx ty ∧ (tx - px) ^ 2 + (ty - py) ^ 2 ≤ r * r)
    ∧ (∀ tx ty,
         in_bounds gm tx ty → 0 ≤ r →
         (tx - px) ^ 2 + (ty - py) ^ 2 ≤ r * r →
         ((tx, ty) ∈ V
          ↔ clear_between gm px py tx ty
            ∧ ((tx, ty) = (px, py) ∨ wall_at gm tx ty = false)))
    ∧ (0 ≤ r → (px, py) ∈ V).
Proof.
  intros Hrect Horigin Hfuel.
  destruct (simple_fov_spec gm Hrect px py r Horigin fuel Hfuel)
    as (V & Heq & HV).
  exists V. split; [done|]. split; [|split].
  - intros tx ty Hin. apply HV in Hin. tauto.
  - intros tx ty Hb Hr Hd. rewrite HV, line_clear_between. tauto.
  - intros Hr. apply HV. repeat split; try (destruct Horigin; lia).
    apply line_clear_between. split; [|by left].
    intros q Hq Hne1 Hne2.
    assert (bresenham_line px py px py = [(px, py)]) as Hline.
    { unfold bresenham_line. simpl. by rewrite !Z.eqb_refl. }
    rewrite Hline in Hq. apply elem_of_cons in Hq as [->|Hq]; [done|].
    by apply elem_of_nil in Hq.
Qed.

Lemma simple_fov_visible_witness :
  ∃ V,
    FOVCalculator.calculate_simple_fov 17 (FOVCalculator.init dead_end) 0 0 8
      = Ret V
    ∧ (∀ tx ty, (tx, ty) ∈ V →
         in_bounds dead_end tx ty ∧ (tx - 0) ^ 2 + (ty - 0) ^ 2 ≤ 8 * 8)
    ∧ (∀ tx ty,
         in_bounds dead_end tx ty → 0 ≤ 8 →
         (tx - 0) ^ 2 + (ty - 0) ^ 2 ≤ 8 * 8 →
         ((tx, ty) ∈ V
          ↔ clear_between dead_end 0 0 tx ty
            ∧ ((tx, ty) = (0, 0) ∨ wall_at dead_end tx ty = false)))
    ∧ (0 ≤ 8 → (0, 0) ∈ V).
Proof.
  apply (simple_fov_visible dead_end 0 0 8 17).
  - by repeat constructor.
  - unfold in_bounds. simpl. lia.
  - simpl. lia.
Defined.

Lemma split_space_cases_witness :
  ∃ rooms g',
    (∀ fuel, (depth_bound 78 38 < fuel)%nat →
       DungeonGenerator._split_space fuel 1 1 78 38 6 zero_rng
         = Ret (rooms, g'))
    ∧ (length rooms = 1%nat ↔ terminal 78 38 6)
    ∧ (terminal 78 38 6 →
       ∃ off_x off_y,
         0 ≤ off_x ≤ Z.max 0 (78 - Z.max 3 (78 - 2))
         ∧ 0 ≤ off_y ≤ Z.max 0 (38 - Z.max 3 (38 - 2))
         ∧ rooms = [(1 + off_x, 1 + off_y,
                     Z.max 3 (78 - 2), Z.max 3 (38 - 2))])
    ∧ (¬ terminal 78 38 6 →
       ∃ sp g1 g2 rooms1 rooms2,
         rooms = rooms1 ++ rooms2
         ∧ ((6 ≤ sp ≤ 38 - 6
             ∧ (∀ fuel, (depth_bound 78 38 ≤ fuel)%nat →
                  DungeonGenerator._split_space fuel 1 1 78 sp 6 g1
                    = Ret (rooms1, g2))
             ∧ (∀ fuel, (depth_bound 78 38 ≤ fuel)%nat →
                  DungeonGenerator._split_space fuel 1 (1 + sp) 78
                    (38 - sp) 6 g2 = Ret (rooms2, g')))
            ∨ (6 ≤ sp ≤ 78 - 6
               ∧ (∀ fuel, (depth_bound 78 38 ≤ fuel)%nat →
                    DungeonGenerator._split_space fuel 1 1 sp 38 6 g1
                      = Ret (rooms1, g2))
               ∧ (∀ fuel, (depth_bound 78 38 ≤ fuel)%nat →
                    DungeonGenerator._split_space fuel (1 + sp) 1
                      (78 - sp) 38 6 g2 = Ret (rooms2, g'))))).
Proof. apply (split_space_cases 1 1 78 38 6 zero_rng). lia. Defined.

(** * Properties of the remaining code *)

(** ** The player's hit points and buffs *)

Lemma update_buffs_hp (p : Player.t) :
  Player.hp (Player.update_temporary_buffs p)
  = (if (0 <? Player.hp_regeneration p) && (Player.hp p <? Player.max_hp p)
     then Z.min (Player.max_hp p) (Player.hp p + Player.hp_regeneration p)
     else Player.hp p)
  ∧ Player.max_hp (Player.update_temporary_buffs p) = Player.max_hp p.
Proof.
  unfold Player.update_temporary_buffs.
  destruct ((0 <? Player.temp_attack_buff p)
            && (0 <? Player.temp_buff_turns p)); cbn zeta.
  - destruct (Player.temp_buff_turns _ <=? 0); simpl;
      destruct (_ && _); done.
  - destruct (_ && _); done.
Qed.

(** [take_damage] with a non-negative damage, [heal] with a non-negative
    amount and [update_temporary_buffs] keep the hit points within
    [0, max_hp]; damage never raises them, healing and regeneration never
    lower them. *)
Theorem player_hp_stays_in_range (p : Player.t) :
  hp_in_range p →
  (∀ d, 0 ≤ d →
     hp_in_range (Player.take_damage p d)
     ∧ Player.hp (Player.take_damage p d) ≤ Player.hp p)
  ∧ (∀ a, 0 ≤ a →
       hp_in_range (Player.heal p a)
       ∧ Player.hp p ≤ Player.hp (Player.heal p a))
  ∧ hp_in_range (Player.update_temporary_buffs p)
  ∧ Player.hp p ≤ Player.hp (Player.update_temporary_buffs p).
Proof.
  unfold hp_in_range. intros Hp. split; [|split].
  - intros d Hd. simpl. lia.
  - intros a Ha. simpl. lia.
  - destruct (update_buffs_hp p) as [-> ->].
    destruct (Z.ltb_spec 0 (Player.hp_regeneration p)),
      (Z.ltb_spec (Player.hp p) (Player.max_hp p)); simpl; lia.
Qed.

Lemma player_hp_stays_in_range_witness :
  (∀ d, 0 ≤ d →
     hp_in_range (Player.take_damage (Player.init 0 0) d)
     ∧ Player.hp (Player.take_damage (Player.init 0 0) d)
       ≤ Player.hp (Player.init 0 0))
  ∧ (∀ a, 0 ≤ a →
       hp_in_range (Player.heal (Player.init 0 0) a)
       ∧ Player.hp (Player.init 0 0)
         ≤ Player.hp (Player.heal (Player.init 0 0) a))
  ∧ hp_in_range (Player.update_temporary_buffs (Player.init 0 0))
  ∧ Player.hp (Player.init 0 0)
    ≤ Player.hp (Player.update_temporary_buffs (Player.init 0 0)).
Proof.
  apply (player_hp_stays_in_range (Player.init 0 0)).
  unfold hp_in_range. simpl. lia.
Defined.

Lemma update_buffs_buff (q : Player.t) :
  Player.temp_attack_buff (Player.update_temporary_buffs q)
  = (if (0 <? Player.temp_attack_buff q) && (0 <? Player.temp_buff_turns q)
     then if Player.temp_buff_turns q - 1 <=? 0 then 0
          else Player.temp_attack_buff q
     else Player.temp_attack_buff q)
  ∧ Player.temp_buff_turns (Player.update_temporary_buffs q)
    = (if (0 <? Player.temp_attack_buff q) && (0 <? Player.temp_buff_turns q)
       then Player.temp_buff_turns q - 1
       else Player.temp_buff_turns q)
  ∧ Player.attack_power (Player.update_temporary_buffs q)
    = Player.attack_power q.
Proof.
  unfold Player.update_temporary_buffs.
  destruct ((0 <? Player.temp_attack_buff q)
            && (0 <? Player.temp_buff_turns q)); cbn zeta.
  - cbn [Player.temp_buff_turns Player.set_temp_buff_turns].
    destruct (Player.temp_buff_turns q - 1 <=? 0); simpl;
      destruct (_ && _); done.
  - destruct (_ && _); done.
Qed.

Lemma buffs_after_S (k : nat) (p : Player.t) :
  buffs_after (S k) p = Player.update_temporary_buffs (buffs_after k p).
Proof. reflexivity. Qed.

(** While turns remain the buff is kept and one turn is used up per call. *)
Lemma buff_running (p : Player.t) (n k : nat) :
  0 < Player.temp_attack_buff p → Player.temp_buff_turns p = Z.of_nat n →
  (k < n)%nat →
  Player.temp_attack_buff (buffs_after k p) = Player.temp_attack_buff p
  ∧ Player.temp_buff_turns (buffs_after k p) = Z.of_nat (n - k)
  ∧ Player.attack_power (buffs_after k p) = Player.attack_power p.
Proof.
  intros Hb Ht. induction k as [|k IH]; intros Hk.
  - simpl. rewrite Ht, Nat.sub_0_r. done.
  - destruct IH as (IHb & IHt & IHa); [lia|].
    rewrite buffs_after_S.
    destruct (update_buffs_buff (buffs_after k p)) as (-> & -> & ->).
    rewrite IHb, IHt, IHa.
    destruct (Z.ltb_spec 0 (Player.temp_attack_buff p)); [|lia].
    destruct (Z.ltb_spec 0 (Z.of_nat (n - k))); [|lia].
    destruct (Z.leb_spec (Z.of_nat (n - k) - 1) 0); [lia|].
    simpl. repeat split; lia.
Qed.

(** Once the turns are used up the buff is gone for good. *)
Lemma buff_expired (p : Player.t) (n k : nat) :
  0 < Player.temp_attack_buff p → Player.temp_buff_turns p = Z.of_nat n →
  (0 < n)%nat → (n ≤ k)%nat →
  Player.temp_attack_buff (buffs_after k p) = 0
  ∧ Player.attack_power (buffs_after k p) = Player.attack_power p.
Proof.
  intros Hb Ht Hn. induction k as [|k IH]; intros Hk; [lia|].
  rewrite buffs_after_S.
  destruct (update_buffs_buff (buffs_after k p)) as (-> & _ & ->).
  destruct (decide (n ≤ k)%nat) as [Hle|Hgt].
  - destruct (IH Hle) as [-> ->]. done.
  - destruct (buff_running p n k Hb Ht ltac:(lia)) as (-> & -> & ->).
    destruct (Z.ltb_spec 0 (Player.temp_attack_buff p)); [|lia].
    destruct (Z.ltb_spec 0 (Z.of_nat (n - k))); [|lia].
    destruct (Z.leb_spec (Z.of_nat (n - k) - 1) 0); [|lia].
    done.
Qed.

(** The WEALTH sacrifice halves the gold (rounding the loss down) and adds
    10 to the temporary attack buff with 15 turns to run: the effective
    attack is raised for exactly the next 15 calls of
    [update_temporary_buffs], the 15th call removes the whole temporary
    buff, and the permanent attack power is never touched. *)
Theorem wealth_buff_lasts_fifteen_turns (self : SacrificeSystem.t)
    (p : Player.t) (gs : GameState.t) (gm : GameMap.t) (g : Rng) :
  0 ≤ Player.temp_attack_buff p →
  ∃ msg self' p',
    SacrificeSystem.apply_sacrifice_effect self WEALTH p gs gm g
      = Ret (msg, self', p', gs, gm, g)
    ∧ Inventory.gold (Player.inventory p')
      = Inventory.gold (Player.inventory p)
        - Inventory.gold (Player.inventory p) / 2
    ∧ (∀ k, (k < 15)%nat →
         Player.get_effective_attack (buffs_after k p')
         = Player.attack_power p + Player.temp_attack_buff p + 10)
    ∧ (∀ k, (15 ≤ k)%nat →
         Player.get_effective_attack (buffs_after k p')
         = Player.attack_power p).
Proof.
  intros Hb. simpl. do 3 eexists. split; [reflexivity|].
  split; [reflexivity|].
  set (p' := Player.set_temp_buff_turns 15 _).
  assert (0 < Player.temp_attack_buff p') as Hb' by (simpl; lia).
  assert (Player.temp_buff_turns p' = Z.of_nat 15) as Ht' by reflexivity.
  split; intros k Hk; unfold Player.get_effective_attack.
  - destruct (buff_running p' 15 k Hb' Ht' Hk) as (-> & _ & ->).
    simpl. lia.
  - destruct (buff_expired p' 15 k Hb' Ht' ltac:(lia) Hk) as (-> & ->).
    simpl. lia.
Qed.

Lemma wealth_buff_lasts_fifteen_turns_witness :
  ∃ msg self' p',
    SacrificeSystem.apply_sacrifice_effect SacrificeSystem.init WEALTH
      (Player.init 0 0) GameState.init empty_map zero_rng
      = Ret (msg, self', p', GameState.init, empty_map, zero_rng)
    ∧ Inventory.gold (Player.inventory p')
      = Inventory.gold (Player.inventory (Player.init 0 0))
        - Inventory.gold (Player.inventory (Player.init 0 0)) / 2
    ∧ (∀ k, (k < 15)%nat →
         Player.get_effective_attack (buffs_after k p')
         = Player.attack_power (Player.init 0 0)
           + Player.temp_attack_buff (Player.init 0 0) + 10)
    ∧ (∀ k, (15 ≤ k)%nat →
         Player.get_effective_attack (buffs_after k p')
         = Player.attack_power (Player.init 0 0)).
Proof.
  apply (wealth_buff_lasts_fifteen_turns SacrificeSystem.init
           (Player.init 0 0) GameState.init empty_map zero_rng).
  simpl. lia.
Defined.

(** ** What a sacrifice touches *)

(** Every sacrifice kind keeps the player's hit points within
    [0, max_hp]. *)
Theorem sacrifice_keeps_hp_in_range (self : SacrificeSystem.t)
    (ty : SacrificeType) (p : Player.t) (gs : GameState.t) (gm : GameMap.t)
    (g : Rng) :
  hp_in_range p →
  ∃ msg self' p' gs' gm' g',
    SacrificeSystem.apply_sacrifice_effect self ty p gs gm g
      = Ret (msg, self', p', gs', gm', g')
    ∧ hp_in_range p'.
Proof.
  unfold hp_in_range. intros Hp.
  destruct ty; simpl;
    try (do 6 eexists; split; [reflexivity|]; simpl; lia).
  destruct (lose_random_item_returns (Player.inventory p) g)
    as (inv' & g' & ->).
  simpl. do 6 eexists. split; [reflexivity|]. simpl. lia.
Qed.

Lemma sacrifice_keeps_hp_in_range_witness :
  ∃ msg self' p' gs' gm' g',
    SacrificeSystem.apply_sacrifice_effect SacrificeSystem.init BLOOD
      (Player.init 0 0) GameState.init empty_map zero_rng
      = Ret (msg, self', p', gs', gm', g')
    ∧ hp_in_range p'.
Proof.
  apply (sacrifice_keeps_hp_in_range SacrificeSystem.init BLOOD
           (Player.init 0 0) GameState.init empty_map zero_rng).
  unfold hp_in_range. simpl. lia.
Defined.

(** No sacrifice moves the player, lowers the permanent attack power,
    changes the list of altars, the tiles, the currently visible set, the
    level or the end-of-game flags; and only SOUL and WEALTH touch the
    inventory. *)
Theorem sacrifice_frame (self : SacrificeSystem.t) (ty : SacrificeType)
    (p : Player.t) (gs : GameState.t) (gm : GameMap.t) (g : Rng) :
  ∃ msg self' p' gs' gm' g',
    SacrificeSystem.apply_sacrifice_effect self ty p gs gm g
      = Ret (msg, self', p', gs', gm', g')
    ∧ Player.x p' = Player.x p ∧ Player.y p' = Player.y p
    ∧ Player.attack_power p ≤ Player.attack_power p'
    ∧ SacrificeSystem.altars self' = SacrificeSystem.altars self
    ∧ GameMap.tiles gm' = GameMap.tiles gm
    ∧ VisibilityTracker.visible (GameMap.visibility_tracker gm')
      = VisibilityTracker.visible (GameMap.visibility_tracker gm)
    ∧ GameState.current_level gs' = GameState.current_level gs
    ∧ GameState.game_over gs' = GameState.game_over gs
    ∧ GameState.victory gs' = GameState.victory gs
    ∧ (ty ≠ SOUL → ty ≠ WEALTH →
       Player.inventory p' = Player.inventory p ∧ g' = g).
Proof.
  destruct ty; simpl;
    try (do 6 eexists; split; [reflexivity|]; simpl;
         repeat split; (lia || done)).
  destruct (lose_random_item_returns (Player.inventory p) g)
    as (inv' & g' & ->).
  simpl. do 6 eexists. split; [reflexivity|]. simpl.
  repeat split; (lia || done).
Qed.

Lemma sacrifice_frame_witness :
  ∃ msg self' p' gs' gm' g',
    SacrificeSystem.apply_sacrifice_effect SacrificeSystem.init HOPE
      (Player.init 2 3) GameState.init empty_map zero_rng
      = Ret (msg, self', p', gs', gm', g')
    ∧ Player.inventory p' = Player.inventory (Player.init 2 3)
    ∧ g' = zero_rng.
Proof.
  destruct (sacrifice_frame SacrificeSystem.init HOPE (Player.init 2 3)
              GameState.init empty_map zero_rng)
    as (msg & s' & p' & gs' & gm' & g' & Heq & _ & _ & _ & _ & _ & _ & _ & _
        & _ & Hinv).
  exists msg, s', p', gs', gm', g'. split; [exact Heq|].
  apply Hinv; discriminate.
Defined.

(** ** Counting sacrifices *)

Lemma apply_count (self : SacrificeSystem.t) (ty : SacrificeType)
    (p : Player.t) (gs : GameState.t) (gm : GameMap.t) (g : Rng) :
  ∃ msg self' p' gs' gm' g',
    SacrificeSystem.apply_sacrifice_effect self ty p gs gm g
      = Ret (msg, self', p', gs', gm', g')
    ∧ ∀ k, SacrificeSystem.get_sacrifice_count self' k
           = SacrificeSystem.get_sacrifice_count self k
             + (if decide (k = ty) then 1 else 0).
Proof.
  assert (∀ k, default 0 (<[ty := default 0
                              (SacrificeSystem.player_sacrifices self !! ty)
                              + 1]>
                            (SacrificeSystem.player_sacrifices self) !! k)
               = default 0 (SacrificeSystem.player_sacrifices self !! k)
                 + (if decide (k = ty) then 1 else 0)) as Hcount.
  { intros k. destruct (decide (k = ty)) as [->|Hne].
    - by rewrite lookup_insert_eq.
    - rewrite lookup_insert_ne by done. lia. }
  unfold SacrificeSystem.get_sacrifice_count.
  destruct ty; simpl;
    try (do 6 eexists; split; [reflexivity|]; exact Hcount).
  destruct (lose_random_item_returns (Player.inventory p) g)
    as (inv' & g' & ->).
  simpl. do 6 eexists. split; [reflexivity|]. exact Hcount.
Qed.

Lemma run_count (kinds : list SacrificeType) (st : Run.state) :
  ∃ st', Run.sacrifices kinds st = Ret st'
    ∧ ∀ k, SacrificeSystem.get_sacrifice_count (Run.system st') k
           = SacrificeSystem.get_sacrifice_count (Run.system st) k
             + occurrences k kinds.
Proof.
  revert st. induction kinds as [|ty kinds IH]; intros st.
  - exists st. split; [done|]. intros k. unfold occurrences. simpl. lia.
  - destruct (apply_count (Run.system st) ty (Run.player st)
                (Run.game_state st) (Run.game_map st) (Run.rng st))
      as (msg & s' & p' & gs' & gm' & g' & Heq & Hc).
    destruct (IH (Run.mk s' p' gs' gm' g')) as (st' & Hrun & Hc').
    exists st'. split.
    + rewrite <- Hrun. apply sacrifices_cons. unfold Run.step.
      by rewrite Heq.
    + intros k. rewrite Hc'. simpl. rewrite Hc. unfold occurrences.
      rewrite filter_cons.
      destruct (decide (k = ty)) as [->|Hne].
      * rewrite decide_True by done. simpl length. lia.
      * rewrite decide_False by done. lia.
Qed.

(** After any run of sacrifices from a fresh engine,
    [get_sacrifice_count] of a kind is the number of times that kind was
    applied, zero for a kind never applied, and [get_total_sacrifices] is
    the length of the run. *)
Theorem sacrifice_count_after_run (kinds : list SacrificeType)
    (p : Player.t) (gs : GameState.t) (gm : GameMap.t) (g : Rng) :
  ∃ st',
    Run.sacrifices kinds (Run.mk SacrificeSystem.init p gs gm g) = Ret st'
    ∧ (∀ k, SacrificeSystem.get_sacrifice_count (Run.system st') k
            = occurrences k kinds)
    ∧ SacrificeSystem.get_total_sacrifices (Run.system st')
      = Z.of_nat (length kinds).
Proof.
  destruct (run_count kinds (Run.mk SacrificeSystem.init p gs gm g))
    as (st' & Hrun & Hc).
  destruct (sacrifices_counters kinds (Run.mk SacrificeSystem.init p gs gm g))
    as (st'' & Hrun' & Ht & _).
  assert (st'' = st') as -> by congruence.
  exists st'. split; [done|]. split.
  - intros k. rewrite Hc. unfold SacrificeSystem.get_sacrifice_count.
    simpl. rewrite lookup_empty. simpl. lia.
  - unfold SacrificeSystem.get_total_sacrifices. rewrite Ht. simpl. lia.
Qed.

(** [get_sacrifices_remaining] is zero exactly when [can_use_exit] holds;
    a HOPE sacrifice leaves it as it was, and a sacrifice of any other kind
    lowers it by one unless it is already zero. *)
Theorem sacrifices_remaining_steps :
  (∀ self, SacrificeSystem.get_sacrifices_remaining self = 0
           ↔ SacrificeSystem.can_use_exit self = true)
  ∧ (∀ self ty p gs gm g,
       ∃ msg self' p' gs' gm' g',
         SacrificeSystem.apply_sacrifice_effect self ty p gs gm g
           = Ret (msg, self', p', gs', gm', g')
         ∧ SacrificeSystem.get_sacrifices_remaining self'
           = (if decide (ty = HOPE)
              then SacrificeSystem.get_sacrifices_remaining self
              else Z.max 0
                     (SacrificeSystem.get_sacrifices_remaining self - 1))).
Proof.
  split.
  - intros self. rewrite can_use_exit_iff.
    unfold SacrificeSystem.get_sacrifices_remaining. lia.
  - intros self ty p gs gm g.
    destruct (apply_counters self ty p gs gm g)
      as (msg & s' & p' & gs' & gm' & g' & Heq & Ht & Hr).
    exists msg, s', p', gs', gm', g'. split; [done|].
    unfold SacrificeSystem.get_sacrifices_remaining. rewrite Ht, Hr.
    destruct (decide (ty = HOPE)); lia.
Qed.

(** ** Monsters: damage, steps, lookup *)

Lemma take_damage_alive (m : Monster.t) (d : Z) :
  Monster.is_alive m = true → 0 < Monster.hp m → 0 ≤ d →
  Monster.hp (Monster.take_damage m d).2 = Z.max 0 (Monster.hp m - d)
  ∧ (Monster.is_alive (Monster.take_damage m d).2 = true ↔ d < Monster.hp m).
Proof.
  intros Ha Hhp Hd. unfold Monster.take_damage.
  destruct (Z.leb_spec (Z.max 0 (Monster.hp m - d)) 0);
    cbn [snd Monster.hp Monster.is_alive].
  - split; [done|]. split; [done | lia].
  - split; [done|]. rewrite Ha. split; [lia | done].
Qed.

Lemma damaged_dead (ds : list Z) (m : Monster.t) :
  Monster.is_alive m = false →
  Monster.is_alive (damaged ds m) = false.
Proof.
  revert m. induction ds as [|d ds IH]; intros m Hm; [done|].
  simpl. apply IH. unfold Monster.take_damage.
  by destruct (_ <=? _).
Qed.

Lemma damaged_dead_hp (ds : list Z) (m : Monster.t) :
  Monster.hp m = 0 → Forall (λ d, 0 ≤ d) ds →
  Monster.hp (damaged ds m) = 0.
Proof.
  intros Hm Hds. revert m Hm.
  induction Hds as [|d ds Hd Hds IH]; intros m Hm; [done|].
  simpl. apply IH. unfold Monster.take_damage.
  destruct (_ <=? _); cbn [snd Monster.hp]; lia.
Qed.

Lemma total_damage_nonneg (ds : list Z) :
  Forall (λ d, 0 ≤ d) ds → 0 ≤ total_damage ds.
Proof. induction 1; simpl; lia. Qed.

(** A living monster with [h > 0] hit points that takes a list of
    non-negative damages is alive afterwards exactly when they add up to
    less than [h], and is left with [max(0, h - sum)] hit points; whatever
    the damages, a dead monster never comes back to life. *)
Theorem monster_survives_iff (m : Monster.t) (ds : list Z) :
  Monster.is_alive m = true → 0 < Monster.hp m → Forall (λ d, 0 ≤ d) ds →
  (Monster.is_alive (damaged ds m) = true ↔ total_damage ds < Monster.hp m)
  ∧ Monster.hp (damaged ds m) = Z.max 0 (Monster.hp m - total_damage ds)
  ∧ (∀ ds' m', Monster.is_alive m' = false →
               Monster.is_alive (damaged ds' m') = false).
Proof.
  intros Ha Hhp Hds. split; [|split]; [| |by intros; apply damaged_dead].
  - revert m Ha Hhp. induction Hds as [|d ds Hd Hds IH]; intros m Ha Hhp.
    + simpl. split; [lia | done].
    + simpl. destruct (take_damage_alive m d Ha Hhp Hd) as [Hh Hal].
      destruct (decide (d < Monster.hp m)) as [Hlt|Hge].
      * rewrite IH; [|by apply Hal|lia]. rewrite Hh. lia.
      * pose proof (total_damage_nonneg ds Hds). rewrite damaged_dead.
        -- split; [done | lia].
        -- destruct (Monster.is_alive (Monster.take_damage m d).2) eqn:E;
             [|done].
           exfalso. apply Hge. by apply Hal.
  - revert m Ha Hhp. induction Hds as [|d ds Hd Hds IH]; intros m Ha Hhp.
    + simpl. lia.
    + simpl. destruct (take_damage_alive m d Ha Hhp Hd) as [Hh Hal].
      destruct (decide (d < Monster.hp m)) as [Hlt|Hge].
      * rewrite IH; [|by apply Hal|lia]. rewrite Hh. lia.
      * pose proof (total_damage_nonneg ds Hds).
        rewrite damaged_dead_hp; [lia| |done]. rewrite Hh. lia.
Qed.

Lemma monster_survives_iff_witness :
  (Monster.is_alive (damaged [8; 9; 5] (Monster.init 4 4 GOBLIN)) = true
   ↔ total_damage [8; 9; 5] < Monster.hp (Monster.init 4 4 GOBLIN))
  ∧ Monster.hp (damaged [8; 9; 5] (Monster.init 4 4 GOBLIN))
    = Z.max 0 (Monster.hp (Monster.init 4 4 GOBLIN) - total_damage [8; 9; 5])
  ∧ (∀ ds' m', Monster.is_alive m' = false →
               Monster.is_alive (damaged ds' m') = false).
Proof.
  apply (monster_survives_iff (Monster.init 4 4 GOBLIN) [8; 9; 5]).
  - reflexivity.
  - simpl. lia.
  - repeat constructor; lia.
Defined.

Lemma getitem_Ret {A} (l : list A) (i : Z) (a : A) :
  0 ≤ i → getitem l i = Ret a →
  l !! Z.to_nat i = Some a ∧ i < Z.of_nat (length l).
Proof.
  intros Hi. unfold getitem.
  destruct (Z.ltb_spec i 0); [lia|].
  destruct (Z.leb_spec 0 i); [|lia].
  destruct (Z.ltb_spec i (Z.of_nat (length l))); [|done].
  simpl. destruct (l !! Z.to_nat i); [|done]. by intros [= ->].
Qed.

(** Reading a tile behind the bounds tests of a move: a tile that is there
    and is not a wall. *)
Lemma guarded_tile_open (gm : list (list ascii)) (x y : Z) {A} (yes no : A)
    (r : A) :
  (if 0 <=? x then
     row0 ← getitem gm 0;
     if x <? Z.of_nat (length row0) then
       if (0 <=? y) && (y <? Z.of_nat (length gm)) then
         row ← getitem gm y;
         tile ← getitem row x;
         if negb (Ascii.eqb tile "#") then Ret yes else Ret no
       else Ret no
     else Ret no
   else Ret no) = Ret r →
  (r = yes ∧ open_tile gm x y) ∨ r = no.
Proof.
  destruct (Z.leb_spec 0 x) as [Hx|]; [|intros [= <-]; by right].
  intros H. apply bind_Ret_inv in H as (row0 & _ & H).
  destruct (x <? _); [|injection H as <-; by right].
  destruct (Z.leb_spec 0 y) as [Hy|]; [|injection H as <-; by right].
  destruct (y <? _); simpl in H; [|injection H as <-; by right].
  apply bind_Ret_inv in H as (row & Hrow & H).
  apply bind_Ret_inv in H as (tile & Htile & H).
  apply getitem_Ret in Hrow as [Hrow _]; [|done].
  apply getitem_Ret in Htile as [Htile _]; [|done].
  destruct (Ascii.eqb_spec tile "#"); simpl in H; injection H as <-;
    [by right|left].
  split; [done|]. unfold open_tile. eauto 10.
Qed.


(** What one call of [move_towards] can do. *)
Lemma move_towards_spec (m : Monster.t) (tx ty : Z)
    (gm : list (list ascii)) (sb : Z) (g : Rng)
    (b : bool) (m' : Monster.t) (g' : Rng) :
  Monster.move_towards m tx ty gm sb g = Ret (b, m', g') →
  same_monster m m'
  ∧ (b = false → Monster.x m' = Monster.x m ∧ Monster.y m' = Monster.y m)
  ∧ (Monster.is_alive m = false → b = false ∧ m' = m ∧ g' = g)
  ∧ (Monster.turns_since_last_move m + 1 < Z.max 1 (2 - sb) → b = false)
  ∧ (b = true →
       Monster.turns_since_last_move m' = 0
       ∧ Z.abs (Monster.x m' - Monster.x m) ≤ 1
       ∧ Z.abs (Monster.y m' - Monster.y m) ≤ 1
       ∧ Z.abs (tx - Monster.x m') ≤ Z.abs (tx - Monster.x m)
       ∧ Z.abs (ty - Monster.y m') ≤ Z.abs (ty - Monster.y m)
       ∧ open_tile gm (Monster.x m') (Monster.y m')).
Proof.
  unfold Monster.move_towards.
  destruct (Monster.is_alive m) eqn:Halive; simpl negb; cbv iota.
  2: { intros [= <- <- <-]. unfold same_monster. repeat split; done. }
  destruct (Z.ltb_spec (Monster.turns_since_last_move
              (Monster.set_turns_since_last_move
                 (Monster.turns_since_last_move m + 1) m))
              (Z.max 1 (2 - sb))) as [Hthr|Hthr].
  { intros [= <- <- <-]. unfold same_monster. repeat split; done. }
  cbv zeta.
  set (self2 := Monster.set_turns_since_last_move 0 _).
  set (sx := if Monster.x self2 <? tx then 1
             else if tx <? Monster.x self2 then -1 else 0).
  set (sy := if Monster.y self2 <? ty then 1
             else if ty <? Monster.y self2 then -1 else 0).
  destruct (if negb (sx =? 0) && negb (sy =? 0) then _ else _)
    as [[dx dy] g1] eqn:Hdir.
  assert ((dx = sx ∨ dx = 0) ∧ (dy = sy ∨ dy = 0)) as [Hdx Hdy].
  { destruct (negb (sx =? 0) && negb (sy =? 0)).
    - destruct (random g) as [r1 ga]. destruct (Qltb r1 _).
      + destruct (random ga) as [r2 gb].
        destruct (Qltb r2 _); injection Hdir as <- <- <-; auto.
      + injection Hdir as <- <- <-; auto.
    - injection Hdir as <- <- <-; auto. }
  assert (Z.abs sx ≤ 1 ∧ Z.abs (tx - (Monster.x m + sx))
                          ≤ Z.abs (tx - Monster.x m)) as [Hsx1 Hsx2].
  { subst sx self2. simpl.
    destruct (Z.ltb_spec (Monster.x m) tx), (Z.ltb_spec tx (Monster.x m));
      lia. }
  assert (Z.abs sy ≤ 1 ∧ Z.abs (ty - (Monster.y m + sy))
                          ≤ Z.abs (ty - Monster.y m)) as [Hsy1 Hsy2].
  { subst sy self2. simpl.
    destruct (Z.ltb_spec (Monster.y m) ty), (Z.ltb_spec ty (Monster.y m));
      lia. }
  clearbody sx sy. simpl in Hthr.
  intros H. apply guarded_tile_open in H as [[Heq Hopen]|Heq];
    injection Heq as -> -> ->; unfold same_monster; subst self2; simpl in *.
  - split; [repeat split; done|]. split; [done|]. split; [done|].
    split; [lia|]. intros _. split; [done|].
    split; [destruct Hdx as [->| ->]; lia|].
    split; [destruct Hdy as [->| ->]; lia|].
    split; [destruct Hdx as [->| ->]; lia|].
    split; [destruct Hdy as [->| ->]; lia|].
    exact Hopen.
  - split; [repeat split; done|]. split; [done|]. split; [done|].
    split; done.
Qed.

(** A call of [move_towards] never changes what the monster is (kind, hit
    points, attack power, alive flag).  A dead monster is left as it is; a
    call made before the move threshold [max(1, 2 - speed_buff)] is reached
    moves nothing.  When the call reports a move, the monster stands on a
    tile of the grid that is not a wall, at most one tile away on each axis
    and on neither axis farther from the target than before, and its move
    counter is back at zero. *)
Theorem monster_step_is_legal (m : Monster.t) (tx ty : Z)
    (gm : list (list ascii)) (sb : Z) (g : Rng)
    (b : bool) (m' : Monster.t) (g' : Rng) :
  Monster.move_towards m tx ty gm sb g = Ret (b, m', g') →
  same_monster m m'
  ∧ (b = false → Monster.x m' = Monster.x m ∧ Monster.y m' = Monster.y m)
  ∧ (Monster.is_alive m = false → b = false ∧ m' = m ∧ g' = g)
  ∧ (Monster.turns_since_last_move m + 1 < Z.max 1 (2 - sb) → b = false)
  ∧ (b = true →
       Monster.turns_since_last_move m' = 0
       ∧ Z.abs (Monster.x m' - Monster.x m) ≤ 1
       ∧ Z.abs (Monster.y m' - Monster.y m) ≤ 1
       ∧ Z.abs (tx - Monster.x m') ≤ Z.abs (tx - Monster.x m)
       ∧ Z.abs (ty - Monster.y m') ≤ Z.abs (ty - Monster.y m)
       ∧ open_tile gm (Monster.x m') (Monster.y m')).
Proof. apply move_towards_spec. Qed.

Lemma monster_step_is_legal_witness :
  same_monster (rested (Monster.init 1 1 GOBLIN))
    (Monster.set_pos 2 1 (Monster.init 1 1 GOBLIN))
  ∧ (true = true →
       Monster.turns_since_last_move
         (Monster.set_pos 2 1 (Monster.init 1 1 GOBLIN)) = 0
       ∧ open_tile open_room 2 1).
Proof.
  destruct (monster_step_is_legal (rested (Monster.init 1 1 GOBLIN)) 3 1
              open_room 0 zero_rng true
              (Monster.set_pos 2 1 (Monster.init 1 1 GOBLIN)) zero_rng)
    as (Hsame & _ & _ & _ & Hmove); [reflexivity|].
  split; [exact Hsame|].
  intros Ht. destruct (Hmove Ht) as (H0 & _ & _ & _ & _ & Hopen).
  split; [exact H0 | exact Hopen].
Defined.

(** ** The player's moves *)

Lemma load_random_raises : Player.load_global "random" = Raise NameError.
Proof. reflexivity. Qed.

(** Whenever [Player.move] returns, no random number has been drawn.  If it
    returns [False] the player is exactly as before; if it returns [True]
    the player has no movement penalty, only the position has changed, by
    exactly [(dx, dy)], and the new tile is a tile of the grid that is not
    a wall. *)
Theorem player_move_is_legal (self : Player.t) (dx dy : Z)
    (gm : list (list ascii)) (g : Rng)
    (b : bool) (p' : Player.t) (g' : Rng) :
  Player.move self dx dy gm g = Ret (b, p', g') →
  g' = g
  ∧ (b = false → p' = self)
  ∧ (b = true →
       p' = Player.set_pos (Player.x self + dx) (Player.y self + dy) self
       ∧ Player.movement_penalty self ≤ 0
       ∧ open_tile gm (Player.x self + dx) (Player.y self + dy)).
Proof.
  unfold Player.move.
  repeat (destruct (_ && bool_decide _);
          [intros [= <- <- <-]; repeat split; done|]).
  destruct (Z.ltb_spec 0 (Player.movement_penalty self)) as [Hp|Hp].
  { rewrite load_random_raises. discriminate. }
  cbn [mbind result_bind]. cbv zeta.
  intros H. apply guarded_tile_open in H as [[Heq Hopen]|Heq];
    injection Heq as -> -> ->; (split; [done|]); (split; [done|]).
  - intros _. split; [done|]. split; [done | exact Hopen].
  - discriminate.
Qed.

Lemma player_move_is_legal_witness :
  zero_rng = zero_rng
  ∧ (true = true →
       Player.set_pos 2 1 (Player.init 1 1)
       = Player.set_pos (Player.x (Player.init 1 1) + 1)
           (Player.y (Player.init 1 1) + 0) (Player.init 1 1)
       ∧ Player.movement_penalty (Player.init 1 1) ≤ 0
       ∧ open_tile open_room (Player.x (Player.init 1 1) + 1)
           (Player.y (Player.init 1 1) + 0)).
Proof.
  destruct (player_move_is_legal (Player.init 1 1) 1 0 open_room zero_rng
              true (Player.set_pos 2 1 (Player.init 1 1)) zero_rng)
    as (Hg & _ & Hmove); [reflexivity|].
  split; [exact Hg | exact Hmove].
Defined.

(** ** Looking up monsters and altars by tile *)

Lemma stands_on_test (m : Monster.t) (x y : Z) :
  (Monster.x m =? x) && (Monster.y m =? y) && Monster.is_alive m = true
  ↔ stands_on m x y.
Proof.
  unfold stands_on. rewrite !andb_true_iff, !Z.eqb_eq. tauto.
Qed.

Lemma find_from_spec (l : list Monster.t) (x y : Z) (k : nat) :
  match MonsterManager.find_from k l x y with
  | Some i =>
      ∃ j m, i = (k + j)%nat ∧ l !! j = Some m ∧ stands_on m x y
        ∧ ∀ j' m', (j' < j)%nat → l !! j' = Some m' → ¬ stands_on m' x y
  | None => ∀ j m, l !! j = Some m → ¬ stands_on m x y
  end.
Proof.
  revert k. induction l as [|m l IH]; intros k; simpl.
  - intros j m Hj. by rewrite lookup_nil in Hj.
  - destruct ((Monster.x m =? x) && (Monster.y m =? y) && Monster.is_alive m)
      eqn:Htest.
    + apply stands_on_test in Htest. exists 0%nat, m.
      split; [lia|]. split; [done|]. split; [done|]. intros j' m' Hj'. lia.
    + assert (¬ stands_on m x y) as Hm.
      { intros Hs%stands_on_test. congruence. }
      specialize (IH (S k)).
      destruct (MonsterManager.find_from (S k) l x y) as [i|].
      * destruct IH as (j & m0 & -> & Hj & Hs & Hfirst).
        exists (S j), m0. split; [lia|]. split; [done|]. split; [done|].
        intros [|j'] m' Hlt Hj'; simpl in Hj'.
        -- by injection Hj' as <-.
        -- eapply Hfirst; [|exact Hj']. lia.
      * intros [|j] m0 Hj; simpl in Hj.
        -- by injection Hj as <-.
        -- by eapply IH.
Qed.

(** [get_monster_at] returns a slot exactly when it holds the first living
    monster of the list standing on the tile, and [None] exactly when no
    living monster stands there; dead monsters are never returned. *)
Theorem get_monster_at_first (ms : list Monster.t) (x y : Z) :
  (∀ i, MonsterManager.get_monster_at ms x y = Some i
        ↔ ∃ m, ms !! i = Some m ∧ stands_on m x y
            ∧ ∀ j m', (j < i)%nat → ms !! j = Some m' → ¬ stands_on m' x y)
  ∧ (MonsterManager.get_monster_at ms x y = None
     ↔ ∀ j m, ms !! j = Some m → ¬ stands_on m x y).
Proof.
  unfold MonsterManager.get_monster_at.
  pose proof (find_from_spec ms x y 0) as Hspec.
  destruct (MonsterManager.find_from 0 ms x y) as [i0|].
  - destruct Hspec as (j & m & -> & Hj & Hs & Hfirst). simpl. split.
    + intros i. split.
      * intros [= <-]. eauto.
      * intros (m' & Hi & Hs' & Hfirst'). f_equal.
        destruct (Nat.lt_trichotomy i j) as [Hlt|[->|Hgt]]; [|done|].
        -- exfalso. by eapply Hfirst.
        -- exfalso. by eapply Hfirst'.
    + split; [done|]. intros Hnone. exfalso. by eapply Hnone.
  - split.
    + intros i. split; [done|]. intros (m & Hi & Hs & _).
      exfalso. by eapply Hspec.
    + done.
Qed.

Lemma offers_at_test (a : Altar.t) (x y : Z) :
  (Altar.x a =? x) && (Altar.y a =? y) && negb (Altar.used a) = true
  ↔ offers_at a x y.
Proof.
  unfold offers_at. rewrite !andb_true_iff, !Z.eqb_eq, negb_true_iff. tauto.
Qed.

Lemma find_altar_spec (l : list Altar.t) (x y : Z) (k : nat) :
  match SacrificeSystem.find_altar k l x y with
  | Some i =>
      ∃ j a, i = (k + j)%nat ∧ l !! j = Some a ∧ offers_at a x y
        ∧ ∀ j' a', (j' < j)%nat → l !! j' = Some a' → ¬ offers_at a' x y
  | None => ∀ j a, l !! j = Some a → ¬ offers_at a x y
  end.
Proof.
  revert k. induction l as [|a l IH]; intros k; simpl.
  - intros j a Hj. by rewrite lookup_nil in Hj.
  - destruct ((Altar.x a =? x) && (Altar.y a =? y) && negb (Altar.used a))
      eqn:Htest.
    + apply offers_at_test in Htest. exists 0%nat, a.
      split; [lia|]. split; [done|]. split; [done|]. intros j' a' Hj'. lia.
    + assert (¬ offers_at a x y) as Ha.
      { intros Hs%offers_at_test. congruence. }
      specialize (IH (S k)).
      destruct (SacrificeSystem.find_altar (S k) l x y) as [i|].
      * destruct IH as (j & a0 & -> & Hj & Hs & Hfirst).
        exists (S j), a0. split; [lia|]. split; [done|]. split; [done|].
        intros [|j'] a' Hlt Hj'; simpl in Hj'.
        -- by injection Hj' as <-.
        -- eapply Hfirst; [|exact Hj']. lia.
      * intros [|j] a0 Hj; simpl in Hj.
        -- by injection Hj as <-.
        -- by eapply IH.
Qed.

(** [get_altar_at] returns a slot exactly when it holds the first unused
    altar of the list on the tile, and [None] exactly when no unused altar
    is there; once an altar has been marked as used, no lookup on any tile
    returns it again. *)
Theorem altar_found_until_used (self : SacrificeSystem.t) (x y : Z) :
  (∀ i, SacrificeSystem.get_altar_at self x y = Some i
        ↔ ∃ a, SacrificeSystem.altars self !! i = Some a ∧ offers_at a x y
            ∧ ∀ j a', (j < i)%nat → SacrificeSystem.altars self !! j = Some a'
                      → ¬ offers_at a' x y)
  ∧ (SacrificeSystem.get_altar_at self x y = None
     ↔ ∀ j a, SacrificeSystem.altars self !! j = Some a → ¬ offers_at a x y)
  ∧ (∀ i, SacrificeSystem.get_altar_at (consume_altar i self) x y ≠ Some i).
Proof.
  assert (∀ s,
    (∀ i, SacrificeSystem.get_altar_at s x y = Some i
          ↔ ∃ a, SacrificeSystem.altars s !! i = Some a ∧ offers_at a x y
              ∧ ∀ j a', (j < i)%nat → SacrificeSystem.altars s !! j = Some a'
                        → ¬ offers_at a' x y)
    ∧ (SacrificeSystem.get_altar_at s x y = None
       ↔ ∀ j a, SacrificeSystem.altars s !! j = Some a → ¬ offers_at a x y))
    as Hfirst.
  { intros s. unfold SacrificeSystem.get_altar_at.
    pose proof (find_altar_spec (SacrificeSystem.altars s) x y 0) as Hspec.
    destruct (SacrificeSystem.find_altar 0 (SacrificeSystem.altars s) x y)
      as [i0|].
    - destruct Hspec as (j & a & -> & Hj & Hs & Hfirst). simpl. split.
      + intros i. split.
        * intros [= <-]. eauto.
        * intros (a' & Hi & Hs' & Hfirst'). f_equal.
          destruct (Nat.lt_trichotomy i j) as [Hlt|[->|Hgt]]; [|done|].
          -- exfalso. by eapply Hfirst.
          -- exfalso. by eapply Hfirst'.
      + split; [done|]. intros Hnone. exfalso. by eapply Hnone.
    - split.
      + intros i. split; [done|]. intros (a & Hi & Hs & _).
        exfalso. by eapply Hspec.
      + done. }
  split; [apply Hfirst|]. split; [apply Hfirst|].
  intros i Hget. apply Hfirst in Hget as (a & Ha & (_ & _ & Hused) & _).
  unfold consume_altar in Ha. simpl in Ha.
  destruct (SacrificeSystem.altars self !! i) as [a0|] eqn:Hi.
  - rewrite list_lookup_insert_eq in Ha by (by eapply lookup_lt_Some).
    injection Ha as <-. done.
  - congruence.
Qed.

(** ** The exit, defeat and the spawn counts *)

Lemma exit_guard (gm : list (list ascii)) (x y : Z) (b : bool) :
  (if 0 <=? x then
     row0 ← getitem gm 0;
     if x <? Z.of_nat (length row0) then
       if (0 <=? y) && (y <? Z.of_nat (length gm)) then
         row ← getitem gm y;
         tile ← getitem row x;
         Ret (Ascii.eqb tile ">")
       else Ret false
     else Ret false
   else Ret false) = Ret b →
  b = true → exit_tile gm x y.
Proof.
  destruct (Z.leb_spec 0 x) as [Hx|]; [|by intros [= <-]].
  intros H. apply bind_Ret_inv in H as (row0 & _ & H).
  destruct (x <? _); [|by injection H as <-].
  destruct (Z.leb_spec 0 y) as [Hy|]; [|by injection H as <-].
  destruct (y <? _); simpl in H; [|by injection H as <-].
  apply bind_Ret_inv in H as (row & Hrow & H).
  apply bind_Ret_inv in H as (tile & Htile & H).
  apply getitem_Ret in Hrow as [Hrow _]; [|done].
  apply getitem_Ret in Htile as [Htile _]; [|done].
  injection H as <-. intros ->%Ascii.eqb_eq.
  unfold exit_tile. eauto.
Qed.

(** Whenever [check_victory_condition] returns: it answers [True] only for
    a player standing on the exit tile of the grid with enough sacrifices
    made, and then sets [victory] and logs nothing; when it answers
    [False] the game state is untouched, and the combat log is either
    untouched or extended by one line, the demand for the sacrifices that
    remain, of which there is then at least one. *)
Theorem victory_needs_exit_and_sacrifices (self : GameState.t) (x y : Z)
    (gm : list (list ascii)) (ss : SacrificeSystem.t) (cs : CombatSystem.t)
    (b : bool) (self' : GameState.t) (cs' : CombatSystem.t) :
  GameState_check_victory_condition self x y gm ss cs = Ret (b, self', cs') →
  (b = true →
     exit_tile gm x y ∧ SacrificeSystem.can_use_exit ss = true
     ∧ GameState.victory self' = true ∧ cs' = cs
     ∧ GameState.current_level self' = GameState.current_level self
     ∧ GameState.score self' = GameState.score self)
  ∧ (b = false →
       self' = self
       ∧ (cs' = cs
          ∨ (exit_tile gm x y
             ∧ 1 ≤ SacrificeSystem.get_sacrifices_remaining ss
             ∧ CombatSystem.turn_count cs' = CombatSystem.turn_count cs
             ∧ CombatSystem.combat_log cs'
               = CombatSystem.combat_log cs
                 ++ ["[red]The exit demands "
                       +:+ pretty (SacrificeSystem.get_sacrifices_remaining ss)
                       +:+ " more sacrifice(s)![/]"]))).
Proof.
  unfold GameState_check_victory_condition. intros H.
  apply bind_Ret_inv in H as (on_exit & Hguard & H).
  pose proof (exit_guard gm x y on_exit Hguard) as Hexit.
  destruct on_exit.
  - destruct (SacrificeSystem.can_use_exit ss) eqn:Hcan;
      injection H as <- <- <-.
    + split; [|discriminate]. intros _. split; [by apply Hexit|].
      repeat split; done.
    + split; [discriminate|]. intros _. split; [done|]. right.
      split; [by apply Hexit|]. split; [|done].
      unfold SacrificeSystem.can_use_exit in Hcan.
      unfold SacrificeSystem.get_sacrifices_remaining.
      apply Z.leb_gt in Hcan. lia.
  - injection H as <- <- <-. split; [discriminate|]. intros _. auto.
Qed.

Lemma victory_needs_exit_and_sacrifices_witness :
  (false = true →
     exit_tile [[">"%char]] 0 0
     ∧ SacrificeSystem.can_use_exit SacrificeSystem.init = true
     ∧ GameState.victory GameState.init = true
     ∧ CombatSystem.mk 0 ["[red]The exit demands 1 more sacrifice(s)![/]"]
       = CombatSystem.init
     ∧ GameState.current_level GameState.init
       = GameState.current_level GameState.init
     ∧ GameState.score GameState.init = GameState.score GameState.init)
  ∧ (false = false →
       GameState.init = GameState.init
       ∧ (CombatSystem.mk 0 ["[red]The exit demands 1 more sacrifice(s)![/]"]
          = CombatSystem.init
          ∨ (exit_tile [[">"%char]] 0 0
             ∧ 1 ≤ SacrificeSystem.get_sacrifices_remaining
                     SacrificeSystem.init
             ∧ CombatSystem.turn_count
                 (CombatSystem.mk 0
                    ["[red]The exit demands 1 more sacrifice(s)![/]"])
               = CombatSystem.turn_count CombatSystem.init
             ∧ CombatSystem.combat_log
                 (CombatSystem.mk 0
                    ["[red]The exit demands 1 more sacrifice(s)![/]"])
               = CombatSystem.combat_log CombatSystem.init
                 ++ ["[red]The exit demands "
                       +:+ pretty (SacrificeSystem.get_sacrifices_remaining
                                     SacrificeSystem.init)
                       +:+ " more sacrifice(s)![/]"]))).
Proof.
  apply (victory_needs_exit_and_sacrifices GameState.init 0 0 [[">"%char]]
           SacrificeSystem.init CombatSystem.init).
  vm_compute. reflexivity.
Defined.

(** [get_recent_messages(count)] returns the last [count] entries of the
    log (all of them when the log is shorter) for [count >= 1]; for
    [count = 0] it returns the whole log, not an empty list; and for a
    negative [count] it drops the first [-count] entries. *)
Theorem recent_messages_slice (self : CombatSystem.t) (count : Z) :
  (1 ≤ count →
     CombatSystem_get_recent_messages self count
     = drop (length (CombatSystem.combat_log self) - Z.to_nat count)
         (CombatSystem.combat_log self)
     ∧ length (CombatSystem_get_recent_messages self count)
       = Nat.min (Z.to_nat count) (length (CombatSystem.combat_log self)))
  ∧ (count = 0 →
       CombatSystem_get_recent_messages self count
       = CombatSystem.combat_log self)
  ∧ (count < 0 →
       CombatSystem_get_recent_messages self count
       = drop (Z.to_nat (- count)) (CombatSystem.combat_log self)).
Proof.
  unfold CombatSystem_get_recent_messages, slice_from.
  destruct (CombatSystem.combat_log self) as [|msg log] eqn:Hlog.
  { repeat split; intros; simpl; rewrite ?drop_nil; try done; lia. }
  clear Hlog. generalize (msg :: log). clear msg log. intros l.
  split; [|split].
  - intros Hc. destruct (Z.ltb_spec (- count) 0); [|lia].
    assert (Z.to_nat (Z.max 0 (- count + Z.of_nat (length l)))
            = (length l - Z.to_nat count)%nat) as -> by lia.
    split; [done|]. rewrite length_drop. lia.
  - intros ->. change (- 0 <? 0) with false. cbv iota.
    rewrite Z.min_l by lia. done.
  - intros Hc. destruct (Z.ltb_spec (- count) 0); [lia|].
    destruct (Z.le_gt_cases (- count) (Z.of_nat (length l))).
    + by rewrite Z.min_l.
    + rewrite Z.min_r by lia. rewrite Nat2Z.id.
      rewrite !drop_ge; [done|lia|lia].
Qed.

Lemma recent_messages_slice_witness :
  CombatSystem_get_recent_messages (CombatSystem.mk 3 ["a"; "b"; "c"]) 2
  = ["b"; "c"]
  ∧ CombatSystem_get_recent_messages (CombatSystem.mk 3 ["a"; "b"; "c"]) 0
    = ["a"; "b"; "c"]
  ∧ CombatSystem_get_recent_messages (CombatSystem.mk 3 ["a"; "b"; "c"]) (-1)
    = ["b"; "c"].
Proof.
  destruct (recent_messages_slice (CombatSystem.mk 3 ["a"; "b"; "c"]) 2)
    as (H2 & _ & _).
  destruct (recent_messages_slice (CombatSystem.mk 3 ["a"; "b"; "c"]) 0)
    as (_ & H0 & _).
  destruct (recent_messages_slice (CombatSystem.mk 3 ["a"; "b"; "c"]) (-1))
    as (_ & _ & Hneg).
  split; [|split].
  - destruct H2 as [-> _]; [lia|]. reflexivity.
  - rewrite H0 by reflexivity. reflexivity.
  - rewrite Hneg by lia. reflexivity.
Defined.

(** The number of monsters to spawn is [min(3 + 3 * level, 15)]: 6, 9 and
    12 on the first three levels and 15 from level 4 on; it never shrinks
    when the level advances.  The number of items never exceeds 20 and
    never shrinks when the level advances either; advancing adds
    [100 * new level] to the score and clears [victory]. *)
Theorem spawn_counts_by_level (gs : GameState.t) :
  GameState.get_monster_count_for_level gs
  = Z.min (3 + 3 * GameState.current_level gs) 15
  ∧ GameState.get_monster_count_for_level gs
    ≤ GameState.get_monster_count_for_level (GameState.advance_level gs)
  ∧ GameState.get_item_count_for_level gs ≤ 20
  ∧ GameState.get_item_count_for_level gs
    ≤ GameState.get_item_count_for_level (GameState.advance_level gs)
  ∧ GameState.current_level (GameState.advance_level gs)
    = GameState.current_level gs + 1
  ∧ GameState.score (GameState.advance_level gs)
    = GameState.score gs + 100 * (GameState.current_level gs + 1)
  ∧ GameState.victory (GameState.advance_level gs) = false.
Proof.
  unfold GameState.get_monster_count_for_level,
    GameState.get_item_count_for_level, GameState.advance_level.
  simpl. repeat split; lia.
Qed.

Lemma reveal_row (y : Z) (xs : list Z) (E : gset (Z * Z)) (q : Z * Z) :
  q ∈ foldl (λ acc x, {[ (x, y) ]} ∪ acc) E xs
  ↔ q ∈ E ∨ ∃ x, x ∈ xs ∧ q = (x, y).
Proof.
  revert E. induction xs as [|x xs IH]; intros E; simpl.
  - split; [auto|]. intros [H|(x & Hx & _)]; [done|].
    by apply elem_of_nil in Hx.
  - rewrite IH. set_unfold. naive_solver.
Qed.

Lemma reveal_all_spec (tiles : list (list ascii)) (E : gset (Z * Z))
    (q : Z * Z) :
  q ∈ SacrificeSystem.reveal_all tiles E
  ↔ q ∈ E ∨ (0 ≤ q.1 < Z.of_nat (length (hd [] tiles))
             ∧ 0 ≤ q.2 < Z.of_nat (length tiles)).
Proof.
  unfold SacrificeSystem.reveal_all.
  generalize (Z.of_nat (length (hd [] tiles))) as w.
  generalize (Z.of_nat (length tiles)) as h. intros h w.
  assert (∀ (ys : list Z) (E : gset (Z * Z)),
    q ∈ foldl (λ acc y, foldl (λ acc x, {[ (x, y) ]} ∪ acc) acc (range 0 w))
          E ys
    ↔ q ∈ E ∨ (0 ≤ q.1 < w ∧ q.2 ∈ ys)) as Hrows.
  { induction ys as [|y ys IH]; intros E'; simpl.
    - split; [auto|]. intros [H|[_ H]]; [done|]. by apply elem_of_nil in H.
    - rewrite IH, reveal_row. destruct q as [qx qy]. simpl. split.
      + intros [[H|(x & Hx%elem_of_range & [= -> ->])]|[Hx Hy]].
        * by left.
        * right. split; [lia|]. by left.
        * right. split; [done|]. by right.
      + intros [H|[Hx [->|Hy]%elem_of_cons]].
        * left. by left.
        * left. right. exists qx. split; [|done]. apply elem_of_range. lia.
        * right. done. }
  rewrite Hrows, elem_of_range. tauto.
Qed.

(** FUTURE keeps a quarter of the score (rounded down) from the player
    while leaving it non-negative, and marks every tile of the grid as
    explored on top of what was explored already; MEMORY leaves no tile
    explored and adds 100 to the item spawn bonus, which puts the item
    count at its cap of 20; neither touches the set of currently visible
    tiles. *)
Theorem map_memory_sacrifices (self : SacrificeSystem.t) (p : Player.t)
    (gs : GameState.t) (gm : GameMap.t) (g : Rng) :
  (∃ msg self' gs' gm',
     SacrificeSystem.apply_sacrifice_effect self FUTURE p gs gm g
       = Ret (msg, self', p, gs', gm', g)
     ∧ GameState.score gs'
       = Z.max 0 (GameState.score gs - GameState.score gs / 4)
     ∧ (∀ x y,
          VisibilityTracker.is_explored (GameMap.visibility_tracker gm') x y
            = true
          ↔ VisibilityTracker.is_explored (GameMap.visibility_tracker gm) x y
              = true
            ∨ in_bounds (GameMap.tiles gm) x y)
     ∧ VisibilityTracker.visible (GameMap.visibility_tracker gm')
       = VisibilityTracker.visible (GameMap.visibility_tracker gm))
  ∧ (∃ msg self' gs' gm',
       SacrificeSystem.apply_sacrifice_effect self MEMORY p gs gm g
         = Ret (msg, self', p, gs', gm', g)
       ∧ (∀ x y,
            VisibilityTracker.is_explored (GameMap.visibility_tracker gm') x y
              = false)
       ∧ VisibilityTracker.visible (GameMap.visibility_tracker gm')
         = VisibilityTracker.visible (GameMap.visibility_tracker gm)
       ∧ GameState.item_spawn_bonus gs' = GameState.item_spawn_bonus gs + 100
       ∧ (0 ≤ GameState.item_spawn_bonus gs →
          1 ≤ GameState.current_level gs →
          GameState.get_item_count_for_level gs' = 20)).
Proof.
  split.
  - simpl. do 4 eexists. split; [reflexivity|]. simpl.
    split; [done|]. split; [|done].
    intros x y. unfold VisibilityTracker.is_explored. simpl.
    rewrite !bool_decide_eq_true, reveal_all_spec. unfold in_bounds.
    simpl. tauto.
  - simpl. do 4 eexists. split; [reflexivity|]. simpl.
    split; [|split; [done|split; [done|]]].
    + intros x y. unfold VisibilityTracker.is_explored. simpl.
      apply bool_decide_eq_false. set_solver.
    + intros Hb Hl. unfold GameState.get_item_count_for_level. simpl. lia.
Qed.

Lemma map_memory_sacrifices_witness :
  ∃ msg self' gs' gm',
    SacrificeSystem.apply_sacrifice_effect SacrificeSystem.init MEMORY
      (Player.init 0 0) GameState.init empty_map zero_rng
      = Ret (msg, self', Player.init 0 0, gs', gm', zero_rng)
    ∧ GameState.get_item_count_for_level gs' = 20.
Proof.
  destruct (map_memory_sacrifices SacrificeSystem.init (Player.init 0 0)
              GameState.init empty_map zero_rng)
    as (_ & msg & s' & gs' & gm' & Heq & _ & _ & _ & Hcap).
  exists msg, s', gs', gm'. split; [exact Heq|].
  apply Hcap; simpl; lia.
Defined.

(** ** Items *)

(** What using an item does to the player: a health potion is [heal(25)],
    a sword adds 5 to the attack power, gold does nothing, and a magic
    scroll either heals by some amount between 10 and 30, or adds 2 to the
    attack power, or does nothing.  Only the scroll draws random
    numbers. *)
Theorem item_use_outcomes (item : Item.t) (p : Player.t) (g : Rng) :
  ∃ msg p' g',
    Item_use item p g = Ret (msg, p', g')
    ∧ match Item.item_type item with
      | HEALTH_POTION => p' = Player.heal p 25 ∧ g' = g
      | WEAPON =>
          p' = Player.set_attack_power (Player.attack_power p + 5) p ∧ g' = g
      | GOLD => p' = p ∧ g' = g
      | MAGIC_SCROLL =>
          (∃ n, 10 ≤ n ≤ 30 ∧ p' = Player.heal p n)
          ∨ p' = Player.set_attack_power (Player.attack_power p + 2) p
          ∨ p' = p
      end.
Proof.
  unfold Item_use. destruct (Item.item_type item).
  - do 3 eexists. split; [reflexivity|]. split; [|done].
    unfold Player.heal. f_equal. lia.
  - eauto 10.
  - destruct (choice_elem ["heal"; "damage_boost"; "nothing"] g)
      as (e & g1 & -> & He); [done|].
    cbn [mbind result_bind].
    repeat (apply elem_of_cons in He as [->|He]);
      [| | |by apply elem_of_nil in He].
    + destruct (randint_range 10 30 g1) as (n & g2 & Hn & Hrange); [lia|].
      change (("heal" =? "heal")%string) with true. cbv iota.
      rewrite Hn. cbn [mbind result_bind].
      do 3 eexists. split; [reflexivity|]. left. by exists n.
    + do 3 eexists. split; [reflexivity|]. right. by left.
    + do 3 eexists. split; [reflexivity|]. right. by right.
  - eauto 10.
Qed.

(** [add_item] puts gold into the gold counter and never into the item
    map; any other item raises the stored count of its kind by the item's
    value and leaves the other kinds and the gold alone.  Picking up one
    item of a kind that is absent or stored with a count of at least 1 and
    then using an item of that kind gives back the inventory as it was. *)
Theorem add_item_counts (inv : Inventory.t) (item : Item.t) :
  (Item.item_type item = GOLD →
     Inventory.items (Inventory.add_item inv item).2 = Inventory.items inv
     ∧ Inventory.gold (Inventory.add_item inv item).2
       = Inventory.gold inv + Item.value item)
  ∧ (Item.item_type item ≠ GOLD →
       Inventory.get_item_count (Inventory.add_item inv item).2
         (Item.item_type item)
       = Inventory.get_item_count inv (Item.item_type item) + Item.value item
       ∧ (∀ ty, ty ≠ Item.item_type item →
            Inventory.items (Inventory.add_item inv item).2 !! ty
            = Inventory.items inv !! ty)
       ∧ Inventory.gold (Inventory.add_item inv item).2 = Inventory.gold inv)
  ∧ (Item.item_type item ≠ GOLD → Item.value item = 1 →
     (∀ c, Inventory.items inv !! Item.item_type item = Some c → 1 ≤ c) →
     ∀ p g, ∃ msg p' g',
       Inventory_use_item (Inventory.add_item inv item).2
         (Item.item_type item) p g
       = Ret (Some msg, inv, p', g')).
Proof.
  unfold Inventory.add_item, Inventory.get_item_count.
  split; [|split].
  - intros ->. by rewrite decide_True.
  - intros Hne. rewrite decide_False by done.
    destruct (Inventory.items inv !! Item.item_type item) as [c|] eqn:Hc;
      simpl; rewrite lookup_insert_eq; simpl; (split; [lia|]);
      (split; [|done]); intros ty Hty; by rewrite lookup_insert_ne.
  - intros Hne Hv Hc p g. rewrite decide_False by done.
    destruct inv as [items gold]. simpl in *.
    destruct (items !! Item.item_type item) as [c|] eqn:Hlook; simpl.
    + specialize (Hc c eq_refl).
      destruct (use_item_available
                  (Inventory.mk (<[Item.item_type item := c + Item.value item]>
                                   items) gold)
                  (Item.item_type item) p g (c + Item.value item))
        as (msg & inv' & p' & g' & Heq & _ & Hty & Hother & Hgold);
        [apply lookup_insert_eq | lia |].
      exists msg, p', g'. rewrite Heq.
      destruct inv' as [items' gold']. simpl in *. subst gold'.
      enough (items' = items) as -> by done.
      apply map_eq. intros ty.
      destruct (decide (ty = Item.item_type item)) as [->|Hty'].
      * rewrite Hty, Hlook, Hv.
        destruct (Z.eqb_spec (c + 1) 1); [lia|]. f_equal. lia.
      * rewrite Hother by done. by rewrite lookup_insert_ne.
    + destruct (use_item_available
                  (Inventory.mk (<[Item.item_type item := Item.value item]>
                                   items) gold)
                  (Item.item_type item) p g (Item.value item))
        as (msg & inv' & p' & g' & Heq & _ & Hty & Hother & Hgold);
        [apply lookup_insert_eq | lia |].
      exists msg, p', g'. rewrite Heq.
      destruct inv' as [items' gold']. simpl in *. subst gold'.
      enough (items' = items) as -> by done.
      apply map_eq. intros ty.
      destruct (decide (ty = Item.item_type item)) as [->|Hty'].
      * rewrite Hty, Hlook, Hv. done.
      * rewrite Hother by done. by rewrite lookup_insert_ne.
Qed.

Lemma add_item_counts_witness :
  Inventory.gold
    (Inventory.add_item Inventory.init (Item.init 0 0 GOLD 7)).2 = 7
  ∧ Inventory.get_item_count
      (Inventory.add_item potion_inventory one_potion).2 HEALTH_POTION = 2
  ∧ ∃ msg p' g',
      Inventory_use_item (Inventory.add_item potion_inventory one_potion).2
        HEALTH_POTION (Player.init 0 0) zero_rng
      = Ret (Some msg, potion_inventory, p', g').
Proof.
  destruct (add_item_counts Inventory.init (Item.init 0 0 GOLD 7))
    as (Hgold & _ & _).
  destruct (add_item_counts potion_inventory one_potion)
    as (_ & Hcount & Hround).
  split; [|split].
  - destruct Hgold as [_ Hg]; [reflexivity | exact Hg].
  - destruct Hcount as [Hc _]; [discriminate | exact Hc].
  - apply Hround; [discriminate | reflexivity |].
    intros c Hc. vm_compute in Hc. injection Hc as <-. lia.
Defined.

(** The SOUL sacrifice takes exactly one item out of an inventory whose
    stored counts are all positive: the count of one stored kind drops by
    one (the entry is removed when it was the last), every other kind and
    the gold are untouched, and the counts stay positive.  From an empty
    inventory nothing is taken and no random number is drawn.  Either way
    the player gains 3 attack power and 10 maximum hit points. *)
Theorem soul_takes_one_item (self : SacrificeSystem.t) (p : Player.t)
    (gs : GameState.t) (gm : GameMap.t) (g : Rng) :
  InvRun.counts_positive (Player.inventory p) →
  ∃ msg self' p' g',
    SacrificeSystem.apply_sacrifice_effect self SOUL p gs gm g
      = Ret (msg, self', p', gs, gm, g')
    ∧ Player.attack_power p' = Player.attack_power p + 3
    ∧ Player.max_hp p' = Player.max_hp p + 10
    ∧ Inventory.gold (Player.inventory p')
      = Inventory.gold (Player.inventory p)
    ∧ InvRun.counts_positive (Player.inventory p')
    ∧ (Inventory.items (Player.inventory p) = ∅ →
       Player.inventory p' = Player.inventory p ∧ g' = g)
    ∧ (Inventory.items (Player.inventory p) ≠ ∅ →
       ∃ ty c,
         Inventory.items (Player.inventory p) !! ty = Some c
         ∧ Inventory.get_item_count (Player.inventory p') ty = c - 1
         ∧ ∀ ty', ty' ≠ ty →
             Inventory.items (Player.inventory p') !! ty'
             = Inventory.items (Player.inventory p) !! ty').
Proof.
  intros Hpos. cbn [SacrificeSystem.apply_sacrifice_effect].
  unfold SacrificeSystem.lose_random_item.
  set (inv := Player.inventory p) in *.
  case_bool_decide as Hempty.
  - cbn [mbind result_bind]. do 4 eexists. split; [reflexivity|].
    simpl. repeat split; done.
  - destruct (choice_elem (map fst (map_to_list (Inventory.items inv))) g)
      as (k & g' & -> & Hk).
    { intros Hnil. apply Hempty, map_to_list_empty_iff.
      by destruct (map_to_list (Inventory.items inv)). }
    cbn [mbind result_bind].
    apply list_elem_of_fmap in Hk as [[k' c] [-> Hk]].
    apply elem_of_map_to_list in Hk. simpl fst. rewrite Hk.
    pose proof (Hpos _ _ Hk) as Hc.
    destruct (Z.ltb_spec 0 c); [|lia].
    cbn [mbind result_bind]. do 4 eexists. split; [reflexivity|].
    simpl. split; [done|]. split; [done|]. split; [done|].
    split; [|split; [done|]].
    + intros ty c'. destruct (Z.leb_spec (c - 1) 0); simpl.
      * destruct (decide (ty = k')) as [->|Hne].
        -- by rewrite lookup_delete_eq.
        -- rewrite lookup_delete_ne by done. apply Hpos.
      * destruct (decide (ty = k')) as [->|Hne].
        -- rewrite lookup_insert_eq. intros [= <-]. lia.
        -- rewrite lookup_insert_ne by done. apply Hpos.
    + intros _. exists k', c. split; [done|].
      unfold Inventory.get_item_count. simpl.
      destruct (Z.leb_spec (c - 1) 0).
      * rewrite lookup_delete_eq. simpl. split; [lia|].
        intros ty' Hne. by rewrite lookup_delete_ne.
      * rewrite lookup_insert_eq. simpl. split; [done|].
        intros ty' Hne. by rewrite lookup_insert_ne.
Qed.

Lemma soul_takes_one_item_witness :
  ∃ msg self' p' g',
    SacrificeSystem.apply_sacrifice_effect SacrificeSystem.init SOUL
      (Player.set_inventory potion_inventory (Player.init 0 0))
      GameState.init empty_map zero_rng
      = Ret (msg, self', p', GameState.init, empty_map, g')
    ∧ Player.attack_power p' = 13
    ∧ InvRun.counts_positive (Player.inventory p').
Proof.
  destruct (soul_takes_one_item SacrificeSystem.init
              (Player.set_inventory potion_inventory (Player.init 0 0))
              GameState.init empty_map zero_rng)
    as (msg & s' & p' & g' & Heq & Hatk & _ & _ & Hpos & _).
  - intros ty c Hc. simpl in Hc.
    destruct ty; vm_compute in Hc; try discriminate.
    injection Hc as <-. lia.
  - exists msg, s', p', g'. split; [exact Heq|]. split; [exact Hatk|].
    exact Hpos.
Defined.

(** ** What has been seen *)

(** After any series of visibility updates the visible set is the last
    one given, and the explored tiles are exactly those explored before
    together with every tile of every set given: nothing is ever
    forgotten, and after at least one update every visible tile is
    explored. *)
Theorem explored_accumulates (vs : list (gset (Z * Z)))
    (t : VisibilityTracker.t) :
  VisibilityTracker.visible (updates vs t)
  = default (VisibilityTracker.visible t) (last vs)
  ∧ (∀ q, q ∈ VisibilityTracker.explored (updates vs t)
          ↔ q ∈ VisibilityTracker.explored t ∨ ∃ v, v ∈ vs ∧ q ∈ v)
  ∧ (vs ≠ [] →
     ∀ x y, VisibilityTracker.is_visible (updates vs t) x y = true →
            VisibilityTracker.is_explored (updates vs t) x y = true).
Proof.
  assert (∀ (vs : list (gset (Z * Z))) t,
    VisibilityTracker.visible (updates vs t)
    = default (VisibilityTracker.visible t) (last vs)
    ∧ ∀ q, q ∈ VisibilityTracker.explored (updates vs t)
           ↔ q ∈ VisibilityTracker.explored t ∨ ∃ v, v ∈ vs ∧ q ∈ v)
    as Hboth.
  { clear. induction vs as [|v vs IH]; intros t.
    - simpl. split; [done|]. intros q. split; [auto|].
      intros [H|(v & Hv & _)]; [done|]. by apply elem_of_nil in Hv.
    - unfold updates in *. simpl foldl.
      destruct (IH (VisibilityTracker.update_visibility t v)) as [Hvis Hexp].
      split.
      + rewrite Hvis, last_cons. by destruct (last vs).
      + intros q. rewrite Hexp. simpl. set_unfold. naive_solver. }
  destruct (Hboth vs t) as [Hvis Hexp]. split; [done|]. split; [done|].
  intros Hne x y. unfold VisibilityTracker.is_visible,
    VisibilityTracker.is_explored.
  rewrite !bool_decide_eq_true, Hvis, Hexp. intros Hq. right.
  destruct (last vs) as [v|] eqn:Hlast.
  - exists v. split; [|done]. apply last_Some in Hlast as [l' ->].
    set_solver.
  - apply last_None in Hlast. done.
Qed.

(** ** The field of view of a map *)

Lemma line_points_shift (ox oy : Z) (fuel : nat)
    (x2 y2 dx dy x_inc y_inc x y e : Z) :
  line_points fuel (x2 + ox) (y2 + oy) dx dy x_inc y_inc (x + ox, y + oy, e)
  = shift ox oy <$> line_points fuel x2 y2 dx dy x_inc y_inc (x, y, e).
Proof.
  revert x y e. induction fuel as [|fuel IH]; intros x y e; [done|].
  cbn [line_points]. rewrite fmap_cons. f_equal.
  assert ((x + ox =? x2 + ox) = (x =? x2)) as ->
    by (destruct (Z.eqb_spec x x2), (Z.eqb_spec (x + ox) (x2 + ox)); lia).
  assert ((y + oy =? y2 + oy) = (y =? y2)) as ->
    by (destruct (Z.eqb_spec y y2), (Z.eqb_spec (y + oy) (y2 + oy)); lia).
  destruct ((x =? x2) && (y =? y2)); [done|].
  unfold bresenham_step.
  destruct (- dy <? 2 * e); destruct (2 * _ <? dx); rewrite <- IH;
    do 2 f_equal; f_equal; lia.
Qed.

Lemma bresenham_line_shift (ox oy a b : Z) :
  bresenham_line ox oy (a + ox) (b + oy)
  = shift ox oy <$> bresenham_line 0 0 a b.
Proof.
  unfold bresenham_line.
  replace (a + ox - ox) with (a - 0) by lia.
  replace (b + oy - oy) with (b - 0) by lia.
  assert ((ox <? a + ox) = (0 <? a)) as ->
    by (destruct (Z.ltb_spec ox (a + ox)), (Z.ltb_spec 0 a); lia).
  assert ((oy <? b + oy) = (0 <? b)) as ->
    by (destruct (Z.ltb_spec oy (b + oy)), (Z.ltb_spec 0 b); lia).
  apply (line_points_shift ox oy _ a b _ _ _ _ 0 0).
Qed.

Lemma neighbour_line (px py x y : Z) (q : Z * Z) :
  Z.abs (x - px) ≤ 1 → Z.abs (y - py) ≤ 1 →
  q ∈ bresenham_line px py x y → q = (px, py) ∨ q = (x, y).
Proof.
  intros Hx Hy.
  replace x with ((x - px) + px) at 1 by lia.
  replace y with ((y - py) + py) at 1 by lia.
  rewrite bresenham_line_shift.
  intros (q0 & -> & Hq0)%list_elem_of_fmap. unfold shift.
  assert (x - px = -1 ∨ x - px = 0 ∨ x - px = 1) as Ha by lia.
  assert (y - py = -1 ∨ y - py = 0 ∨ y - py = 1) as Hb by lia.
  destruct Ha as [Ha|[Ha|Ha]], Hb as [Hb|[Hb|Hb]]; rewrite Ha, Hb in Hq0;
    vm_compute in Hq0;
    repeat (apply elem_of_cons in Hq0 as [->|Hq0]);
    try (by apply elem_of_nil in Hq0);
    cbn [fst snd]; first [left; f_equal; lia | right; f_equal; lia].
Qed.

(** [GameMap.update_fov] on a rectangular map, from a tile of the map:
    the sight radius is 8 less the player's sight reduction but never
    below 3 (8 without a player); the tiles become visible that lie
    within the radius and have a clear line; the player's own tile and
    every neighbouring tile that is no wall are among them; no visible
    tile other than the player's is a wall; everything visible is
    explored and nothing explored is forgotten. *)
Theorem update_fov_sees_around (self : GameMap.t) (player : option Player.t)
    (px py : Z) (fuel : nat) :
  rectangular (GameMap.tiles self) →
  in_bounds (GameMap.tiles self) px py →
  (∀ p, player = Some p → 0 ≤ Player.sight_radius_reduction p) →
  (16 < fuel)%nat →
  let gm := GameMap.tiles self in
  let r := match player with
           | Some p => Z.max 3 (8 - Player.sight_radius_reduction p)
           | None => 8
           end in
  ∃ self',
    GameMap_update_fov fuel self player px py = Ret self'
    ∧ GameMap.tiles self' = gm
    ∧ 3 ≤ r ≤ 8
    ∧ (∀ x y,
         VisibilityTracker.is_visible (GameMap.visibility_tracker self') x y
           = true
         ↔ in_bounds gm x y ∧ (x - px) ^ 2 + (y - py) ^ 2 ≤ r * r
           ∧ line_clear gm px py x y)
    ∧ VisibilityTracker.is_visible (GameMap.visibility_tracker self') px py
      = true
    ∧ (∀ x y, Z.abs (x - px) ≤ 1 → Z.abs (y - py) ≤ 1 →
         in_bounds gm x y → wall_at gm x y = false →
         VisibilityTracker.is_visible (GameMap.visibility_tracker self') x y
           = true)
    ∧ (∀ x y,
         VisibilityTracker.is_visible (GameMap.visibility_tracker self') x y
           = true →
         (x, y) ≠ (px, py) → wall_at gm x y = false)
    ∧ (∀ x y,
         VisibilityTracker.is_explored (GameMap.visibility_tracker self') x y
           = true
         ↔ VisibilityTracker.is_explored (GameMap.visibility_tracker self)
             x y = true
           ∨ VisibilityTracker.is_visible (GameMap.visibility_tracker self')
               x y = true).
Proof.
  intros Hrect Horigin Hred Hfuel gm r.
  assert (3 ≤ r ≤ 8) as Hr.
  { subst r. destruct player as [p|]; [|lia].
    specialize (Hred p eq_refl). lia. }
  destruct (simple_fov_spec gm Hrect px py r Horigin fuel ltac:(lia))
    as (V & HV & Hspec).
  assert (∀ x y, (x, y) ∈ V
            ↔ in_bounds gm x y ∧ (x - px) ^ 2 + (y - py) ^ 2 ≤ r * r
              ∧ line_clear gm px py x y) as Hvis.
  { intros x y. rewrite Hspec. split; [tauto|].
    intros (? & ? & ?). split; [done|]. split; [lia|done]. }
  assert (∀ x y, Z.abs (x - px) ≤ 1 → Z.abs (y - py) ≤ 1 →
            in_bounds gm x y →
            (x, y) = (px, py) ∨ wall_at gm x y = false → (x, y) ∈ V)
    as Hnear.
  { intros x y Hx Hy Hin Hopen. apply Hvis. split; [done|]. split; [nia|].
    intros q Hq Hne.
    destruct (neighbour_line px py x y q Hx Hy Hq) as [->| ->]; [done|].
    destruct Hopen as [Heq|Hopen]; [congruence | exact Hopen]. }
  exists (GameMap.mk gm
            (VisibilityTracker.update_visibility
               (GameMap.visibility_tracker self) V)).
  split.
  { unfold GameMap_update_fov. fold gm. cbv zeta. fold r. rewrite HV.
    reflexivity. }
  split; [done|]. split; [done|].
  cbn [GameMap.visibility_tracker]. unfold VisibilityTracker.is_visible,
    VisibilityTracker.is_explored. cbn [VisibilityTracker.visible
    VisibilityTracker.explored VisibilityTracker.update_visibility].
  split. { intros x y. rewrite bool_decide_eq_true. apply Hvis. }
  split. { apply bool_decide_eq_true, Hnear; [lia|lia|done|by left]. }
  split. { intros x y Hx Hy Hin Hw. apply bool_decide_eq_true.
           apply Hnear; auto. }
  split.
  { intros x y HxV%bool_decide_eq_true Hne.
    apply Hvis in HxV as (_ & _ & Hclear).
    apply (Hclear (x, y)); [|done]. apply bresenham_line_ends. }
  intros x y. rewrite !bool_decide_eq_true. set_solver.
Qed.

Lemma update_fov_sees_around_witness :
  ∃ self',
    GameMap_update_fov 17 (GameMap.mk open_room VisibilityTracker.init)
      None 1 1 = Ret self'
    ∧ VisibilityTracker.is_visible (GameMap.visibility_tracker self') 2 1
      = true.
Proof.
  destruct (update_fov_sees_around
              (GameMap.mk open_room VisibilityTracker.init) None 1 1 17)
    as (self' & Hrun & _ & _ & _ & _ & Hnear & _).
  - unfold rectangular. cbn. repeat constructor.
  - unfold in_bounds. cbn. lia.
  - discriminate.
  - lia.
  - exists self'. split; [exact Hrun|].
    apply Hnear; [cbn; lia | cbn; lia | unfold in_bounds; cbn; lia
                 | reflexivity].
Defined.

(** ** The eight rays *)

Lemma range_cons (lo hi : Z) : lo < hi → range lo hi = lo :: range (lo + 1) hi.
Proof.
  intros H. unfold range.
  replace (Z.to_nat (hi - lo)) with (S (Z.to_nat (hi - (lo + 1)))) by lia.
  cbn [seq map]. f_equal; [lia|].
  rewrite <- seq_shift, map_map. apply map_ext. intros. lia.
Qed.

Lemma range_nil (lo hi : Z) : hi ≤ lo → range lo hi = [].
Proof. intros H. unfold range. by replace (Z.to_nat (hi - lo)) with O by lia. Qed.

Lemma cast_ray_loop_spec (gm : list (list ascii)) (px py : Z) (d : Z * Z)
    (n : nat) :
  rectangular gm →
  ∀ (k0 : Z) (V : gset (Z * Z)),
  ∃ V',
    cast_ray_loop (FOVCalculator.init gm) px py d.1 d.2
      (range k0 (k0 + Z.of_nat n)) V = Ret V'
    ∧ ∀ q, q ∈ V'
           ↔ q ∈ V
             ∨ ∃ k, k0 ≤ k < k0 + Z.of_nat n
                    ∧ q = (px + d.1 * k, py + d.2 * k)
                    ∧ ray_reaches gm px py d k0 k.
Proof.
  intros Hrect. induction n as [|n IH]; intros k0 V.
  { rewrite range_nil by lia. exists V. split; [done|]. intros q.
    split; [auto|]. intros [?|(k & ? & _)]; [done | lia]. }
  rewrite range_cons by lia.
  replace (k0 + Z.of_nat (S n)) with (k0 + 1 + Z.of_nat n) by lia.
  cbn [cast_ray_loop].
  replace (FOVCalculator.width (FOVCalculator.init gm))
    with (Z.of_nat (length (hd [] gm))) by (by destruct gm).
  replace (FOVCalculator.height (FOVCalculator.init gm))
    with (Z.of_nat (length gm)) by reflexivity.
  replace (FOVCalculator.game_map (FOVCalculator.init gm)) with gm
    by reflexivity.
  set (x := px + d.1 * k0). set (y := py + d.2 * k0).
  destruct ((0 <=? x) && (x <? Z.of_nat (length (hd [] gm)))
            && ((0 <=? y) && (y <? Z.of_nat (length gm)))) eqn:Hin;
    cbn [negb].
  - assert (in_bounds gm x y) as Hxy.
    { unfold in_bounds.
      apply andb_true_iff in Hin as [[? ?]%andb_true_iff [? ?]%andb_true_iff].
      lia. }
    pose proof (tile_lookup gm Hrect x y Hxy) as Htile.
    destruct (getitem gm y) as [row| |]; [|done..].
    cbn [mbind result_bind] in Htile |- *.
    destruct (getitem row x) as [tile| |]; [|done..].
    cbn [mbind result_bind] in Htile |- *.
    injection Htile as Htile. rewrite Htile.
    destruct (wall_at gm x y) eqn:Hwall.
    + eexists. split; [done|]. intros q. rewrite elem_of_union,
        elem_of_singleton. split.
      * intros [->|?]; [|by left]. right. exists k0. split; [lia|].
        split; [done|]. split; intros j Hj; [|lia].
        by replace j with k0 by lia.
      * intros [?|(k & Hk & -> & Hin' & Hopen)]; [by right|].
        destruct (decide (k = k0)) as [->|Hne]; [by left|].
        specialize (Hopen k0 ltac:(lia)). fold x y in Hopen. congruence.
    + destruct (IH (k0 + 1) ({[ (x, y) ]} ∪ V)) as (V' & -> & HV').
      exists V'. split; [done|]. intros q. rewrite HV', elem_of_union,
        elem_of_singleton. split.
      * intros [[->|?]|(k & Hk & -> & Hin' & Hopen)].
        -- right. exists k0. split; [lia|]. split; [done|].
           split; intros j Hj; [|lia]. by replace j with k0 by lia.
        -- by left.
        -- right. exists k. split; [lia|]. split; [done|].
           split; intros j Hj.
           ++ destruct (decide (j = k0)) as [->|?]; [done|].
              apply Hin'. lia.
           ++ destruct (decide (j = k0)) as [->|?]; [done|].
              apply Hopen. lia.
      * intros [?|(k & Hk & -> & Hin' & Hopen)]; [by left; right|].
        destruct (decide (k = k0)) as [->|Hne]; [by left; left|].
        right. exists k. split; [lia|]. split; [done|].
        split; intros j Hj; [apply Hin' | apply Hopen]; lia.
  - exists V. split; [done|]. intros q. split; [auto|].
    intros [?|(k & Hk & -> & Hin' & _)]; [done|].
    specialize (Hin' k0 ltac:(lia)). fold x y in Hin'.
    unfold in_bounds in Hin'.
    apply andb_false_iff in Hin as [[?|?]%andb_false_iff|[?|?]%andb_false_iff];
      lia.
Qed.

Lemma cast_ray_spec (gm : list (list ascii)) (px py radius : Z)
    (i : nat) (d : Z * Z) (V : gset (Z * Z)) :
  rectangular gm → directions !! i = Some d →
  ∃ V',
    FOVCalculator_cast_ray (FOVCalculator.init gm) px py (Z.of_nat i) radius V
    = Ret V'
    ∧ ∀ q, q ∈ V'
           ↔ q ∈ V
             ∨ ∃ k, 1 ≤ k ≤ radius
                    ∧ q = (px + d.1 * k, py + d.2 * k)
                    ∧ ray_reaches gm px py d 1 k.
Proof.
  intros Hrect Hd. unfold FOVCalculator_cast_ray.
  destruct (getitem_in_range directions (Z.of_nat i)) as (d' & Hd' & ->).
  { apply lookup_lt_Some in Hd. lia. }
  rewrite Nat2Z.id, Hd in Hd'. injection Hd' as <-.
  cbn [mbind result_bind]. destruct d as [dx dy].
  destruct (cast_ray_loop_spec gm px py (dx, dy) (Z.to_nat radius) Hrect 1 V)
    as (V' & HV' & Hspec).
  exists V'. split.
  - rewrite <- HV'. cbn [fst snd]. f_equal.
    destruct (Z.le_gt_cases 0 radius).
    + f_equal. lia.
    + rewrite !range_nil by lia. done.
  - intros q. rewrite Hspec. split; (intros [?|(k & ? & ?)]; [by left|]);
      right; exists k; (split; [lia | done]).
Qed.

(** [FOVCalculator.calculate_fov] on a rectangular map returns the
    origin (wherever it lies) and, along each of the eight directions,
    the tiles at distance 1 to the radius up to and including the first
    wall or the last tile of the map, whichever comes first: a wall that
    stops a ray is itself visible, and nothing behind it is. *)
Theorem calculate_fov_rays (gm : list (list ascii)) (px py radius : Z) :
  rectangular gm →
  ∃ V,
    FOVCalculator_calculate_fov (FOVCalculator.init gm) px py radius = Ret V
    ∧ ∀ q, q ∈ V
           ↔ q = (px, py)
             ∨ ∃ d k, d ∈ directions ∧ 1 ≤ k ≤ radius
                      ∧ q = (px + d.1 * k, py + d.2 * k)
                      ∧ ray_reaches gm px py d 1 k.
Proof.
  intros Hrect. unfold FOVCalculator_calculate_fov.
  assert (∀ (n : nat) (i : nat) (V : gset (Z * Z)),
    (i + n = 8)%nat →
    ∃ V',
      for_each (range (Z.of_nat i) 8)
        (λ visible direction,
           FOVCalculator_cast_ray (FOVCalculator.init gm) px py direction
             radius visible) V = Ret V'
      ∧ ∀ q, q ∈ V'
             ↔ q ∈ V
               ∨ ∃ d k, d ∈ drop i directions ∧ 1 ≤ k ≤ radius
                        ∧ q = (px + d.1 * k, py + d.2 * k)
                        ∧ ray_reaches gm px py d 1 k) as Hloop.
  { induction n as [|n IH]; intros i V Hi.
    - rewrite range_nil by lia. exists V. split; [done|]. intros q.
      split; [auto|]. intros [?|(d & k & Hd & _)]; [done|].
      rewrite drop_ge in Hd by (simpl; lia). by apply elem_of_nil in Hd.
    - rewrite range_cons by lia. rewrite for_each_cons.
      destruct (lookup_lt_is_Some_2 directions i) as [d Hd]; [simpl; lia|].
      destruct (cast_ray_spec gm px py radius i d V Hrect Hd)
        as (V1 & -> & HV1).
      cbn [mbind result_bind].
      replace (Z.of_nat i + 1) with (Z.of_nat (S i)) by lia.
      destruct (IH (S i) V1 ltac:(lia)) as (V' & -> & HV').
      exists V'. split; [done|]. intros q. rewrite HV', HV1.
      rewrite (drop_S _ _ _ Hd). setoid_rewrite elem_of_cons.
      split.
      + intros [[?|(k & ?)]|(d' & k & ? & ?)]; [by left|..].
        * right. exists d, k. split; [by left | done].
        * right. exists d', k. split; [by right | done].
      + intros [?|(d' & k & [->|?] & ?)]; [by left; left|..].
        * left. right. by exists k.
        * right. exists d', k. done. }
  destruct (Hloop 8%nat 0%nat ({[ (px, py) ]} ∪ ∅) eq_refl)
    as (V & HV & Hspec).
  exists V. split; [exact HV|]. intros q. rewrite Hspec. rewrite drop_0.
  rewrite elem_of_union, elem_of_singleton.
  split; (intros [H|H]; [|by right]).
  - destruct H as [H|H]; [by left | by apply elem_of_empty in H].
  - by left; left.
Qed.

Lemma calculate_fov_rays_witness :
  ∃ V,
    FOVCalculator_calculate_fov (FOVCalculator.init cell_room) 1 1 8 = Ret V
    ∧ (1, 0) ∈ V ∧ (1, -1) ∉ V.
Proof.
  destruct (calculate_fov_rays cell_room 1 1 8) as (V & HV & Hspec).
  { unfold rectangular. cbn. repeat constructor. }
  exists V. split; [exact HV|]. split.
  - apply Hspec. right. exists (0, -1), 1. split; [set_solver|].
    split; [lia|]. split; [done|]. split; intros j Hj; [|lia].
    replace j with 1 by lia. unfold in_bounds. cbn. lia.
  - intros Hin. apply Hspec in Hin as [[=]|(d & k & Hd & Hk & Heq & Hin & _)].
    injection Heq as Hx Hy.
    specialize (Hin k ltac:(lia)). unfold in_bounds in Hin. cbn in Hin. lia.
Defined.

(** ** The monsters' turn *)

Lemma one_step_refl (gm : list (list ascii)) (m : Monster.t) :
  one_step gm m m.
Proof.
  unfold one_step, same_monster. split; [repeat split; done|].
  split; [lia|]. split; [lia|]. done.
Qed.

Lemma update_monster_frame (px py : Z) (gm : list (list ascii))
    (vt : VisibilityTracker.t) (sb : Z)
    (msgs : list string) (ms : list Monster.t) (g : Rng) (i : nat)
    (msgs' : list string) (ms' : list Monster.t) (g' : Rng) :
  MonsterManager.update_monster px py gm vt sb (msgs, ms, g) i
    = Ret (msgs', ms', g') →
  length ms' = length ms
  ∧ (∀ j, j ≠ i → ms' !! j = ms !! j)
  ∧ (length msgs' ≤ S (length msgs))%nat
  ∧ ∀ m, ms !! i = Some m →
      ∃ m', ms' !! i = Some m' ∧ one_step gm m m'
            ∧ (stays_put vt px py m → m' = m).
Proof.
  unfold MonsterManager.update_monster.
  destruct (ms !! i) as [m|] eqn:Hm.
  2: { intros [= <- <- <-]. split; [done|]. split; [done|].
       split; [lia|]. done. }
  assert (∀ msgs' : list string, (length msgs' ≤ S (length msgs))%nat →
    length ms = length ms
    ∧ (∀ j, j ≠ i → ms !! j = ms !! j)
    ∧ (length msgs' ≤ S (length msgs))%nat
    ∧ ∀ m0, Some m = Some m0 →
        ∃ m', ms !! i = Some m' ∧ one_step gm m0 m'
              ∧ (stays_put vt px py m0 → m' = m0)) as Hsame.
  { intros ? ?. split; [done|]. split; [done|]. split; [done|].
    intros m0 [= <-]. exists m. split; [done|].
    split; [apply one_step_refl | done]. }
  destruct (Monster.is_alive m) eqn:Halive; cbn [negb].
  2: { intros [= <- <- <-]. apply Hsame. lia. }
  destruct (VisibilityTracker.is_visible vt _ _) eqn:Hvis; cbn [negb].
  2: { intros [= <- <- <-]. apply Hsame. lia. }
  destruct (Monster.is_adjacent_to m px py) eqn:Hadj.
  { intros [= <- <- <-]. apply Hsame. rewrite length_app. simpl. lia. }
  destruct (Monster.distance_to_le m px py 8) eqn:Hdist.
  2: { intros [= <- <- <-]. apply Hsame. lia. }
  destruct (MonsterManager._can_see_player m px py gm) as [sees| |];
    [|done..].
  cbn [mbind result_bind]. destruct sees.
  2: { intros [= <- <- <-]. apply Hsame. lia. }
  destruct (Monster.move_towards m px py gm sb g) as [[[b m1] g1]| |] eqn:Hmove;
    [|done..].
  cbn [mbind result_bind].
  apply move_towards_spec in Hmove
    as (Hsm & Hstill & _ & _ & Hmoved).
  assert (¬ stays_put vt px py m) as Hgo.
  { intros [?|[?|[?|?]]]; congruence. }
  assert (i < length ms)%nat as Hi by (by eapply lookup_lt_Some).
  assert (∀ (msgs' : list string) m',
    (length msgs' ≤ S (length msgs))%nat → one_step gm m m' →
    length (<[i:=m']> ms) = length ms
    ∧ (∀ j, j ≠ i → <[i:=m']> ms !! j = ms !! j)
    ∧ (length msgs' ≤ S (length msgs))%nat
    ∧ ∀ m0, Some m = Some m0 →
        ∃ m'', <[i:=m']> ms !! i = Some m'' ∧ one_step gm m0 m''
               ∧ (stays_put vt px py m0 → m'' = m0)) as Hset.
  { intros ? m' ? Hstep. split; [by rewrite length_insert|].
    split; [intros j Hj; by rewrite list_lookup_insert_ne|].
    split; [done|]. intros m0 [= <-]. exists m'.
    split; [by rewrite list_lookup_insert_eq|]. split; [done|]. tauto. }
  assert (one_step gm m m1) as Hstep1.
  { unfold one_step. split; [done|]. destruct b.
    - destruct (Hmoved eq_refl) as (_ & ? & ? & _ & _ & ?). done.
    - destruct (Hstill eq_refl) as [-> ->]. split; [lia|]. split; [lia|].
      done. }
  destruct b.
  - destruct (MonsterManager.get_monster_at _ _ _) as [j|].
    + destruct (negb (j =? i)%nat).
      * intros [= <- <- <-]. rewrite list_insert_insert_eq.
        apply Hset; [lia|].
        unfold one_step, same_monster in *. simpl.
        split; [tauto|]. split; [lia|]. split; [lia|]. done.
      * intros [= <- <- <-]. apply Hset; [|done].
        rewrite length_app. simpl. lia.
    + intros [= <- <- <-]. apply Hset; [|done].
      rewrite length_app. simpl. lia.
  - intros [= <- <- <-]. apply Hset; [lia | done].
Qed.

Lemma update_loop_frame (px py : Z) (gm : list (list ascii))
    (vt : VisibilityTracker.t) (sb : Z) (n : nat) :
  ∀ (k : nat) (msgs0 : list string) (ms0 : list Monster.t) (g0 : Rng)
    (msgs : list string) (ms' : list Monster.t) (g' : Rng),
  for_each (seq k n) (MonsterManager.update_monster px py gm vt sb)
    (msgs0, ms0, g0) = Ret (msgs, ms', g') →
  length ms' = length ms0
  ∧ (length msgs ≤ length msgs0 + n)%nat
  ∧ (∀ j, (j < k ∨ k + n ≤ j)%nat → ms' !! j = ms0 !! j)
  ∧ ∀ i m, (k ≤ i < k + n)%nat → ms0 !! i = Some m →
      ∃ m', ms' !! i = Some m' ∧ one_step gm m m'
            ∧ (stays_put vt px py m → m' = m).
Proof.
  induction n as [|n IH]; intros k msgs0 ms0 g0 msgs ms' g'.
  { intros [= <- <- <-]. split; [done|]. split; [lia|]. split; [done|].
    intros; lia. }
  cbn [seq]. rewrite for_each_cons.
  destruct (MonsterManager.update_monster px py gm vt sb (msgs0, ms0, g0) k)
    as [[[msgs1 ms1] g1]| |] eqn:Hstep; [|done..].
  cbn [mbind result_bind]. intros Hrest.
  apply update_monster_frame in Hstep as (Hlen1 & Hothers1 & Hmsgs1 & Hat1).
  apply IH in Hrest as (Hlen & Hmsgs & Hothers & Hat).
  split; [congruence|]. split; [lia|]. split.
  { intros j Hj. rewrite Hothers by lia. apply Hothers1. lia. }
  intros i m Hi Hm. destruct (decide (i = k)) as [->|Hne].
  - destruct (Hat1 m Hm) as (m' & Hm' & Hstep & Hput).
    exists m'. split; [|done]. rewrite Hothers by lia. done.
  - apply Hat; [lia|]. rewrite Hothers1 by done. done.
Qed.

(** One pass of [update_monsters] keeps the list of monsters in
    length and order, reports at most one message per monster, and leaves
    every monster the same monster (kind, hit points, attack power, alive
    flag), at most one tile from where it stood along each axis and, if
    it stands elsewhere, on a tile of the map that is no wall.  A monster
    that is dead, out of the player's sight, next to the player or more
    than 8 tiles away is not touched at all. *)
Theorem update_monsters_frame (self : list Monster.t) (px py : Z)
    (gm : list (list ascii)) (vt : VisibilityTracker.t) (sb : Z) (g : Rng)
    (msgs : list string) (self' : list Monster.t) (g' : Rng) :
  MonsterManager.update_monsters self px py gm vt sb g
    = Ret (msgs, self', g') →
  length self' = length self
  ∧ (length msgs ≤ length self)%nat
  ∧ ∀ i m, self !! i = Some m →
      ∃ m', self' !! i = Some m' ∧ one_step gm m m'
            ∧ (stays_put vt px py m → m' = m).
Proof.
  unfold MonsterManager.update_monsters. intros H.
  apply update_loop_frame in H as (Hlen & Hmsgs & _ & Hat).
  split; [done|]. split; [simpl in Hmsgs; lia|].
  intros i m Hm. apply Hat; [|done].
  apply lookup_lt_Some in Hm. lia.
Qed.

Lemma update_monsters_frame_witness :
  length [Monster.set_pos 2 1 (Monster.init 1 1 GOBLIN)] = length lone_goblin
  ∧ ∃ m', [Monster.set_pos 2 1 (Monster.init 1 1 GOBLIN)] !! 0%nat = Some m'
          ∧ one_step open_room (rested (Monster.init 1 1 GOBLIN)) m'.
Proof.
  destruct (update_monsters_frame lone_goblin 3 1 open_room all_visible 0
              zero_rng ["The Goblin moves closer!"]
              [Monster.set_pos 2 1 (Monster.init 1 1 GOBLIN)] zero_rng)
    as (Hlen & _ & Hat); [vm_compute; reflexivity|].
  split; [exact Hlen|].
  destruct (Hat 0%nat (rested (Monster.init 1 1 GOBLIN)) eq_refl)
    as (m' & Hm' & Hstep & _).
  exists m'. split; [exact Hm' | exact Hstep].
Defined.

(** ** A whole turn *)

Lemma attack_loop_hp (monsters : list Monster.t) (vt : VisibilityTracker.t)
    (l : list nat) :
  ∀ (acc : list (nat * list string)) (p : Player.t) (g : Rng)
    (acc' : list (nat * list string)) (p' : Player.t) (g' : Rng),
  for_each l (CombatSystem.attack_step monsters vt) (acc, p, g)
    = Ret (acc', p', g') →
  p' = Player.set_hp (Player.hp p') p
  ∧ (0 ≤ Player.hp p → 0 ≤ Player.hp p' ≤ Player.hp p).
Proof.
  induction l as [|i l IH]; intros acc p g acc' p' g'.
  { intros [= <- <- <-]. split; [by destruct p | lia]. }
  rewrite for_each_cons. intros Heq.
  apply bind_Ret_inv in Heq as [[[acc1 p1] g1] [Hstep Hrest]].
  apply IH in Hrest as [Hframe Hhp].
  assert (p1 = Player.set_hp (Player.hp p1) p
          ∧ (0 ≤ Player.hp p → 0 ≤ Player.hp p1 ≤ Player.hp p))
    as [Hframe1 Hhp1].
  { unfold CombatSystem.attack_step in Hstep.
    destruct (monsters !! i) as [m|];
      [|injection Hstep as <- <- <-; split; [by destruct p | lia]].
    destruct (CombatSystem.attacks_player m p vt) eqn:Hatt;
      [|injection Hstep as <- <- <-; split; [by destruct p | lia]].
    apply bind_Ret_inv in Hstep as [[[msgs p2] g2] [Hatk Hstep]].
    injection Hstep as <- <- <-.
    unfold CombatSystem.monster_attack_player in Hatk.
    assert (Monster.is_alive m = true) as Halive.
    { unfold CombatSystem.attacks_player in Hatt.
      by destruct (Monster.is_alive m). }
    rewrite Halive in Hatk. cbn [negb] in Hatk.
    apply bind_Ret_inv in Hatk as [[d g3] [Hd Hatk]].
    unfold Monster.attack in Hd. rewrite Halive in Hd. cbn [negb] in Hd.
    apply randint_Ret_range in Hd.
    destruct (negb (Player.is_alive (Player.take_damage p d)));
      injection Hatk as <- <- <-;
      (split; [by destruct p | destruct p; simpl; lia]). }
  split.
  - rewrite Hframe, Hframe1. by destruct p.
  - intros Hp. specialize (Hhp1 Hp). lia.
Qed.

(** One call of [process_turn] advances the turn counter by one, keeps
    the last ten lines of the log with the turn's messages appended,
    leaves the player where they stand and changes nothing on them but the
    hit points, which never rise nor fall below zero, and returns a list
    of monsters without the dead: every monster it returns is alive and
    is one of the monsters given after at most one step, and every living
    monster given is still there. *)
Theorem process_turn_bookkeeping (self : CombatSystem.t) (p : Player.t)
    (ms : list Monster.t) (gm : list (list ascii))
    (vt : VisibilityTracker.t) (gs : GameState.t) (g : Rng)
    (msgs : list string) (self' : CombatSystem.t) (p' : Player.t)
    (ms' : list Monster.t) (g' : Rng) :
  CombatSystem.process_turn self p ms gm vt gs g
    = Ret (msgs, self', p', ms', g') →
  CombatSystem.turn_count self' = CombatSystem.turn_count self + 1
  ∧ CombatSystem.combat_log self'
    = CombatSystem.last_ten (CombatSystem.combat_log self ++ msgs)
  ∧ (length (CombatSystem.combat_log self') ≤ 10)%nat
  ∧ p' = Player.set_hp (Player.hp p') p
  ∧ (0 ≤ Player.hp p → 0 ≤ Player.hp p' ≤ Player.hp p)
  ∧ (∀ m', m' ∈ ms' →
       Monster.is_alive m' = true
       ∧ ∃ i m, ms !! i = Some m ∧ one_step gm m m')
  ∧ (∀ i m, ms !! i = Some m → Monster.is_alive m = true →
       ∃ m', m' ∈ ms' ∧ one_step gm m m').
Proof.
  unfold CombatSystem.process_turn. intros Heq.
  apply bind_Ret_inv in Heq as [[[mm ms1] g1] [Hupd Heq]].
  apply bind_Ret_inv in Heq as [[[attacks p1] g2] [Hatt Heq]].
  injection Heq as <- <- <- <- <-.
  unfold MonsterManager.update_monsters in Hupd.
  apply update_loop_frame in Hupd as (Hlen & _ & _ & Hat0).
  assert (∀ i m, ms !! i = Some m →
            ∃ m', ms1 !! i = Some m' ∧ one_step gm m m'
                  ∧ (stays_put vt (Player.x p) (Player.y p) m → m' = m))
    as Hat.
  { intros i m Hm. apply Hat0; [|done]. apply lookup_lt_Some in Hm. lia. }
  apply attack_loop_hp in Hatt as [Hframe Hhp].
  cbn [CombatSystem.turn_count CombatSystem.combat_log].
  split; [done|].
  set (log := CombatSystem.combat_log self ++ _).
  assert ((if (10 <? length log)%nat then CombatSystem.last_ten log else log)
          = CombatSystem.last_ten log) as ->.
  { destruct (Nat.ltb_spec 10 (length log)); [done|].
    unfold CombatSystem.last_ten.
    replace (length log - 10)%nat with 0%nat by lia. by rewrite drop_0. }
  split; [done|].
  split. { unfold CombatSystem.last_ten. rewrite length_drop. lia. }
  split; [done|]. split; [done|]. split.
  - intros m' Hm'. unfold MonsterManager.remove_dead_monsters in Hm'.
    apply list_elem_of_filter in Hm' as [Halive Hm'].
    split; [done|].
    apply list_elem_of_lookup in Hm' as [i Hi].
    destruct (lookup_lt_is_Some_2 ms i) as [m Hm].
    { rewrite <- Hlen. by eapply lookup_lt_Some. }
    destruct (Hat i m Hm) as (m1 & Hm1 & Hstep & _).
    exists i, m. split; [done|]. congruence.
  - intros i m Hm Halive.
    destruct (Hat i m Hm) as (m1 & Hm1 & Hstep & _).
    exists m1. split; [|done].
    unfold MonsterManager.remove_dead_monsters.
    apply list_elem_of_filter. split.
    + destruct Hstep as [Hsame _]. unfold same_monster in Hsame.
      destruct Hsame as (_ & _ & _ & _ & _ & _ & ->). done.
    + by eapply list_elem_of_lookup_2.
Qed.

Lemma process_turn_bookkeeping_witness :
  CombatSystem.turn_count
    (CombatSystem.mk 1
       [ "The Goblin moves closer!"; "The Goblin attacks you for 3 damage!";
         "You have 97/100 HP remaining." ])
  = CombatSystem.turn_count CombatSystem.init + 1
  ∧ 0 ≤ Player.hp (Player.take_damage (Player.init 3 1) 3)
      ≤ Player.hp (Player.init 3 1).
Proof.
  destruct (process_turn_bookkeeping CombatSystem.init (Player.init 3 1)
              lone_goblin open_room all_visible GameState.init zero_rng
              [ "The Goblin moves closer!";
                "The Goblin attacks you for 3 damage!";
                "You have 97/100 HP remaining." ]
              (CombatSystem.mk 1
                 [ "The Goblin moves closer!";
                   "The Goblin attacks you for 3 damage!";
                   "You have 97/100 HP remaining." ])
              (Player.take_damage (Player.init 3 1) 3)
              [Monster.set_pos 2 1 (Monster.init 1 1 GOBLIN)]
              (mkRng (λ _, 0) 1))
    as (Hturn & _ & _ & _ & Hhp & _); [vm_compute; reflexivity|].
  split; [exact Hturn|]. apply Hhp. vm_compute. discriminate.
Defined.

(** ** The rooms of a partition *)

Lemma room_inside_weaken (x y w h x0 y0 w0 h0 : Z)
    (r : DungeonGenerator.room) :
  x0 ≤ x → x + w ≤ x0 + w0 → y0 ≤ y → y + h ≤ y0 + h0 →
  room_inside x y w h r → room_inside x0 y0 w0 h0 r.
Proof. destruct r as [[[rx ry] rw] rh]. unfold room_inside. lia. Qed.

Lemma halves_apart (rooms1 rooms2 : list DungeonGenerator.room) :
  (∀ i j r1 r2, i ≠ j → rooms1 !! i = Some r1 → rooms1 !! j = Some r2 →
     rooms_apart r1 r2) →
  (∀ i j r1 r2, i ≠ j → rooms2 !! i = Some r1 → rooms2 !! j = Some r2 →
     rooms_apart r1 r2) →
  (∀ r1 r2, r1 ∈ rooms1 → r2 ∈ rooms2 →
     rooms_apart r1 r2 ∧ rooms_apart r2 r1) →
  ∀ i j r1 r2, i ≠ j →
    (rooms1 ++ rooms2) !! i = Some r1 → (rooms1 ++ rooms2) !! j = Some r2 →
    rooms_apart r1 r2.
Proof.
  intros H1 H2 H12 i j r1 r2 Hij Hi Hj.
  apply lookup_app_Some in Hi as [Hi|[Hi1 Hi]];
    apply lookup_app_Some in Hj as [Hj|[Hj1 Hj]].
  - by apply (H1 i j).
  - apply (H12 r1 r2); by eapply list_elem_of_lookup_2.
  - apply (H12 r2 r1); by eapply list_elem_of_lookup_2.
  - apply (H2 (i - length rooms1)%nat (j - length rooms1)%nat); [lia|done..].
Qed.

(** Where the rooms of a partition lie. *)
Lemma split_space_inside_apart (fuel : nat) (x y width height m : Z) (g : Rng)
    (rooms : list DungeonGenerator.room) (g' : Rng) :
  3 ≤ m → 3 ≤ width → 3 ≤ height →
  DungeonGenerator._split_space fuel x y width height m g = Ret (rooms, g') →
  Forall (room_inside x y width height) rooms
  ∧ ∀ i j r1 r2, i ≠ j → rooms !! i = Some r1 → rooms !! j = Some r2 →
      rooms_apart r1 r2.
Proof.
  intros Hm. revert x y width height g rooms g'.
  induction fuel as [|fuel IH]; intros x y width height g rooms g' Hw Hh;
    [discriminate|].
  simpl. destruct ((width <? m * 2) || (height <? m * 2)) eqn:Hterm.
  - intros Heq.
    apply bind_Ret_inv in Heq as [[ox g1] [Hox Heq]].
    apply bind_Ret_inv in Heq as [[oy g2] [Hoy Heq]].
    injection Heq as <- <-.
    apply randint_Ret_range in Hox, Hoy. split.
    + constructor; [|constructor]. unfold room_inside. lia.
    + intros [|i] [|j] r1 r2 Hij; try done; by destruct i || by destruct j.
  - apply orb_false_iff in Hterm as [Hw2%Z.ltb_ge Hh2%Z.ltb_ge].
    intros Heq. apply bind_Ret_inv in Heq as [[b g1] [_ Heq]].
    destruct b.
    + apply bind_Ret_inv in Heq as [[sp g2] [Hsp Heq]].
      apply randint_Ret_range in Hsp.
      apply bind_Ret_inv in Heq as [[r1 g3] [Hr1 Heq]].
      apply bind_Ret_inv in Heq as [[r2 g4] [Hr2 Heq]].
      injection Heq as <- <-.
      apply IH in Hr1 as [Hin1 Hap1]; [|lia..].
      apply IH in Hr2 as [Hin2 Hap2]; [|lia..].
      split.
      * apply Forall_app. split.
        -- eapply Forall_impl; [exact Hin1|]. intros r.
           apply room_inside_weaken; lia.
        -- eapply Forall_impl; [exact Hin2|]. intros r.
           apply room_inside_weaken; lia.
      * apply halves_apart; [done..|]. intros ra rb Ha Hb.
        rewrite Forall_forall in Hin1, Hin2.
        specialize (Hin1 ra Ha). specialize (Hin2 rb Hb).
        destruct ra as [[[? ?] ?] ?], rb as [[[? ?] ?] ?].
        unfold room_inside, rooms_apart in *. lia.
    + apply bind_Ret_inv in Heq as [[sp g2] [Hsp Heq]].
      apply randint_Ret_range in Hsp.
      apply bind_Ret_inv in Heq as [[r1 g3] [Hr1 Heq]].
      apply bind_Ret_inv in Heq as [[r2 g4] [Hr2 Heq]].
      injection Heq as <- <-.
      apply IH in Hr1 as [Hin1 Hap1]; [|lia..].
      apply IH in Hr2 as [Hin2 Hap2]; [|lia..].
      split.
      * apply Forall_app. split.
        -- eapply Forall_impl; [exact Hin1|]. intros r.
           apply room_inside_weaken; lia.
        -- eapply Forall_impl; [exact Hin2|]. intros r.
           apply room_inside_weaken; lia.
      * apply halves_apart; [done..|]. intros ra rb Ha Hb.
        rewrite Forall_forall in Hin1, Hin2.
        specialize (Hin1 ra Ha). specialize (Hin2 rb Hb).
        destruct ra as [[[? ?] ?] ?], rb as [[[? ?] ?] ?].
        unfold room_inside, rooms_apart in *. lia.
Qed.

(** For a minimum room size of at least 3 and a region at least three
    tiles wide and high, every room [_split_space] returns lies inside the
    region and is at least 3 by 3 tiles, and no two rooms share a tile. *)
Theorem split_space_rooms (fuel : nat) (x y width height m : Z) (g : Rng)
    (rooms : list DungeonGenerator.room) (g' : Rng) :
  3 ≤ m → 3 ≤ width → 3 ≤ height →
  DungeonGenerator._split_space fuel x y width height m g = Ret (rooms, g') →
  Forall (room_inside x y width height) rooms
  ∧ ∀ i j r1 r2, i ≠ j → rooms !! i = Some r1 → rooms !! j = Some r2 →
      rooms_apart r1 r2.
Proof. apply split_space_inside_apart. Qed.

Lemma split_space_rooms_witness :
  Forall (room_inside 1 1 12 12) [(1, 1, 10, 4); (1, 7, 10, 4)]
  ∧ rooms_apart (1, 1, 10, 4) (1, 7, 10, 4).
Proof.
  destruct (split_space_rooms 3 1 1 12 12 6 zero_rng
              [(1, 1, 10, 4); (1, 7, 10, 4)] (mkRng (λ _, 0) 6))
    as [Hin Hapart]; [lia | lia | lia | vm_compute; reflexivity |].
  split; [exact Hin|].
  apply (Hapart 0%nat 1%nat); [lia | reflexivity | reflexivity].
Defined.

(** ** Carving a dungeon *)

Lemma setitem_in_range {A} (l : list A) (i : Z) (a : A) :
  0 ≤ i < Z.of_nat (length l) → setitem l i a = Ret (<[Z.to_nat i := a]> l).
Proof.
  intros Hi. unfold setitem.
  destruct (Z.ltb_spec i 0); [lia|].
  destruct (Z.leb_spec 0 i); [|lia].
  destruct (Z.ltb_spec i (Z.of_nat (length l))); [|lia]. done.
Qed.

Lemma tile_at_in_grid (w h : Z) (d : list (list ascii)) (x y : Z) :
  grid w h d → (is_Some (tile_at d x y) ↔ 0 ≤ x < w ∧ 0 ≤ y < h).
Proof.
  intros [Hh Hw]. unfold tile_at.
  destruct (Z.leb_spec 0 x), (Z.leb_spec 0 y); cbn [andb];
    try (split; [intros [? [=]] | lia]).
  destruct (d !! Z.to_nat y) as [row|] eqn:Hrow; cbn.
  - assert (Z.of_nat (length row) = w) as Hlen.
    { eapply (proj1 (Forall_forall _ _) Hw).
      by eapply list_elem_of_lookup_2. }
    apply lookup_lt_Some in Hrow. rewrite lookup_lt_is_Some. lia.
  - apply lookup_ge_None in Hrow. split; [intros [? [=]] | lia].
Qed.

Lemma set_tile_spec (w h : Z) (d : list (list ascii)) (x y : Z) (c : ascii) :
  grid w h d → 0 ≤ x < w → 0 ≤ y < h →
  ∃ d', set_tile d x y c = Ret d' ∧ grid w h d'
        ∧ ∀ x' y', tile_at d' x' y'
                   = if decide (x' = x ∧ y' = y) then Some c
                     else tile_at d x' y'.
Proof.
  intros [Hh Hw] Hx Hy. unfold set_tile.
  destruct (getitem_in_range d y) as (row & Hrow & ->); [lia|].
  cbn [mbind result_bind].
  assert (Z.of_nat (length row) = w) as Hlen.
  { eapply (proj1 (Forall_forall _ _) Hw). by eapply list_elem_of_lookup_2. }
  rewrite setitem_in_range by lia. cbn [mbind result_bind].
  rewrite setitem_in_range by lia. eexists. split; [done|]. split.
  - split; [by rewrite length_insert|].
    apply Forall_insert; [done|]. by rewrite length_insert.
  - intros x' y'. unfold tile_at.
    destruct (Z.leb_spec 0 x'), (Z.leb_spec 0 y'); cbn [andb];
      try (rewrite decide_False by lia; done).
    destruct (decide (y' = y)) as [->|Hy'].
    + rewrite list_lookup_insert_eq by lia. rewrite Hrow. cbn.
      destruct (decide (x' = x)) as [->|Hx'].
      * rewrite list_lookup_insert_eq by lia. by rewrite decide_True.
      * rewrite list_lookup_insert_ne by lia. by rewrite decide_False by lia.
    + rewrite list_lookup_insert_ne by lia. by rewrite decide_False by lia.
Qed.

Lemma carved_nothing (w h : Z) (P : Z → Z → Prop) (d : list (list ascii)) :
  grid w h d → (∀ x y, 0 ≤ x < w → 0 ≤ y < h → ¬ P x y) → carved w h P d d.
Proof.
  intros Hd HP. split; [done|]. split; [|done].
  intros x y Hx Hy HPxy. by destruct (HP x y).
Qed.

Lemma carved_floor_mono (w h : Z) (P : Z → Z → Prop)
    (d d' : list (list ascii)) (x y : Z) :
  carved w h P d d' → tile_at d x y = Some "."%char →
  tile_at d' x y = Some "."%char.
Proof.
  intros (_ & _ & Hch) Hfl.
  destruct (decide (tile_at d' x y = tile_at d x y)) as [->|Hne]; [done|].
  by destruct (Hch x y Hne) as (_ & _ & _ & ?).
Qed.

Lemma carved_trans (w h : Z) (P Q : Z → Z → Prop)
    (d d' d'' : list (list ascii)) :
  carved w h P d d' → carved w h Q d' d'' →
  carved w h (λ x y, P x y ∨ Q x y) d d''.
Proof.
  intros HP HQ. pose proof HP as (Hg1 & Hfl1 & Hch1).
  pose proof HQ as (Hg2 & Hfl2 & Hch2).
  split; [done|]. split.
  - intros x y Hx Hy [HPxy|HQxy]; [|by apply Hfl2].
    eapply carved_floor_mono; [exact HQ|]. by apply Hfl1.
  - intros x y Hne.
    destruct (decide (tile_at d'' x y = tile_at d' x y)) as [Heq|Hne2].
    + rewrite Heq in Hne |- *.
      destruct (Hch1 x y Hne) as (? & ? & ? & ?). auto.
    + destruct (Hch2 x y Hne2) as (? & ? & ? & ?). auto.
Qed.

Lemma carved_equiv (w h : Z) (P Q : Z → Z → Prop)
    (d d' : list (list ascii)) :
  (∀ x y, 0 ≤ x < w → 0 ≤ y < h → P x y ↔ Q x y) →
  carved w h P d d' → carved w h Q d d'.
Proof.
  intros HPQ (Hg & Hfl & Hch). split; [done|]. split.
  - intros x y Hx Hy HQ. apply Hfl; [done..|]. by apply HPQ.
  - intros x y Hne. destruct (Hch x y Hne) as (? & ? & ? & ?).
    split; [by apply HPQ|done].
Qed.

Lemma carve_cell (w h : Z) (d : list (list ascii)) (x y : Z) :
  grid w h d →
  ∃ d',
    (if (0 <=? x) && (x <? w) && ((0 <=? y) && (y <? h))
     then set_tile d x y "." else Ret d) = Ret d'
    ∧ carved w h (λ x' y', x' = x ∧ y' = y) d d'.
Proof.
  intros Hd.
  destruct ((0 <=? x) && (x <? w) && ((0 <=? y) && (y <? h))) eqn:Hin.
  - apply andb_true_iff in Hin as [[? ?]%andb_true_iff [? ?]%andb_true_iff].
    destruct (set_tile_spec w h d x y "." Hd) as (d' & -> & Hd' & Ht);
      [lia..|].
    exists d'. split; [done|]. split; [done|]. split.
    + intros x' y' _ _ [-> ->]. rewrite Ht. by rewrite decide_True.
    + intros x' y'. rewrite Ht. destruct (decide (x' = x ∧ y' = y)) as [[-> ->]|];
        [|done]. intros _. split; [done|]. split; [lia|]. split; [lia|done].
  - exists d. split; [done|]. apply carved_nothing; [done|].
    intros x' y' Hx' Hy' [-> ->].
    apply andb_false_iff in Hin as [[?|?]%andb_false_iff|[?|?]%andb_false_iff];
      lia.
Qed.

Lemma for_each_carved {A} (w h : Z) (l : list A)
    (body : list (list ascii) → A → result (list (list ascii)))
    (P : A → Z → Z → Prop) :
  (∀ d a, a ∈ l → grid w h d →
     ∃ d', body d a = Ret d' ∧ carved w h (P a) d d') →
  ∀ d, grid w h d →
    ∃ d', for_each l body d = Ret d'
          ∧ carved w h (λ x y, ∃ a, a ∈ l ∧ P a x y) d d'.
Proof.
  induction l as [|a l IH]; intros Hbody d Hd.
  - exists d. split; [done|]. apply carved_nothing; [done|].
    intros x y _ _ (a & Ha & _). by apply elem_of_nil in Ha.
  - rewrite for_each_cons.
    destruct (Hbody d a ltac:(left) Hd) as (d1 & -> & H1).
    cbn [mbind result_bind].
    destruct (IH (λ d a Ha, Hbody d a ltac:(by right)) d1 (proj1 H1))
      as (d' & -> & H2).
    exists d'. split; [done|].
    eapply carved_equiv; [|exact (carved_trans _ _ _ _ _ _ _ H1 H2)].
    intros x y _ _. cbn. split.
    + intros [?|(a' & ? & ?)]; [exists a; split; [left|done]
                                |exists a'; split; [by right|done]].
    + intros (a' & [->|?]%elem_of_cons & ?); [by left|].
      right. by exists a'.
Qed.

Lemma carve_corridor_spec (w h : Z) (d : list (list ascii))
    (x1 y1 x2 y2 : Z) :
  grid w h d →
  ∃ d',
    DungeonGenerator_carve_corridor w h d x1 y1 x2 y2 = Ret d'
    ∧ carved w h
        (λ x y, (y = Z.min y1 y2 ∧ Z.min x1 x2 ≤ x ≤ Z.max x1 x2)
                ∨ (x = Z.max x1 x2 ∧ Z.min y1 y2 ≤ y ≤ Z.max y1 y2))
        d d'.
Proof.
  intros Hd. unfold DungeonGenerator_carve_corridor.
  set (xa := Z.min x1 x2). set (xb := Z.max x1 x2).
  set (ya := Z.min y1 y2). set (yb := Z.max y1 y2).
  assert ((if x2 <? x1 then (x2, x1) else (x1, x2)) = (xa, xb)) as ->
    by (destruct (Z.ltb_spec x2 x1); f_equal; lia).
  assert ((if y2 <? y1 then (y2, y1) else (y1, y2)) = (ya, yb)) as ->
    by (destruct (Z.ltb_spec y2 y1); f_equal; lia).
  destruct (for_each_carved w h (range xa (xb + 1))
              (λ dungeon x,
                 if (0 <=? x) && (x <? w) && ((0 <=? ya) && (ya <? h))
                 then set_tile dungeon x ya "." else Ret dungeon)
              (λ a x' y', x' = a ∧ y' = ya)) with (d := d)
    as (d1 & -> & H1); [|done|].
  { intros d0 a _ Hd0. by apply carve_cell. }
  cbn [mbind result_bind].
  destruct (for_each_carved w h (range ya (yb + 1))
              (λ dungeon y,
                 if (0 <=? xb) && (xb <? w) && ((0 <=? y) && (y <? h))
                 then set_tile dungeon xb y "." else Ret dungeon)
              (λ a x' y', x' = xb ∧ y' = a)) with (d := d1)
    as (d2 & -> & H2); [|exact (proj1 H1)|].
  { intros d0 a _ Hd0. by apply carve_cell. }
  exists d2. split; [done|].
  eapply carved_equiv; [|exact (carved_trans _ _ _ _ _ _ _ H1 H2)].
  intros x y _ _. cbn. setoid_rewrite elem_of_range. split.
  - intros [(a & Ha & -> & ->)|(a & Ha & -> & ->)]; [left|right]; lia.
  - intros [[-> Hx]|[-> Hy]]; [left; exists x|right; exists y]; lia.
Qed.

Lemma connect_rooms_spec (w h : Z) (d : list (list ascii))
    (rooms : list DungeonGenerator.room) :
  grid w h d →
  ∃ d',
    DungeonGenerator_connect_rooms w h d rooms = Ret d'
    ∧ carved w h
        (λ x y, ∃ (i : nat) r1 r2,
           rooms !! i = Some r1 ∧ rooms !! S i = Some r2
           ∧ on_corridor (centre r1) (centre r2) x y)
        d d'.
Proof.
  intros Hd. unfold DungeonGenerator_connect_rooms.
  match goal with
  | |- context [for_each ?l ?b d] =>
      destruct (for_each_carved w h l b
        (λ i x y, ∃ r1 r2,
           rooms !! Z.to_nat i = Some r1 ∧ rooms !! S (Z.to_nat i) = Some r2
           ∧ on_corridor (centre r1) (centre r2) x y)) with (d := d)
        as (d' & -> & H'); [|done|]
  end.
  { intros d0 i Hi%elem_of_range Hd0.
    destruct (getitem_in_range rooms i) as (r1 & Hr1 & ->); [lia|].
    destruct (getitem_in_range rooms (i + 1)) as (r2 & Hr2 & ->); [lia|].
    replace (Z.to_nat (i + 1)) with (S (Z.to_nat i)) in Hr2 by lia.
    cbn [mbind result_bind].
    destruct r1 as [[[r1x r1y] r1w] r1h], r2 as [[[r2x r2y] r2w] r2h].
    cbv zeta.
    destruct (carve_corridor_spec w h d0 (r1x + r1w / 2) (r1y + r1h / 2)
                (r2x + r2w / 2) (r1y + r1h / 2) Hd0) as (d1 & -> & H1).
    cbn [mbind result_bind].
    destruct (carve_corridor_spec w h d1 (r2x + r2w / 2) (r1y + r1h / 2)
                (r2x + r2w / 2) (r2y + r2h / 2) (proj1 H1))
      as (d2 & -> & H2).
    exists d2. split; [done|].
    eapply carved_equiv; [|exact (carved_trans _ _ _ _ _ _ _ H1 H2)].
    intros x y _ _. cbn. rewrite Hr1, Hr2. split.
    - intros Hon. eexists _, _. split; [done|]. split; [done|].
      unfold on_corridor, centre. cbn [fst snd]. lia.
    - intros (? & ? & [= <-] & [= <-] & Hon).
      unfold on_corridor, centre in Hon. cbn [fst snd] in Hon. lia. }
  exists d'. split; [done|].
  eapply carved_equiv; [|exact H']. intros x y _ _. cbn.
  setoid_rewrite elem_of_range. split.
  - intros (i & _ & r1 & r2 & ? & ? & ?). by exists (Z.to_nat i), r1, r2.
  - intros (i & r1 & r2 & Hr1 & Hr2 & ?). exists (Z.of_nat i).
    rewrite Nat2Z.id. split; [|by exists r1, r2].
    apply lookup_lt_Some in Hr2. lia.
Qed.

Lemma carve_rooms_spec (w h : Z) (d : list (list ascii))
    (rooms : list DungeonGenerator.room) :
  grid w h d →
  ∃ d',
    for_each rooms
      (λ dungeon room,
         let '(x, y, rw, rh) := (room : DungeonGenerator.room) in
         for_each (range y (y + rh))
           (λ dungeon ry,
              for_each (range x (x + rw))
                (λ dungeon rx,
                   if (0 <=? rx) && (rx <? w) && ((0 <=? ry) && (ry <? h))
                   then set_tile dungeon rx ry "."
                   else Ret dungeon)
                dungeon)
           dungeon)
      d = Ret d'
    ∧ carved w h (λ x y, ∃ r, r ∈ rooms ∧ in_room r x y) d d'.
Proof.
  intros Hd. apply for_each_carved; [|done].
  intros d0 [[[rx ry] rw] rh] _ Hd0.
  destruct (for_each_carved w h (range ry (ry + rh))
    (λ dungeon y,
       for_each (range rx (rx + rw))
         (λ dungeon x,
            if (0 <=? x) && (x <? w) && ((0 <=? y) && (y <? h))
            then set_tile dungeon x y "." else Ret dungeon)
         dungeon)
    (λ b x' y', y' = b ∧ rx ≤ x' < rx + rw)) with (d := d0)
    as (d' & -> & H'); [|done|].
  { intros d1 b _ Hd1.
    destruct (for_each_carved w h (range rx (rx + rw))
      (λ dungeon x,
         if (0 <=? x) && (x <? w) && ((0 <=? b) && (b <? h))
         then set_tile dungeon x b "." else Ret dungeon)
      (λ a x' y', x' = a ∧ y' = b)) with (d := d1)
      as (d2 & -> & H2); [|done|].
    { intros d2 a _ Hd2. by apply carve_cell. }
    exists d2. split; [done|]. eapply carved_equiv; [|exact H2].
    intros x y _ _. cbn. setoid_rewrite elem_of_range. split.
    - intros (a & Ha & -> & ->). done.
    - intros [-> Hx]. by exists x. }
  exists d'. split; [done|]. eapply carved_equiv; [|exact H'].
  intros x y _ _. cbn. setoid_rewrite elem_of_range. split.
  - intros (b & Hb & -> & Hx). done.
  - intros [Hx Hy]. by exists y.
Qed.

Lemma walls_everywhere (w h x y : Z) :
  0 ≤ w → 0 ≤ h →
  grid w h (replicate (Z.to_nat h) (replicate (Z.to_nat w) "#"%char))
  ∧ tile_at (replicate (Z.to_nat h) (replicate (Z.to_nat w) "#"%char)) x y
    ≠ Some "."%char.
Proof.
  intros Hw Hh. split.
  - split; [rewrite length_replicate; lia|].
    apply Forall_replicate. rewrite length_replicate. lia.
  - unfold tile_at. destruct ((0 <=? x) && (0 <=? y)); [|done].
    destruct (replicate (Z.to_nat h) _ !! Z.to_nat y) as [row|] eqn:Hrow;
      [|done].
    apply lookup_replicate in Hrow as [-> _]. cbn.
    destruct (replicate (Z.to_nat w) _ !! Z.to_nat x) as [t|] eqn:Ht;
      [|done].
    apply lookup_replicate in Ht as [-> _]. done.
Qed.

Lemma centre_in_room (r : DungeonGenerator.room) (x y w h : Z) :
  room_inside x y w h r → in_room r (centre r).1 (centre r).2.
Proof.
  destruct r as [[[rx ry] rw] rh]. unfold room_inside, in_room, centre.
  cbn [fst snd]. intros (? & ? & ? & ? & ? & ?).
  pose proof (Z.div_pos rw 2). pose proof (Z.div_pos rh 2).
  pose proof (Z.div_lt rw 2). pose proof (Z.div_lt rh 2). lia.
Qed.

Lemma in_room_inside (r : DungeonGenerator.room) (x y w h a b : Z) :
  room_inside x y w h r → in_room r a b → x ≤ a < x + w ∧ y ≤ b < y + h.
Proof.
  destruct r as [[[rx ry] rw] rh]. unfold room_inside, in_room. lia.
Qed.

Lemma dug_inside (rooms : list DungeonGenerator.room) (x y w h a b : Z) :
  Forall (room_inside x y w h) rooms → dug rooms a b →
  x ≤ a < x + w ∧ y ≤ b < y + h.
Proof.
  rewrite Forall_forall. intros Hin [(r & Hr & Hab)|(i & r1 & r2 & H1 & H2 & Hon)].
  - eapply in_room_inside; [|exact Hab]. by apply Hin.
  - apply list_elem_of_lookup_2 in H1, H2.
    pose proof (in_room_inside _ _ _ _ _ _ _ (Hin _ H1)
                  (centre_in_room _ _ _ _ _ (Hin _ H1))).
    pose proof (in_room_inside _ _ _ _ _ _ _ (Hin _ H2)
                  (centre_in_room _ _ _ _ _ (Hin _ H2))).
    unfold on_corridor in Hon. lia.
Qed.

(** What [generate_bsp_dungeon] builds. *)
Lemma bsp_dungeon_spec (fuel : nat) (w h m : Z) (g : Rng) :
  5 ≤ w → 5 ≤ h → 3 ≤ m → (depth_bound (w - 2) (h - 2) < fuel)%nat →
  ∃ rooms d g',
    DungeonGenerator._split_space fuel 1 1 (w - 2) (h - 2) m g
      = Ret (rooms, g')
    ∧ DungeonGenerator_generate_bsp_dungeon fuel w h m g = Ret (d, g')
    ∧ rooms ≠ []
    ∧ Forall (room_inside 1 1 (w - 2) (h - 2)) rooms
    ∧ grid w h d
    ∧ (∀ x y, 0 ≤ x < w → 0 ≤ y < h →
         tile_at d x y = Some "."%char ∨ tile_at d x y = Some "#"%char)
    ∧ (∀ x y, floor_at d (x, y) ↔ dug rooms x y).
Proof.
  intros Hw Hh Hm Hfuel.
  destruct (split_space_returns fuel 1 1 (w - 2) (h - 2) m g
              ltac:(lia) Hfuel) as (rooms & g' & Hsplit & Hne).
  destruct (split_space_inside_apart fuel 1 1 (w - 2) (h - 2) m g rooms g'
              Hm ltac:(lia) ltac:(lia) Hsplit) as [Hin _].
  unfold DungeonGenerator_generate_bsp_dungeon. rewrite Hsplit.
  cbn [mbind result_bind].
  set (d0 := replicate (Z.to_nat h) (replicate (Z.to_nat w) "#"%char)).
  assert (grid w h d0) as Hd0 by (apply (walls_everywhere w h 0 0); lia).
  destruct (carve_rooms_spec w h d0 rooms Hd0) as (d1 & -> & H1).
  cbn [mbind result_bind].
  destruct (connect_rooms_spec w h d1 rooms (proj1 H1)) as (d2 & -> & H2).
  cbn [mbind result_bind].
  pose proof (carved_trans _ _ _ _ _ _ _ H1 H2) as (Hd2 & Hfl & Hch).
  exists rooms, d2, g'. split; [done|]. split; [done|]. split; [done|].
  split; [done|]. split; [done|].
  assert (∀ x y, tile_at d2 x y = Some "."%char → dug rooms x y) as Hdug.
  { intros x y Ht.
    destruct (Hch x y) as (Hd & _); [|exact Hd].
    rewrite Ht. intros Heq. symmetry in Heq.
    by apply (proj2 (walls_everywhere w h x y ltac:(lia) ltac:(lia))). }
  split.
  - intros x y Hx Hy.
    destruct (decide (tile_at d2 x y = tile_at d0 x y)) as [Heq|Hne'].
    + right. rewrite Heq. unfold tile_at, d0.
      destruct (Z.leb_spec 0 x); [|lia]. destruct (Z.leb_spec 0 y); [|lia].
      cbn [andb]. rewrite lookup_replicate_2 by lia. cbn.
      by rewrite lookup_replicate_2 by lia.
    + left. by destruct (Hch x y Hne') as (_ & _ & _ & ?).
  - intros x y. split; [apply Hdug|]. intros Hd.
    destruct (dug_inside rooms 1 1 (w - 2) (h - 2) x y Hin Hd).
    unfold floor_at. cbn [fst snd]. apply Hfl; [lia | lia | exact Hd].
Qed.

Lemma joined_sym (d : list (list ascii)) (a b : Z * Z) :
  joined d a b → joined d b a.
Proof.
  unfold joined. induction 1 as [|a b c Hab _ IH]; [done|].
  eapply rtc_r; [exact IH|].
  destruct Hab as (? & ? & ?). split; [done|]. split; [done|]. lia.
Qed.

Lemma joined_trans (d : list (list ascii)) (a b c : Z * Z) :
  joined d a b → joined d b c → joined d a c.
Proof. unfold joined. intros H1 H2. by etrans. Qed.

Lemma row_joined (d : list (list ascii)) (y xa xb : Z) :
  (∀ x, Z.min xa xb ≤ x ≤ Z.max xa xb → floor_at d (x, y)) →
  joined d (xa, y) (xb, y).
Proof.
  assert (∀ (n : nat) xa xb, xb - xa = Z.of_nat n →
    (∀ x, xa ≤ x ≤ xb → floor_at d (x, y)) → joined d (xa, y) (xb, y))
    as Hup.
  { clear. induction n as [|n IH]; intros xa xb Hn Hfl.
    - replace xb with xa by lia. apply rtc_refl.
    - eapply rtc_l; [|apply (IH (xa + 1) xb); [lia|intros; apply Hfl; lia]].
      split; [apply Hfl; lia|]. split; [apply Hfl; lia|]. cbn. lia. }
  intros Hfl. destruct (Z.le_gt_cases xa xb).
  - apply (Hup (Z.to_nat (xb - xa))); [lia|]. intros. apply Hfl. lia.
  - apply joined_sym. apply (Hup (Z.to_nat (xa - xb))); [lia|].
    intros. apply Hfl. lia.
Qed.

Lemma column_joined (d : list (list ascii)) (x ya yb : Z) :
  (∀ y, Z.min ya yb ≤ y ≤ Z.max ya yb → floor_at d (x, y)) →
  joined d (x, ya) (x, yb).
Proof.
  assert (∀ (n : nat) ya yb, yb - ya = Z.of_nat n →
    (∀ y, ya ≤ y ≤ yb → floor_at d (x, y)) → joined d (x, ya) (x, yb))
    as Hup.
  { clear. induction n as [|n IH]; intros ya yb Hn Hfl.
    - replace yb with ya by lia. apply rtc_refl.
    - eapply rtc_l; [|apply (IH (ya + 1) yb); [lia|intros; apply Hfl; lia]].
      split; [apply Hfl; lia|]. split; [apply Hfl; lia|]. cbn. lia. }
  intros Hfl. destruct (Z.le_gt_cases ya yb).
  - apply (Hup (Z.to_nat (yb - ya))); [lia|]. intros. apply Hfl. lia.
  - apply joined_sym. apply (Hup (Z.to_nat (ya - yb))); [lia|].
    intros. apply Hfl. lia.
Qed.

(** Along a row, then along a column. *)
Lemma corner_joined (d : list (list ascii)) (a b : Z * Z) :
  (∀ x y, on_corridor a b x y → floor_at d (x, y)) → joined d a b.
Proof.
  destruct a as [x1 y1], b as [x2 y2]. unfold on_corridor. cbn [fst snd].
  intros Hfl. apply (joined_trans d _ (x2, y1)).
  - apply row_joined. intros x Hx. apply Hfl. left. lia.
  - apply column_joined. intros y Hy. apply Hfl. right. lia.
Qed.

Lemma room_joined (d : list (list ascii)) (r : DungeonGenerator.room)
    (a b : Z * Z) :
  (∀ x y, in_room r x y → floor_at d (x, y)) →
  in_room r a.1 a.2 → in_room r b.1 b.2 → joined d a b.
Proof.
  destruct r as [[[rx ry] rw] rh], a as [x1 y1], b as [x2 y2].
  unfold in_room. cbn [fst snd]. intros Hfl Ha Hb.
  apply corner_joined. unfold on_corridor. cbn [fst snd].
  intros x y Hon. apply Hfl. lia.
Qed.

(** What [generate_bsp_dungeon] builds, for a map at least 5 by 5
    and a minimum room size of at least 3: a grid of the given width and
    height in which every tile is wall or floor; the floor tiles are
    exactly the tiles of the rooms of the partition of the interior and
    of the corridors that join the centres of consecutive rooms, first
    along the row and then along the column; no floor tile lies on the
    border. *)
Theorem bsp_dungeon_layout (fuel : nat) (w h m : Z) (g : Rng) :
  5 ≤ w → 5 ≤ h → 3 ≤ m → (depth_bound (w - 2) (h - 2) < fuel)%nat →
  ∃ rooms d g',
    DungeonGenerator._split_space fuel 1 1 (w - 2) (h - 2) m g
      = Ret (rooms, g')
    ∧ DungeonGenerator_generate_bsp_dungeon fuel w h m g = Ret (d, g')
    ∧ grid w h d
    ∧ (∀ x y, 0 ≤ x < w → 0 ≤ y < h →
         tile_at d x y = Some "."%char ∨ tile_at d x y = Some "#"%char)
    ∧ (∀ x y, floor_at d (x, y) ↔ dug rooms x y)
    ∧ (∀ x y, floor_at d (x, y) → 1 ≤ x < w - 1 ∧ 1 ≤ y < h - 1).
Proof.
  intros Hw Hh Hm Hfuel.
  destruct (bsp_dungeon_spec fuel w h m g Hw Hh Hm Hfuel)
    as (rooms & d & g' & Hsplit & Hgen & _ & Hin & Hd & Htiles & Hfloor).
  exists rooms, d, g'. split; [done|]. split; [done|]. split; [done|].
  split; [done|]. split; [done|].
  intros x y Hfl%Hfloor.
  pose proof (dug_inside rooms 1 1 (w - 2) (h - 2) x y Hin Hfl). lia.
Qed.

Lemma bsp_dungeon_layout_witness :
  ∃ rooms d g',
    DungeonGenerator_generate_bsp_dungeon 20 12 8 6 zero_rng = Ret (d, g')
    ∧ grid 12 8 d
    ∧ (∀ x y, floor_at d (x, y) ↔ dug rooms x y).
Proof.
  destruct (bsp_dungeon_layout 20 12 8 6 zero_rng)
    as (rooms & d & g' & _ & Hgen & Hd & _ & Hfloor & _);
    [lia | lia | lia | vm_compute; lia |].
  exists rooms, d, g'. split; [exact Hgen|]. split; [exact Hd | exact Hfloor].
Defined.

(** In the dungeon [generate_bsp_dungeon] builds (map at least 5 by
    5, minimum room size at least 3) there is floor, and every floor tile
    can be reached from every other by steps between floor tiles that
    share a side. *)
Theorem bsp_dungeon_connected (fuel : nat) (w h m : Z) (g : Rng) :
  5 ≤ w → 5 ≤ h → 3 ≤ m → (depth_bound (w - 2) (h - 2) < fuel)%nat →
  ∃ d g',
    DungeonGenerator_generate_bsp_dungeon fuel w h m g = Ret (d, g')
    ∧ (∃ q, floor_at d q)
    ∧ ∀ a b, floor_at d a → floor_at d b → joined d a b.
Proof.
  intros Hw Hh Hm Hfuel.
  destruct (bsp_dungeon_spec fuel w h m g Hw Hh Hm Hfuel)
    as (rooms & d & g' & _ & Hgen & Hne & Hin & _ & _ & Hfloor).
  exists d, g'. split; [done|].
  rewrite Forall_forall in Hin.
  assert (∀ r x y, r ∈ rooms → in_room r x y → floor_at d (x, y)) as Hroom.
  { intros r x y Hr Hxy. apply Hfloor. left. by exists r. }
  assert (∀ (i : nat) r1 r2 x y,
            rooms !! i = Some r1 → rooms !! S i = Some r2 →
            on_corridor (centre r1) (centre r2) x y → floor_at d (x, y))
    as Hcorr.
  { intros i r1 r2 x y H1 H2 Hon. apply Hfloor. right. by exists i, r1, r2. }
  destruct rooms as [|r0 rooms'] eqn:Hrooms; [done|]. rewrite <- Hrooms in *.
  assert (r0 ∈ rooms) as Hr0 by (rewrite Hrooms; left).
  assert (∀ (i : nat) r, rooms !! i = Some r →
            joined d (centre r0) (centre r)) as Hchain.
  { induction i as [|i IH]; intros r Hr.
    - rewrite Hrooms in Hr. injection Hr as <-. apply rtc_refl.
    - destruct (lookup_lt_is_Some_2 rooms i) as [r1 Hr1].
      { apply lookup_lt_Some in Hr. lia. }
      eapply joined_trans; [exact (IH r1 Hr1)|].
      apply corner_joined. intros x y. by apply (Hcorr i r1 r). }
  assert (∀ a, floor_at d a → joined d (centre r0) a) as Hall.
  { intros [x y] [(r & Hr & Hxy)|(i & r1 & r2 & H1 & H2 & Hon)]%Hfloor.
    - apply list_elem_of_lookup in Hr as Hi. destruct Hi as [i Hi].
      eapply joined_trans; [exact (Hchain i r Hi)|].
      apply (room_joined d r); [intros; by eapply Hroom | | done].
      eapply centre_in_room. by apply Hin.
    - pose proof (λ x y, Hcorr i r1 r2 x y H1 H2) as Hfl.
      destruct (centre r1) as [x1 y1] eqn:Hc1.
      destruct (centre r2) as [x2 y2] eqn:Hc2.
      unfold on_corridor in Hon, Hfl. cbn [fst snd] in Hon, Hfl.
      destruct Hon as [[-> Hx]|[-> Hy]].
      + apply (joined_trans d _ (x1, y1)).
        { rewrite <- Hc1. by apply (Hchain i). }
        apply row_joined. intros x' Hx'. apply Hfl. left. lia.
      + apply (joined_trans d _ (x2, y2)).
        { rewrite <- Hc2. by apply (Hchain (S i)). }
        apply column_joined. intros y' Hy'. apply Hfl. right. lia. }
  split.
  - exists (centre r0). destruct (centre r0) as [cx cy] eqn:Hc.
    apply (Hroom r0); [done|].
    pose proof (centre_in_room r0 _ _ _ _ (Hin r0 Hr0)) as Hcin.
    by rewrite Hc in Hcin.
  - intros a b Ha Hb. eapply joined_trans; [|by apply Hall].
    apply joined_sym. by apply Hall.
Qed.

Lemma bsp_dungeon_connected_witness :
  ∃ d g',
    DungeonGenerator_generate_bsp_dungeon 20 12 8 6 zero_rng = Ret (d, g')
    ∧ ∃ q, floor_at d q.
Proof.
  destruct (bsp_dungeon_connected 20 12 8 6 zero_rng)
    as (d & g' & Hgen & Hq & _); [lia | lia | lia | vm_compute; lia |].
  exists d, g'. split; [exact Hgen | exact Hq].
Defined.

(** ** Spawning *)

Lemma sample_from_spec {A} (k : nat) :
  ∀ (pool : list A) (g : Rng),
  (k ≤ length pool)%nat →
  length (sample_from k pool g).1 = k ∧ (sample_from k pool g).1 ⊆+ pool.
Proof.
  induction k as [|k IH]; intros pool g Hk.
  { split; [done|]. apply submseteq_nil_l. }
  cbn [sample_from next_word].
  set (j := Z.to_nat (tape g (cursor g) mod Z.of_nat (length pool))).
  assert (j < length pool)%nat as Hj.
  { pose proof (Z.mod_pos_bound (tape g (cursor g))
                  (Z.of_nat (length pool)) ltac:(lia)). lia. }
  destruct (lookup_lt_is_Some_2 pool j Hj) as [a Ha]. rewrite Ha.
  destruct (IH (delete j pool) (mkRng (tape g) (S (cursor g)))) as [Hlen Hsub].
  { rewrite length_delete by eauto. lia. }
  destruct (sample_from k (delete j pool) _) as [rest g2]. cbn [fst] in *.
  split; [cbn; lia|].
  rewrite (delete_Permutation pool j a Ha). by apply submseteq_skip.
Qed.

Lemma submseteq_NoDup {A} (l k : list A) : l ⊆+ k → NoDup k → NoDup l.
Proof.
  intros (l' & Hsub & Hperm)%submseteq_sublist_l Hk.
  apply (sublist_NoDup l l'); [by rewrite Hperm | done].
Qed.

Lemma sample_spec {A} (population : list A) (k : Z) (g : Rng) :
  0 ≤ k ≤ Z.of_nat (length population) →
  ∃ res g', sample population k g = Ret (res, g')
            ∧ length res = Z.to_nat k ∧ res ⊆+ population.
Proof.
  intros Hk. unfold sample.
  destruct (Z.ltb_spec k 0); [lia|].
  destruct (Z.ltb_spec (Z.of_nat (length population)) k); [lia|].
  cbn [orb].
  destruct (sample_from_spec (Z.to_nat k) population g ltac:(lia))
    as [Hlen Hsub].
  destruct (sample_from _ _ _) as [res g']. by exists res, g'.
Qed.

Lemma for_each_append {A B} (l : list A)
    (body : list B → A → result (list B)) (f : A → list B) :
  (∀ acc a, a ∈ l → body acc a = Ret (acc ++ f a)) →
  ∀ acc, for_each l body acc = Ret (acc ++ (l ≫= f)).
Proof.
  induction l as [|a l IH]; intros Hbody acc.
  - cbn. by rewrite app_nil_r.
  - rewrite for_each_cons, Hbody by left. cbn [mbind result_bind].
    rewrite IH by (intros; apply Hbody; by right).
    by rewrite bind_cons, app_assoc.
Qed.

(** The floor tiles of a grid, row by row. *)
Lemma floor_tiles_spec (gm : list (list ascii)) :
  rectangular gm →
  ∃ tiles,
    for_each (range 0 (Z.of_nat (length gm)))
      (λ floor_tiles y,
         row0 ← getitem gm 0;
         for_each (range 0 (Z.of_nat (length row0)))
           (λ floor_tiles x,
              row ← getitem gm y;
              tile ← getitem row x;
              if Ascii.eqb tile "." then Ret (floor_tiles ++ [(x, y)])
              else Ret floor_tiles)
           floor_tiles)
      [] = Ret tiles
    ∧ NoDup tiles
    ∧ ∀ q, q ∈ tiles ↔ floor_at gm q.
Proof.
  intros Hrect.
  set (w := Z.of_nat (length (hd [] gm))).
  set (cell := λ (y x : Z),
         if decide (tile_at gm x y = Some "."%char) then [(x, y)] else []).
  set (row := λ y : Z, range 0 w ≫= cell y).
  exists (range 0 (Z.of_nat (length gm)) ≫= row). split.
  - rewrite (for_each_append _ _ row); [done|].
    intros acc y Hy%elem_of_range.
    destruct (getitem_in_range gm 0) as (row0 & Hrow0 & ->); [lia|].
    cbn [mbind result_bind].
    assert (Z.of_nat (length row0) = w) as ->.
    { subst w. destruct gm; [done|]. by injection Hrow0 as ->. }
    apply for_each_append. intros acc' x Hx%elem_of_range.
    destruct (getitem_in_range gm y) as (r & Hr & ->); [lia|].
    cbn [mbind result_bind].
    assert (length r = length (hd [] gm)) as Hlen.
    { eapply (proj1 (Forall_forall _ _) Hrect).
      by eapply list_elem_of_lookup_2. }
    destruct (getitem_in_range r x) as (t & Ht & ->); [subst w; lia|].
    cbn [mbind result_bind]. subst cell. cbn.
    assert (tile_at gm x y = Some t) as ->.
    { unfold tile_at. destruct (Z.leb_spec 0 x); [|lia].
      destruct (Z.leb_spec 0 y); [|lia]. cbn [andb]. rewrite Hr. cbn.
      exact Ht. }
    destruct (Ascii.eqb_spec t "."%char) as [->|Hne].
    + by rewrite decide_True.
    + rewrite decide_False by congruence. by rewrite app_nil_r.
  - assert (∀ q y, q ∈ row y ↔ q.2 = y ∧ 0 ≤ q.1 < w ∧ floor_at gm q)
      as Hrow.
    { intros [qx qy] y. subst row. cbn beta. rewrite list_elem_of_bind.
      setoid_rewrite elem_of_range. subst cell. cbn beta. split.
      - intros (x & Hq & Hx). destruct (decide _) as [Hfl|]; [|by apply elem_of_nil in Hq].
        apply list_elem_of_singleton in Hq as [= -> ->]. done.
      - cbn [fst snd]. intros (-> & Hx & Hfl). exists qx. split; [|done].
        rewrite decide_True by exact Hfl. by apply list_elem_of_singleton. }
    split.
    + apply NoDup_bind.
      * intros y1 y2 q _ _ [<- _]%Hrow [<- _]%Hrow. done.
      * intros y _. subst row. cbn beta. apply NoDup_bind.
        -- intros x1 x2 q _ _ H1 H2. subst cell. cbn beta in *.
           destruct (decide _); [|by apply elem_of_nil in H1].
           destruct (decide _); [|by apply elem_of_nil in H2].
           apply list_elem_of_singleton in H1, H2. congruence.
        -- intros x _. subst cell. cbn beta.
           destruct (decide _); [apply NoDup_singleton | apply NoDup_nil_2].
        -- unfold range. apply NoDup_fmap_2_strong; [|apply NoDup_seq].
           intros ? ? _ _ ?. lia.
      * unfold range. apply NoDup_fmap_2_strong; [|apply NoDup_seq].
        intros ? ? _ _ ?. lia.
    + intros q. rewrite list_elem_of_bind. setoid_rewrite Hrow.
      setoid_rewrite elem_of_range. split; [intros (y & (_ & _ & ?) & _); done|].
      intros Hfl. exists q.2. split; [split; [done|split; [|done]]|].
      * destruct q as [x y]. unfold floor_at, tile_at in Hfl. cbn [fst snd] in *.
        destruct (Z.leb_spec 0 x); [|done]. destruct (Z.leb_spec 0 y); [|done].
        cbn [andb] in Hfl.
        destruct (gm !! Z.to_nat y) as [r|] eqn:Hr; [|done]. cbn in Hfl.
        assert (length r = length (hd [] gm)) as Hlen.
        { eapply (proj1 (Forall_forall _ _) Hrect).
          by eapply list_elem_of_lookup_2. }
        apply lookup_lt_Some in Hfl. subst w. lia.
      * destruct q as [x y]. unfold floor_at, tile_at in Hfl. cbn [fst snd] in *.
        destruct (Z.leb_spec 0 x); [|done]. destruct (Z.leb_spec 0 y); [|done].
        cbn [andb] in Hfl.
        destruct (gm !! Z.to_nat y) as [r|] eqn:Hr; [|done].
        apply lookup_lt_Some in Hr. lia.
Qed.

(** What [find_valid_positions] returns on a rectangular grid. *)
Lemma find_valid_positions_spec (dungeon : list (list ascii)) (count : Z)
    (g : Rng) :
  rectangular dungeon →
  (0 ≤ count →
   ∃ ps g',
     DungeonGenerator_find_valid_positions dungeon count g = Ret (ps, g')
     ∧ NoDup ps
     ∧ (∀ q, q ∈ ps → floor_at dungeon q)
     ∧ (length ps = Z.to_nat count
        ∨ ((length ps < Z.to_nat count)%nat
           ∧ g' = g ∧ ∀ q, floor_at dungeon q → q ∈ ps)))
  ∧ (count < 0 →
     DungeonGenerator_find_valid_positions dungeon count g
     = Raise ValueError).
Proof.
  intros Hrect. unfold DungeonGenerator_find_valid_positions.
  destruct (floor_tiles_spec dungeon Hrect) as (tiles & -> & Hnd & Hfl).
  cbn [mbind result_bind]. split.
  - intros Hc. destruct (Z.ltb_spec (Z.of_nat (length tiles)) count).
    + exists tiles, g. split; [done|]. split; [done|].
      split; [intros q; apply Hfl|]. right. split; [lia|]. split; [done|].
      intros q. apply Hfl.
    + destruct (sample_spec tiles count g ltac:(lia))
        as (ps & g' & -> & Hlen & Hsub).
      exists ps, g'. split; [done|].
      split; [by eapply submseteq_NoDup|].
      split; [|by left]. intros q Hq. apply Hfl.
      by eapply elem_of_submseteq.
  - intros Hc. destruct (Z.ltb_spec (Z.of_nat (length tiles)) count); [lia|].
    unfold sample. destruct (Z.ltb_spec count 0); [done | lia].
Qed.

(** On a rectangular grid [find_valid_positions] returns floor
    tiles only, no tile twice: as many as asked for, or, if the grid has
    fewer floor tiles than that, all of them (and then no random draw is
    made); a negative count raises [ValueError]. *)
Theorem find_valid_positions_distinct (dungeon : list (list ascii))
    (count : Z) (g : Rng) :
  rectangular dungeon →
  (0 ≤ count →
   ∃ ps g',
     DungeonGenerator_find_valid_positions dungeon count g = Ret (ps, g')
     ∧ NoDup ps
     ∧ (∀ q, q ∈ ps → floor_at dungeon q)
     ∧ (length ps = Z.to_nat count
        ∨ ((length ps < Z.to_nat count)%nat
           ∧ g' = g ∧ ∀ q, floor_at dungeon q → q ∈ ps)))
  ∧ (count < 0 →
     DungeonGenerator_find_valid_positions dungeon count g
     = Raise ValueError).
Proof. apply find_valid_positions_spec. Qed.

Lemma find_valid_positions_distinct_witness :
  ∃ ps g',
    DungeonGenerator_find_valid_positions open_room 2 zero_rng = Ret (ps, g')
    ∧ NoDup ps ∧ length ps = 2%nat.
Proof.
  destruct (find_valid_positions_distinct open_room 2 zero_rng) as [Hok _].
  { unfold rectangular. cbn. repeat constructor. }
  destruct (Hok ltac:(lia)) as (ps & g' & Hrun & Hnd & _ & Hlen).
  exists ps, g'. split; [exact Hrun|]. split; [exact Hnd|].
  destruct Hlen as [Hlen|[Hlt [_ Hall]]]; [exact Hlen|].
  exfalso.
  assert (NoDup [(1, 1); (2, 1)] → [(1, 1); (2, 1)] ⊆+ ps → False) as Hno.
  { intros _ Hsub%submseteq_length. cbn in Hsub. lia. }
  apply Hno; [repeat constructor; set_solver|].
  apply NoDup_submseteq; [repeat constructor; set_solver|].
  intros q [->|[->|[]%elem_of_nil]%elem_of_cons]%elem_of_cons;
    apply Hall; reflexivity.
Defined.

Lemma spawn_loop (level : Z) (ps : list (Z * Z)) :
  ∀ (ms : list Monster.t) (g : Rng),
  ∃ new g',
    for_each ps (spawn_one level) (ms, g) = Ret (ms ++ new, g')
    ∧ position <$> new = ps
    ∧ Forall (fresh_monster level) new
    ∧ (level = 1 → Forall (λ m, Monster.monster_type m ≠ DRAGON) new).
Proof.
  induction ps as [|[x y] ps IH]; intros ms g.
  { exists [], g. rewrite app_nil_r. repeat split; constructor. }
  rewrite for_each_cons.
  destruct (random g) as [rand g1] eqn:Hrand.
  set (monster :=
    Monster.mk x y (spawn_kind level rand)
      (Monster.symbol (Monster.init x y (spawn_kind level rand)))
      (Monster.max_hp (Monster.init x y (spawn_kind level rand))
       + (level - 1) * 8)
      (Monster.hp (Monster.init x y (spawn_kind level rand))
       + (level - 1) * 8)
      (Monster.attack_power (Monster.init x y (spawn_kind level rand))
       + (level - 1) * 3)
      (Monster.name (Monster.init x y (spawn_kind level rand))) true 0).
  assert (spawn_one level (ms, g) (x, y) = Ret (ms ++ [monster], g1)) as ->.
  { unfold spawn_one. rewrite Hrand. subst monster.
    by destruct (spawn_kind level rand). }
  cbn [mbind result_bind].
  destruct (IH (ms ++ [monster]) g1)
    as (new & g' & -> & Hpos & Hfresh & Hkind).
  exists (monster :: new), g'. rewrite <- app_assoc. split; [done|].
  split; [by rewrite fmap_cons, Hpos|].
  split.
  - constructor; [|done]. subst monster. unfold fresh_monster.
    by destruct (spawn_kind level rand).
  - intros Hl. constructor; [|by apply Hkind]. subst monster.
    unfold spawn_kind. rewrite Hl. cbn.
    by destruct (Qltb rand (8 # 10)).
Qed.

(** On a rectangular, non-empty map [spawn_monsters] appends to
    the monsters already there one monster per position found, no two on
    the same tile, each on a floor tile, alive and at full health with the
    statistics of its kind raised by 8 hit points and 3 attack per level
    above the first; there are as many as asked for unless the map has
    fewer floor tiles, and on level 1 none of them is a dragon.  A
    negative count raises [ValueError]. *)
Theorem spawn_monsters_spread (self : list Monster.t)
    (game_map : list (list ascii)) (count level : Z) (g : Rng) :
  rectangular game_map → game_map ≠ [] →
  (0 ≤ count →
   ∃ new g',
     MonsterManager_spawn_monsters self game_map count level g
     = Ret (self ++ new, g')
     ∧ NoDup (position <$> new)
     ∧ Forall (λ m, floor_at game_map (position m) ∧ fresh_monster level m)
         new
     ∧ (length new = Z.to_nat count
        ∨ ((length new < Z.to_nat count)%nat
           ∧ ∀ q, floor_at game_map q → q ∈ position <$> new))
     ∧ (level = 1 → Forall (λ m, Monster.monster_type m ≠ DRAGON) new))
  ∧ (count < 0 →
     MonsterManager_spawn_monsters self game_map count level g
     = Raise ValueError).
Proof.
  intros Hrect Hne. unfold MonsterManager_spawn_monsters.
  destruct (getitem_in_range game_map 0) as (row0 & _ & ->).
  { destruct game_map; [done|]. cbn. lia. }
  cbn [mbind result_bind].
  destruct (find_valid_positions_spec game_map count g Hrect) as [Hok Hneg].
  split.
  - intros Hc. destruct (Hok Hc) as (ps & g1 & -> & Hnd & Hfl & Hlen).
    cbn [mbind result_bind].
    destruct (spawn_loop level ps self g1)
      as (new & g' & -> & Hpos & Hfresh & Hkind).
    exists new, g'. split; [done|]. rewrite Hpos. split; [done|].
    split.
    + apply Forall_forall. intros m Hm. split.
      * apply Hfl. rewrite <- Hpos. apply list_elem_of_fmap. by exists m.
      * by apply (proj1 (Forall_forall _ _) Hfresh).
    + split; [|done]. rewrite <- Hpos in Hlen. rewrite length_fmap in Hlen.
      rewrite Hpos in Hlen. destruct Hlen as [?|(? & _ & ?)]; [by left|].
      by right.
  - intros Hc. by rewrite (Hneg Hc).
Qed.

Lemma spawn_monsters_spread_witness :
  ∃ new g',
    MonsterManager_spawn_monsters [] open_room 2 1 zero_rng
    = Ret ([] ++ new, g')
    ∧ NoDup (position <$> new).
Proof.
  destruct (spawn_monsters_spread [] open_room 2 1 zero_rng) as [Hok _].
  { unfold rectangular. cbn. repeat constructor. }
  { discriminate. }
  destruct (Hok ltac:(lia)) as (new & g' & Hrun & Hnd & _).
  exists new, g'. split; [exact Hrun | exact Hnd].
Defined.

(** A new altar is unused, stands where it was put and offers
    exactly two sacrifices, which are of different kinds. *)
Theorem altar_offers_two (x y level : Z) (g : Rng) :
  ∃ a b g',
    Altar_init x y level g = Ret (Altar.mk x y false level [a; b], g')
    ∧ a ≠ b.
Proof.
  unfold Altar_init, Altar_generate_sacrifice_options.
  destruct (sample_spec all_options 2 g) as (res & g' & -> & Hlen & Hsub).
  { cbn. lia. }
  cbn [mbind result_bind].
  assert (NoDup res) as Hnd.
  { eapply submseteq_NoDup; [exact Hsub|].
    unfold all_options. apply (bool_decide_unpack _). by vm_compute. }
  destruct res as [|a [|b [|c res]]]; try done.
  exists a, b, g'. split; [done|].
  apply NoDup_cons in Hnd as [Hab _]. set_solver.
Qed.

(** ** The random walk *)

Lemma joined_mono (d d' : list (list ascii)) (a b : Z * Z) :
  (∀ q, floor_at d q → floor_at d' q) → joined d a b → joined d' a b.
Proof.
  intros Hmono. unfold joined. induction 1 as [|a b c Hab _ IH]; [done|].
  eapply rtc_l; [|exact IH]. destruct Hab as (? & ? & ?).
  split; [by apply Hmono|]. split; [by apply Hmono | done].
Qed.

Lemma random_walk_step_sound (w h : Z) (d : list (list ascii)) (x y : Z)
    (g : Rng) (i : Z) :
  walk_sound w h d x y →
  ∃ d' x' y' g',
    random_walk_step w h (d, x, y, g) i = Ret (d', x', y', g')
    ∧ walk_sound w h d' x' y'
    ∧ floor_at d' (x, y)
    ∧ (∀ q, floor_at d q → floor_at d' q).
Proof.
  intros (Hd & [Hx Hy] & Htiles & Hinside & Hjoin).
  unfold random_walk_step.
  destruct (Z.leb_spec 1 x); [|lia]. destruct (Z.ltb_spec x (w - 1)); [|lia].
  destruct (Z.leb_spec 1 y); [|lia]. destruct (Z.ltb_spec y (h - 1)); [|lia].
  cbn [andb].
  destruct (set_tile_spec w h d x y "." Hd) as (d' & -> & Hd' & Ht);
    [lia..|].
  cbn [mbind result_bind].
  destruct (choice_elem [(0, -1); (0, 1); (-1, 0); (1, 0)] g)
    as ([dx dy] & g' & -> & Hdir); [done|].
  cbn [mbind result_bind].
  assert (Z.abs dx + Z.abs dy = 1) as Hunit.
  { repeat (apply elem_of_cons in Hdir as [[= -> ->]|Hdir]; [lia|]).
    by apply elem_of_nil in Hdir. }
  assert (floor_at d' (x, y)) as Hhere.
  { unfold floor_at. cbn [fst snd]. rewrite Ht. by rewrite decide_True. }
  assert (∀ q, floor_at d q → floor_at d' q) as Hmono.
  { intros [a b]. unfold floor_at. cbn [fst snd]. rewrite Ht.
    by destruct (decide (a = x ∧ b = y)). }
  assert (∀ q, floor_at d' q → q = (x, y) ∨ floor_at d q) as Hnew.
  { intros [a b]. unfold floor_at. cbn [fst snd]. rewrite Ht.
    destruct (decide (a = x ∧ b = y)) as [[-> ->]|]; [by left | by right]. }
  assert (∀ q, floor_at d' q → joined d' (x, y) q) as Hall.
  { intros q [->|Hq]%Hnew; [apply rtc_refl|].
    destruct Hjoin as [Hnone|(p & Hp & Hnear & Hreach)];
      [by destruct (Hnone q)|].
    apply (joined_trans d' _ p);
      [|eapply joined_mono; [exact Hmono | by apply Hreach]].
    destruct (decide (p = (x, y))) as [->|Hne]; [apply rtc_refl|].
    apply rtc_once. split; [done|]. split; [by apply Hmono|].
    destruct p as [px py]. cbn [fst snd] in *.
    assert (px ≠ x ∨ py ≠ y) by (destruct (decide (px = x)); [right|left]; congruence).
    lia. }
  assert (∀ x' y', 1 ≤ x' < w - 1 ∧ 1 ≤ y' < h - 1 →
            Z.abs (x - x') + Z.abs (y - y') ≤ 1 → walk_sound w h d' x' y')
    as Hsound.
  { intros x' y' Hin' Hnear. split; [done|]. split; [done|]. split.
    { intros a b Ha Hb. rewrite Ht.
      destruct (decide (a = x ∧ b = y)); [by left | by apply Htiles]. }
    split.
    { intros a b [[= -> ->]|Hq]%Hnew; [done | by apply Hinside]. }
    right. exists (x, y). split; [done|]. split; [exact Hnear | exact Hall]. }
  destruct ((1 <=? x + dx) && (x + dx <? w - 1)
            && ((1 <=? y + dy) && (y + dy <? h - 1))) eqn:Hmove.
  - apply andb_true_iff in Hmove as [[? ?]%andb_true_iff [? ?]%andb_true_iff].
    exists d', (x + dx), (y + dy), g'. split; [done|].
    split; [apply Hsound; lia | done].
  - exists d', x, y, g'. split; [done|].
    split; [apply Hsound; lia | done].
Qed.

Lemma random_walk_loop (w h : Z) (l : list Z) :
  ∀ (d : list (list ascii)) (x y : Z) (g : Rng),
  walk_sound w h d x y →
  ∃ d' x' y' g',
    for_each l (random_walk_step w h) (d, x, y, g) = Ret (d', x', y', g')
    ∧ walk_sound w h d' x' y'
    ∧ (l ≠ [] → floor_at d' (x, y))
    ∧ (∀ q, floor_at d q → floor_at d' q).
Proof.
  induction l as [|i l IH]; intros d x y g Hs.
  { exists d, x, y, g. done. }
  rewrite for_each_cons.
  destruct (random_walk_step_sound w h d x y g i Hs)
    as (d1 & x1 & y1 & g1 & -> & Hs1 & Hhere & Hmono1).
  cbn [mbind result_bind].
  destruct (IH d1 x1 y1 g1 Hs1) as (d' & x' & y' & g' & -> & Hs' & _ & Hmono).
  exists d', x', y', g'. split; [done|]. split; [done|]. split.
  - intros _. by apply Hmono.
  - intros q Hq. by apply Hmono, Hmono1.
Qed.

(** For a map at least 3 by 3, [generate_random_walk] returns a
    grid of the given size of wall and floor tiles whose border is all
    wall; with at least one step the middle tile is floor; and every
    floor tile can be reached from every other by steps between floor
    tiles that share a side. *)
Theorem random_walk_connected (w h steps : Z) (g : Rng) :
  3 ≤ w → 3 ≤ h →
  ∃ d g',
    DungeonGenerator_generate_random_walk w h steps g = Ret (d, g')
    ∧ grid w h d
    ∧ (∀ x y, 0 ≤ x < w → 0 ≤ y < h →
         tile_at d x y = Some "."%char ∨ tile_at d x y = Some "#"%char)
    ∧ (∀ x y, floor_at d (x, y) → 1 ≤ x < w - 1 ∧ 1 ≤ y < h - 1)
    ∧ (0 < steps → floor_at d (w / 2, h / 2))
    ∧ ∀ a b, floor_at d a → floor_at d b → joined d a b.
Proof.
  intros Hw Hh. unfold DungeonGenerator_generate_random_walk.
  set (d0 := replicate (Z.to_nat h) (replicate (Z.to_nat w) "#"%char)).
  cbv beta iota zeta.
  assert (walk_sound w h d0 (w / 2) (h / 2)) as Hs.
  { split; [apply (walls_everywhere w h 0 0); lia|].
    split.
    { pose proof (Z.div_lt_upper_bound w 2 (w - 1)).
      pose proof (Z.div_le_lower_bound w 2 1).
      pose proof (Z.div_lt_upper_bound h 2 (h - 1)).
      pose proof (Z.div_le_lower_bound h 2 1). lia. }
    split.
    { intros a b Ha Hb. right. unfold tile_at, d0.
      destruct (Z.leb_spec 0 a); [|lia]. destruct (Z.leb_spec 0 b); [|lia].
      cbn [andb]. rewrite lookup_replicate_2 by lia. cbn.
      by rewrite lookup_replicate_2 by lia. }
    split.
    { intros a b Hfl.
      by destruct (proj2 (walls_everywhere w h a b ltac:(lia) ltac:(lia))). }
    left. intros [a b] Hfl.
    by destruct (proj2 (walls_everywhere w h a b ltac:(lia) ltac:(lia))). }
  destruct (random_walk_loop w h (range 0 steps) d0 (w / 2) (h / 2) g Hs)
    as (d & x & y & g' & -> & (Hd & _ & Htiles & Hinside & Hjoin) & Hstart & _).
  cbn [mbind result_bind]. exists d, g'. split; [done|].
  split; [done|]. split; [done|]. split; [done|]. split.
  - intros Hsteps. apply Hstart. rewrite range_cons by lia. done.
  - intros a b Ha Hb. destruct Hjoin as [Hnone|(p & _ & _ & Hreach)];
      [by destruct (Hnone a)|].
    apply (joined_trans d _ p); [apply joined_sym|]; by apply Hreach.
Qed.

Lemma random_walk_connected_witness :
  ∃ d g',
    DungeonGenerator_generate_random_walk 5 5 3 zero_rng = Ret (d, g')
    ∧ floor_at d (5 / 2, 5 / 2).
Proof.
  destruct (random_walk_connected 5 5 3 zero_rng)
    as (d & g' & Hrun & _ & _ & _ & Hmid & _); [lia | lia |].
  exists d, g'. split; [exact Hrun|]. apply Hmid. lia.
Defined.

Lemma explored_accumulates_witness :
  VisibilityTracker.is_explored
    (updates [{[ (1, 1) ]}] VisibilityTracker.init) 1 1 = true.
Proof.
  destruct (explored_accumulates [{[ (1, 1) ]}] VisibilityTracker.init)
    as (_ & _ & Hseen).
  apply Hseen; [discriminate | vm_compute; reflexivity].
Defined.
